(** * bin.ary: a verification development

    Shallow embedding of the analysis pipeline (PE/ELF parsers, decoder
    adapter, cross references, function detection, byte signatures), the
    control-flow-graph builder and the x86 simulator of bin.ary, with the
    properties stated about them.

    Conventions of the embedding.
    - JavaScript [BigInt] values are [Z]; the bit operations [&], [|], [^],
      [~], [<<], [>>] on them are [Z.land], [Z.lor], [Z.lxor], [Z.lnot],
      [Z.shiftl], [Z.shiftr] (both are two's complement on unbounded
      integers), and [BigInt.asUintN n x] is [x mod 2^n].
    - JavaScript [Number] values that hold integers are [Z]; where a value
      can leave the exactly representable range the rounding to a double is
      written out ([JS.to_double]).
    - Strings are [string] and hold ASCII text (the decoder prints ASCII),
      so [toLowerCase] and [trim] act on ASCII letters and white space.
    - Objects and [Map]s used as dictionaries are [gmap]s; arrays are lists.
    - A thrown exception is the [Throw] case of [result]; code that mutates
      the simulator and may throw lives in the monad [M]. *)

From Stdlib Require Import ZArith Lia Ascii String List Bool.
From stdpp Require Import base option list gmap strings.

Local Open Scope string_scope.
Local Open Scope Z_scope.

(** ** JavaScript primitives used by the program *)

Module JS.

Inductive error : Type :=
  | RangeError      (* BigInt(NaN), BigInt(Infinity), out-of-range buffer read *)
  | SyntaxError     (* BigInt of a value that does not denote an integer *)
  | TypeError       (* mixing BigInt with undefined *)
  | Error (msg : string).   (* throw new Error(msg) *)

Inductive result (A : Type) : Type :=
  | Ok (a : A)
  | Throw (e : error).
Arguments Ok {A} a.
Arguments Throw {A} e.

Definition rbind {A B} (r : result A) (k : A -> result B) : result B :=
  match r with Ok a => k a | Throw e => Throw e end.

Definition code (c : ascii) : Z := Z.of_nat (nat_of_ascii c).
Definition chr (n : Z) : ascii := ascii_of_nat (Z.to_nat n).

Definition is_ws (c : ascii) : bool :=
  let n := code c in ((9 <=? n) && (n <=? 13)) || (n =? 32).
Definition is_digit (c : ascii) : bool :=
  let n := code c in (48 <=? n) && (n <=? 57).
Definition is_lower (c : ascii) : bool :=
  let n := code c in (97 <=? n) && (n <=? 122).
Definition is_upper (c : ascii) : bool :=
  let n := code c in (65 <=? n) && (n <=? 90).
Definition lower_char (c : ascii) : ascii :=
  if is_upper c then chr (code c + 32) else c.
(* [0-9a-fA-F] *)
Definition is_hex (c : ascii) : bool :=
  let n := code c in
  is_digit c || ((97 <=? n) && (n <=? 102)) || ((65 <=? n) && (n <=? 70)).
Definition hex_val (c : ascii) : Z :=
  let n := code c in
  if is_digit c then n - 48
  else if (97 <=? n) && (n <=? 102) then n - 87
  else n - 55.

Fixpoint toLowerCase (s : string) : string :=
  match s with
  | EmptyString => EmptyString
  | String c r => String (lower_char c) (toLowerCase r)
  end.

Definition chars (s : string) : list ascii := list_ascii_of_string s.
Definition str (l : list ascii) : string := string_of_list_ascii l.

Fixpoint trimStart (s : string) : string :=
  match s with
  | String c r => if is_ws c then trimStart r else s
  | EmptyString => EmptyString
  end.
Definition trimEnd (s : string) : string :=
  str (rev (chars (trimStart (str (rev (chars s)))))).
Definition trim (s : string) : string := trimEnd (trimStart s).

Definition startsWith (s p : string) : bool := String.prefix p s.
Definition endsWith (s p : string) : bool :=
  String.prefix (str (rev (chars p))) (str (rev (chars s))).

Definition slen (s : string) : Z := Z.of_nat (String.length s).

(* s.slice(a), s.slice(a, -b) for 0 <= a, 0 <= b *)
Definition drop_front (a : nat) (s : string) : string :=
  String.substring a (String.length s - a) s.
Definition slice_inner (a b : nat) (s : string) : string :=
  String.substring a (String.length s - a - b) s.

Definition all_chars (p : ascii -> bool) (s : string) : bool :=
  forallb p (chars s).
(* [p]+ *)
Definition nonempty_all (p : ascii -> bool) (s : string) : bool :=
  negb (String.eqb s "") && all_chars p s.

(* the integer written by a string of hex digits, most significant first *)
Definition hex_value (s : string) : Z :=
  fold_left (fun acc c => 16 * acc + hex_val c) (chars s) 0.
Definition dec_value (s : string) : Z :=
  fold_left (fun acc c => 10 * acc + (code c - 48)) (chars s) 0.

Definition digit_char (d : Z) : ascii :=
  if d <? 10 then chr (48 + d) else chr (87 + d).

Fixpoint digits_loop (fuel : nat) (radix n : Z) (acc : string) : string :=
  match fuel with
  | O => acc
  | S k =>
      let acc' := String (digit_char (n mod radix)) acc in
      if n / radix =? 0 then acc' else digits_loop k radix (n / radix) acc'
  end.

(* n.toString(radix) for an integer n, radix 10 or 16 *)
Definition toString (radix n : Z) : string :=
  let m := Z.abs n in
  let d := digits_loop (S (Z.to_nat (Z.log2 m))) radix m "" in
  if n <? 0 then String "-" d else d.

Fixpoint repeat_char (c : ascii) (n : nat) : string :=
  match n with O => EmptyString | S k => String c (repeat_char c k) end.

(* s.padStart(n, '0') *)
Definition padStart (n : nat) (c : ascii) (s : string) : string :=
  repeat_char c (n - String.length s) +:+ s.

(* The integer nearest to n among the doubles (ties to even): the value of
   Number(n) for an integer n of magnitude below 2^1024. *)
Definition to_double (n : Z) : Z :=
  let m := Z.abs n in
  if m <? 2 ^ 53 then n
  else
    let e := Z.log2 m - 52 in
    let q := Z.shiftr m e in
    let r := m mod 2 ^ e in
    let half := 2 ^ (e - 1) in
    let q' := if (half <? r) || ((r =? half) && Z.odd q) then q + 1 else q in
    Z.sgn n * Z.shiftl q' e.

(* ToInt32 and ToUint32 of an integer-valued Number *)
Definition toUint32 (n : Z) : Z := n mod 2 ^ 32.
Definition toInt32 (n : Z) : Z :=
  let u := n mod 2 ^ 32 in if u <? 2 ^ 31 then u else u - 2 ^ 32.
(* a & b on Numbers *)
Definition and32 (a b : Z) : Z := toInt32 (Z.land (toInt32 a) (toInt32 b)).

Fixpoint hex_prefix (s : string) : string :=
  match s with
  | String c r => if is_hex c then String c (hex_prefix r) else EmptyString
  | EmptyString => EmptyString
  end.

(* parseInt(s, 16) as far as BigInt(...) of it is concerned: None stands for
   the results NaN (no hex digit after the optional sign and 0x) and
   Infinity (beyond the doubles), on both of which BigInt throws. *)
Definition parseInt16 (s : string) : option Z :=
  let s1 := trimStart s in
  let '(neg, s2) :=
    match s1 with
    | String "-" r => (true, r)
    | String "+" r => (false, r)
    | _ => (false, s1)
    end in
  let s3 :=
    match s2 with
    | String "0" (String "x" r) => r
    | String "0" (String "X" r) => r
    | _ => s2
    end in
  let ds := hex_prefix s3 in
  if String.eqb ds "" then None
  else
    let v := to_double (hex_value ds) in
    if 2 ^ 1024 <=? v then None else Some (if neg then - v else v).

(* BigInt(parseInt(s, 16)) *)
Definition BigInt_parseInt16 (s : string) : result Z :=
  match parseInt16 s with
  | Some v => Ok v
  | None => Throw RangeError
  end.

(** Node.js Buffer *)

Definition buffer : Type := list Byte.byte.

Definition byte_val (b : Byte.byte) : Z := Z.of_N (Byte.to_N b).
Definition u8 (z : Z) : Byte.byte :=
  match Byte.of_N (Z.to_N (z mod 256)) with Some b => b | None => Byte.x00 end.

Definition blen (b : buffer) : Z := Z.of_nat (length b).

(* buf[i]: undefined is None *)
Definition byte_at (b : buffer) (i : Z) : option Z :=
  if i <? 0 then None else byte_val <$> (b !! Z.to_nat i).

(* the n bytes from off, or the RangeError of an out-of-range read; the
   offsets the parsers pass are integers *)
Definition read_bytes (b : buffer) (off : Z) (n : nat) : result (list Z) :=
  if (off <? 0) || (blen b <? off + Z.of_nat n) then Throw RangeError
  else Ok (map byte_val (take n (drop (Z.to_nat off) b))).

Definition le_value (bs : list Z) : Z := fold_right (fun x acc => x + 256 * acc) 0 bs.
Definition be_value (bs : list Z) : Z := fold_left (fun acc x => 256 * acc + x) bs 0.

Definition readUInt16LE (b : buffer) (off : Z) : result Z :=
  rbind (read_bytes b off 2) (fun bs => Ok (le_value bs)).
Definition readUInt16BE (b : buffer) (off : Z) : result Z :=
  rbind (read_bytes b off 2) (fun bs => Ok (be_value bs)).
Definition readUInt32LE (b : buffer) (off : Z) : result Z :=
  rbind (read_bytes b off 4) (fun bs => Ok (le_value bs)).
Definition readUInt32BE (b : buffer) (off : Z) : result Z :=
  rbind (read_bytes b off 4) (fun bs => Ok (be_value bs)).
Definition readBigUInt64LE (b : buffer) (off : Z) : result Z :=
  rbind (read_bytes b off 8) (fun bs => Ok (le_value bs)).

(* buf.slice(a, b) for 0 <= a: both ends are clamped to the length *)
Definition bslice (b : buffer) (a e : Z) : buffer :=
  let a := Z.min a (blen b) in
  let e := Z.min e (blen b) in
  take (Z.to_nat (e - a)) (drop (Z.to_nat a) b).

(* buf.toString('ascii'): the high bit of every byte is dropped *)
Definition ascii_string (b : buffer) : string :=
  str (map (fun x => chr (Z.land (byte_val x) 0x7F)) b).

(* a + b and a * b on integer-valued Numbers *)
Definition nadd (a b : Z) : Z := to_double (a + b).
Definition nmul (a b : Z) : Z := to_double (a * b).

(* x.toFixed(f) for x = num / 2^k >= 0 below 10^21: the nearest multiple of
   10^-f, the larger one on a tie *)
Definition toFixed_pow2 (num k : Z) (f : nat) : string :=
  let scale := 10 ^ Z.of_nat f in
  let n := (2 * num * scale + 2 ^ k) / 2 ^ (k + 1) in
  let ip := toString 10 (n / scale) in
  match f with
  | O => ip
  | _ => ip +:+ "." +:+ padStart f "0" (toString 10 (n mod scale))
  end.

End JS.

(** ** The instruction record shared by the decoder adapter, the analyses and
    the simulator *)

Record Instruction : Type := {
  address : string;
  bytes : string;
  mnemonic : string;
  operands : string
}.

(** ** The simulator (public/sim.js) *)

Module Sim.
Import JS.

(** *** Register tables *)

Definition R64 : list string :=
  ["rax";"rbx";"rcx";"rdx";"rsi";"rdi";"rsp";"rbp";"r8";"r9";"r10";"r11";"r12";"r13";"r14";"r15";"rip"].
Definition R32 : list string :=
  ["eax";"ebx";"ecx";"edx";"esi";"edi";"esp";"ebp";"r8d";"r9d";"r10d";"r11d";"r12d";"r13d";"r14d";"r15d";"eip"].
Definition R16 : list string :=
  ["ax";"bx";"cx";"dx";"si";"di";"sp";"bp";"r8w";"r9w";"r10w";"r11w";"r12w";"r13w";"r14w";"r15w";"ip"].
Definition R8L : list string :=
  ["al";"bl";"cl";"dl";"sil";"dil";"spl";"bpl";"r8b";"r9b";"r10b";"r11b";"r12b";"r13b";"r14b";"r15b"].
Definition R8H : list string := ["ah";"bh";"ch";"dh"].

(* REG_MAP, REG_BITS and REG_SHIFT, filled by the two forEach loops *)
Record reg_tables : Type := {
  t_map   : gmap string string;   (* sub-reg -> parent 64-bit name *)
  t_bits  : gmap string Z;        (* reg -> bit width *)
  t_shift : gmap string Z         (* reg -> shift amount *)
}.

Definition reg_entry (name parent : string) (width sh : Z) (t : reg_tables) : reg_tables :=
  {| t_map := <[name := parent]> (t_map t);
     t_bits := <[name := width]> (t_bits t);
     t_shift := <[name := sh]> (t_shift t) |}.

Definition fill_R64 (t : reg_tables) (ir : nat * string) : reg_tables :=
  let '(i, r) := ir in
  let t1 := reg_entry r r 64 0 t in
  let t2 := reg_entry (R32 !!! i) r 32 0 t1 in
  let t3 := reg_entry (R16 !!! i) r 16 0 t2 in
  match R8L !! i with
  | Some l => reg_entry l r 8 0 t3
  | None => t3
  end.

Definition fill_R8H (t : reg_tables) (ir : nat * string) : reg_tables :=
  let '(i, r) := ir in
  let parents := ["rax";"rbx";"rcx";"rdx"] in
  reg_entry r (parents !!! i) 8 8 t.

Definition indexed {A} (l : list A) : list (nat * A) := imap (fun i x => (i, x)) l.

Definition REG : reg_tables :=
  fold_left fill_R8H (indexed R8H)
    (fold_left fill_R64 (indexed R64)
       {| t_map := ∅; t_bits := ∅; t_shift := ∅ |}).

(* The three tables are plain objects ({}), so a lookup also sees the members
   inherited from Object.prototype.  Names are lowercased before every
   lookup, which leaves two inherited members in reach. *)
Definition inherited (name : string) : bool :=
  String.eqb name "constructor" || String.eqb name "__proto__".

Inductive entry (A : Type) : Type :=
  | Own (a : A)     (* own property *)
  | Proto           (* inherited from Object.prototype: a function or object *)
  | Absent.         (* undefined *)
Arguments Own {A} a.
Arguments Proto {A}.
Arguments Absent {A}.

Definition obj_get {A} (o : gmap string A) (name : string) : entry A :=
  match o !! name with
  | Some a => Own a
  | None => if inherited name then Proto else Absent
  end.

Definition REG_MAP (name : string) : entry string := obj_get (t_map REG) name.
Definition REG_BITS (name : string) : entry Z := obj_get (t_bits REG) name.
Definition REG_SHIFT (name : string) : entry Z := obj_get (t_shift REG) name.

(* if (REG_MAP[s]) ... *)
Definition truthy_name (e : entry string) : bool :=
  match e with
  | Own p => negb (String.eqb p "")
  | Proto => true
  | Absent => false
  end.

(* BigInt(T[name] || dflt) for a table T of numbers *)
Definition BigInt_or (e : entry Z) (dflt : Z) : result Z :=
  match e with
  | Own n => Ok (if n =? 0 then dflt else n)
  | Proto => Throw SyntaxError
  | Absent => Ok dflt
  end.

Definition JCC_SET : list string :=
  ["jo";"jno";"js";"jns";"je";"jne";"jz";"jnz";
   "jb";"jnae";"jc";"jnb";"jae";"jnc";"jbe";"jna";
   "ja";"jnbe";"jl";"jnge";"jge";"jnl";"jle";"jng";
   "jg";"jnle";"jp";"jpe";"jnp";"jpo";"jcxz";"jecxz";"jrcxz"].

(** *** Memory *)

(* _pages: page base -> Uint8Array(4096) *)
Record Memory : Type := { _pages : gmap Z (list Z) }.

Definition Memory_new : Memory := {| _pages := ∅ |}.

Definition page_base (addr : Z) : Z := Z.land addr (Z.lnot 0xFFF).
Definition page_off (addr : Z) : nat := Z.to_nat (Z.land addr 0xFFF).

(* new Uint8Array(n): n zero bytes *)
Definition Uint8Array_new (n : nat) : list Z := replicate n 0.
Arguments Uint8Array_new : simpl never.

(* _page(addr): the page, and the memory with the page allocated *)
Definition _page (m : Memory) (addr : Z) : list Z * Memory :=
  let pa := page_base addr in
  match _pages m !! pa with
  | Some p => (p, m)
  | None =>
      let p := Uint8Array_new 4096 in
      (p, {| _pages := <[pa := p]> (_pages m) |})
  end.

(* A page is a Uint8Array(4096): every index below 4096 is in range (the
   invariant Memory_wf below), so the lookup never leaves the list. *)
Definition r8 (m : Memory) (addr : Z) : Z * Memory :=
  let '(p, m') := _page m addr in (p !!! page_off addr, m').

Definition w8 (m : Memory) (addr v : Z) : Memory :=
  let '(p, m') := _page m addr in
  {| _pages := <[page_base addr := <[page_off addr := Z.land v 0xFF]> p]> (_pages m') |}.

Definition Memory_wf (m : Memory) : Prop :=
  map_Forall (fun _ p => length p = 4096%nat) (_pages m).

(* for (let i = 0; i < bytes; i++) v |= this.r8(addr + BigInt(i)) << BigInt(i * 8);
   [i] is the loop counter, [k] the number of iterations left *)
Fixpoint readLE_loop (k : nat) (i : Z) (addr v : Z) (m : Memory) : Z * Memory :=
  match k with
  | O => (v, m)
  | S k' =>
      let '(b, m') := r8 m (addr + i) in
      readLE_loop k' (i + 1) addr (Z.lor v (Z.shiftl b (i * 8))) m'
  end.

Definition readLE (m : Memory) (addr : Z) (bytes : Z) : Z * Memory :=
  readLE_loop (Z.to_nat bytes) 0 addr 0 m.

Fixpoint writeLE_loop (k : nat) (i : Z) (addr val : Z) (m : Memory) : Memory :=
  match k with
  | O => m
  | S k' =>
      writeLE_loop k' (i + 1) addr val
        (w8 m (addr + i) (Z.land (Z.shiftr val (i * 8)) 0xFF))
  end.

Definition writeLE (m : Memory) (addr val : Z) (bytes : Z) : Memory :=
  writeLE_loop (Z.to_nat bytes) 0 addr val m.

(* load(addr, data) *)
Definition Memory_load (m : Memory) (addr : Z) (data : list Z) : Memory :=
  fold_left (fun m' '(i, b) => w8 m' (addr + Z.of_nat i) b) (indexed data) m.

Record dump_row : Type := { row_addr : string; row_hex : string; row_asc : string }.

Definition hex2 (b : Z) : string := padStart 2 "0" (toString 16 b).

(* dump(addr, lines): the rows, and the memory with the pages read allocated *)
Definition dump_line (m : Memory) (base : Z) : dump_row * Memory :=
  let '(bs, m') :=
    fold_left (fun '(acc, m1) j =>
                 let '(b, m2) := r8 m1 (base + Z.of_nat j) in ((acc ++ [b])%list, m2))
              (seq 0 16) ([], m) in
  ({| row_addr := "0x" +:+ padStart 16 "0" (toString 16 base);
      row_hex := String.concat " " (map hex2 bs);
      row_asc := str (map (fun b => if (32 <=? b) && (b <? 127) then chr b else "."%char) bs) |},
   m').

Definition dump (m : Memory) (addr : Z) (lines : nat) : list dump_row * Memory :=
  let addr := Z.land addr (Z.lnot 0xF) in
  fold_left (fun '(rows, m1) i =>
               let '(r, m2) := dump_line m1 (addr + Z.of_nat i * 16) in
               ((rows ++ [r])%list, m2))
            (seq 0 lines) ([], m).

(** *** Registers *)

(* _r: the seventeen 64-bit slots *)
Record Registers : Type := { _r : gmap string Z }.

Definition Registers_new : Registers :=
  {| _r := fold_left (fun o r => <[r := 0]> o) R64 ∅ |}.

(* this._r[p] used as a BigInt operand: undefined mixed with a BigInt throws *)
Definition slot (rg : Registers) (p : string) : result Z :=
  match _r rg !! p with
  | Some x => Ok x
  | None => Throw TypeError
  end.

Definition Registers_get (rg : Registers) (name : string) : result Z :=
  let name := toLowerCase name in
  let p := REG_MAP name in
  if negb (truthy_name p) then Ok 0
  else
    rbind (BigInt_or (REG_SHIFT name) 0) (fun shift =>
    rbind (BigInt_or (REG_BITS name) 64) (fun width =>
    let mask := Z.shiftl 1 width - 1 in
    match p with
    | Own p => rbind (slot rg p) (fun x => Ok (Z.land (Z.shiftr x shift) mask))
    | _ => Throw SyntaxError
    end)).

Definition Registers_set (rg : Registers) (name : string) (val : Z) : result Registers :=
  let name := toLowerCase name in
  let p := REG_MAP name in
  if negb (truthy_name p) then Ok rg
  else
    rbind (BigInt_or (REG_SHIFT name) 0) (fun shift =>
    rbind (BigInt_or (REG_BITS name) 64) (fun width =>
    let mask := Z.shiftl 1 width - 1 in
    let clr := Z.lnot (Z.shiftl mask shift) in
    match p with
    | Own p =>
        rbind (slot rg p) (fun x =>
        let x1 := Z.lor (Z.land x clr) (Z.shiftl (Z.land val mask) shift) in
        (* 32-bit writes zero-extend in 64-bit mode *)
        let x2 := match REG_BITS name with
                  | Own 32 => Z.land x1 0xFFFFFFFF
                  | _ => x1
                  end in
        Ok {| _r := <[p := x2]> (_r rg) |})
    | _ => Throw SyntaxError
    end)).

Definition Registers_all (rg : Registers) : gmap string Z := _r rg.

(** *** Flags *)

(* the field of is spelled of_ here: of is reserved *)
Record Flags : Type := { cf : bool; zf : bool; sf : bool; of_ : bool; pf : bool; af : bool }.

Definition Flags_new : Flags :=
  {| cf := false; zf := false; sf := false; of_ := false; pf := false; af := false |}.

(* !!(x) for a BigInt x *)
Definition nz (x : Z) : bool := negb (x =? 0).

Definition parity (n : Z) : bool :=
  let n := Z.land n 0xFF in
  let n := Z.lxor n (Z.shiftr n 4) in
  let n := Z.lxor n (Z.shiftr n 2) in
  let n := Z.lxor n (Z.shiftr n 1) in
  negb (nz (Z.land n 1)).

Definition asUintN (bits x : Z) : Z := x mod 2 ^ bits.

Definition setArith (f : Flags) (res a b : Z) (bits : Z) (isSub : bool) : Flags :=
  let mask := Z.shiftl 1 bits - 1 in
  let sign := Z.shiftl 1 (bits - 1) in
  let r := asUintN bits res in
  let sa := nz (Z.land a sign) in
  let sb := nz (Z.land b sign) in
  let sr := nz (Z.land r sign) in
  {| zf := r =? 0;
     sf := nz (Z.land r sign);
     cf := (mask <? res) || (res <? 0);
     of_ := if isSub then negb (eqb sa sb) && negb (eqb sr sa)
           else eqb sa sb && negb (eqb sr sa);
     pf := parity r;
     af := af f |}.

Definition check (f : Flags) (code : string) : bool :=
  if String.eqb code "o" then of_ f
  else if String.eqb code "no" then negb (of_ f)
  else if String.eqb code "s" then sf f
  else if String.eqb code "ns" then negb (sf f)
  else if String.eqb code "e" || String.eqb code "z" then zf f
  else if String.eqb code "ne" || String.eqb code "nz" then negb (zf f)
  else if String.eqb code "b" || String.eqb code "nae" || String.eqb code "c" then cf f
  else if String.eqb code "nb" || String.eqb code "ae" || String.eqb code "nc" then negb (cf f)
  else if String.eqb code "be" || String.eqb code "na" then cf f || zf f
  else if String.eqb code "a" || String.eqb code "nbe" then negb (cf f) && negb (zf f)
  else if String.eqb code "l" || String.eqb code "nge" then negb (eqb (sf f) (of_ f))
  else if String.eqb code "ge" || String.eqb code "nl" then eqb (sf f) (of_ f)
  else if String.eqb code "le" || String.eqb code "ng" then zf f || negb (eqb (sf f) (of_ f))
  else if String.eqb code "g" || String.eqb code "nle" then negb (zf f) && eqb (sf f) (of_ f)
  else if String.eqb code "p" || String.eqb code "pe" then pf f
  else if String.eqb code "np" || String.eqb code "po" then negb (pf f)
  else false.

(** *** Operand parser *)

(* [0-9a-f] *)
Definition is_hex_l (c : ascii) : bool :=
  let n := code c in is_digit c || ((97 <=? n) && (n <=? 102)).

Definition last_char (s : string) : option ascii := last (chars s).
Definition drop_last (s : string) : string :=
  String.substring 0 (String.length s - 1) s.

(* s.match(/^([0-9a-f]+)h$/): the captured group *)
Definition match_hexH (s : string) : option string :=
  match last_char s with
  | Some "h"%char =>
      let body := drop_last s in
      if nonempty_all is_hex_l body then Some body else None
  | _ => None
  end.

(* s.match(/^0x([0-9a-f]+)$/): the captured group *)
Definition match_0x (s : string) : option string :=
  match s with
  | String "0" (String "x" body) =>
      if nonempty_all is_hex_l body then Some body else None
  | _ => None
  end.

(* parseImm(str): null is None *)
Definition parseImm (s : string) : option Z :=
  let s := toLowerCase (trim s) in
  let neg := startsWith s "-" in
  let s := if neg then drop_front 1 s else s in
  let v := None in
  let v := match match_hexH s with Some h => Some (hex_value h) | None => v end in
  let v := match match_0x s with Some h => Some (hex_value h) | None => v end in
  let v := if nonempty_all is_digit s then Some (dec_value s) else v in
  match v with
  | Some v => Some (if neg then - v else v)
  | None => None
  end.

(* expr.replace(/-/g, '+-') *)
Fixpoint replace_minus (s : string) : string :=
  match s with
  | EmptyString => EmptyString
  | String c r =>
      if Ascii.eqb c "-" then String "+" (String "-" (replace_minus r))
      else String c (replace_minus r)
  end.

(* s.split(sep) for a one-character separator *)
Fixpoint split_on (sep : ascii) (s : string) (cur : string) : list string :=
  match s with
  | EmptyString => [cur]
  | String c r =>
      if Ascii.eqb c sep then cur :: split_on sep r ""
      else split_on sep r (cur +:+ String c "")
  end.

Definition is_alpha (c : ascii) : bool := is_lower c || is_upper c.
Definition is_alnum (c : ascii) : bool := is_alpha c || is_digit c.

(* the match of t against the scaled-register pattern of evalAddr: a letter,
   letters and digits, a star, decimal digits (case-insensitive); the result
   is the two captured groups.  The pattern also takes the multiplication
   sign U+00D7 for the star, which ASCII text does not contain. *)
Definition match_scaled (t : string) : option (string * string) :=
  match split_on "*" t "" with
  | [name; num] =>
      match name with
      | String c r =>
          if is_alpha c && all_chars is_alnum r && nonempty_all is_digit num
          then Some (name, num) else None
      | EmptyString => None
      end
  | _ => None
  end.

Definition truthy_str (s : string) : bool := negb (String.eqb s "").

Fixpoint evalAddr_loop (toks : list string) (rg : Registers) (acc : Z) : result Z :=
  match toks with
  | [] => Ok acc
  | tok :: rest =>
      let neg := startsWith tok "-" in
      let t := if neg then drop_front 1 tok else tok in
      let sgn := if neg then -1 else 1 in
      match match_scaled t with
      | Some (r, n) =>
          rbind (Registers_get rg r) (fun v =>
          evalAddr_loop rest rg (acc + sgn * (v * dec_value n)))
      | None =>
          if truthy_name (REG_MAP (toLowerCase t)) then
            rbind (Registers_get rg t) (fun v =>
            evalAddr_loop rest rg (acc + sgn * v))
          else
            match parseImm ((if neg then "-" else "") +:+ t) with
            | Some iv => evalAddr_loop rest rg (acc + iv)
            | None => evalAddr_loop rest rg acc
            end
      end
  end.

Definition evalAddr (expr : string) (rg : Registers) : result Z :=
  let toks := filter (fun t => truthy_str t = true)
                (map trim (split_on "+" (replace_minus expr) "")) in
  rbind (evalAddr_loop toks rg 0) (fun r => Ok (asUintN 64 r)).

Inductive Operand : Type :=
  | op_mem (bytes : Z) (addr : Z)
  | op_reg (name : string) (bytes : Z)
  | op_imm (bytes : Z) (iv : Z)
  | op_unknown (bytes : Z).

Definition op_bytes (o : Operand) : Z :=
  match o with
  | op_mem b _ | op_reg _ b | op_imm b _ | op_unknown b => b
  end.

(* str.replace(/^(qword|dword|word|byte)\s+/, ...): the width named by the
   prefix and the rest of the string, when the prefix is there *)
Definition strip_size (s : string) : option (Z * string) :=
  let try (kw : string) (n : Z) : option (Z * string) :=
    if startsWith s kw then
      let rest := drop_front (String.length kw) s in
      match rest with
      | String c _ => if is_ws c then Some (n, trimStart rest) else None
      | EmptyString => None
      end
    else None in
  match try "qword" 8 with
  | Some r => Some r
  | None =>
  match try "dword" 4 with
  | Some r => Some r
  | None =>
  match try "word" 2 with
  | Some r => Some r
  | None => try "byte" 1
  end end end.

Definition bracketed (s : string) : bool := startsWith s "[" && endsWith s "]".

(* the Number (x >> 3) *)
Definition shr3 (x : Z) : Z := Z.shiftr (toInt32 x) 3.

Definition parseOp (s : string) (rg : Registers) (defaultBytes : Z) : result Operand :=
  let s := toLowerCase (trim s) in
  let '(bytes, s) :=
    match strip_size s with
    | Some (n, rest) => (n, rest)
    | None => (defaultBytes, s)
    end in
  if bracketed s then
    rbind (evalAddr (trim (slice_inner 1 1 s)) rg) (fun addr => Ok (op_mem bytes addr))
  else if truthy_name (REG_MAP s) then
    let b := match REG_BITS s with
             | Own n => shr3 (if n =? 0 then 64 else n)
             | Proto => 0
             | Absent => shr3 64
             end in
    Ok (op_reg s b)
  else
    match parseImm s with
    | Some iv => Ok (op_imm bytes iv)
    | None => Ok (op_unknown bytes)
    end.

(* the loop of splitOps: parts, depth and cur are its three variables *)
Fixpoint splitOps_loop (s : string) (parts : list string) (depth : Z) (cur : string)
  : list string * string :=
  match s with
  | EmptyString => (parts, cur)
  | String ch r =>
      let depth := if Ascii.eqb ch "[" then depth + 1
                   else if Ascii.eqb ch "]" then depth - 1 else depth in
      if Ascii.eqb ch "," && (depth =? 0)
      then splitOps_loop r (parts ++ [trim cur])%list depth ""
      else splitOps_loop r parts depth (cur +:+ String ch "")
  end.

Definition splitOps (s : string) : list string :=
  let '(parts, cur) := splitOps_loop s [] 0 "" in
  if truthy_str (trim cur) then (parts ++ [trim cur])%list else parts.

(** *** Simulator *)

Record X86Sim : Type := {
  bits : Z;
  regs : Registers;
  mem : Memory;
  flags : Flags;
  breakpoints : gset string;
  _map : gmap string Instruction;   (* normalised address -> instruction *)
  _list : list Instruction;
  _maxSteps : Z
}.

Definition X86Sim_new (bits : Z) : X86Sim :=
  {| bits := if bits =? 0 then 64 else bits;
     regs := Registers_new;
     mem := Memory_new;
     flags := Flags_new;
     breakpoints := ∅;
     _map := ∅;
     _list := [];
     _maxSteps := 50000 |}.

Definition with_regs (s : X86Sim) (r : Registers) : X86Sim :=
  {| bits := bits s; regs := r; mem := mem s; flags := flags s;
     breakpoints := breakpoints s; _map := _map s; _list := _list s;
     _maxSteps := _maxSteps s |}.
Definition with_mem (s : X86Sim) (m : Memory) : X86Sim :=
  {| bits := bits s; regs := regs s; mem := m; flags := flags s;
     breakpoints := breakpoints s; _map := _map s; _list := _list s;
     _maxSteps := _maxSteps s |}.
Definition with_flags (s : X86Sim) (f : Flags) : X86Sim :=
  {| bits := bits s; regs := regs s; mem := mem s; flags := f;
     breakpoints := breakpoints s; _map := _map s; _list := _list s;
     _maxSteps := _maxSteps s |}.

(* Code that mutates the simulator and may throw: the state reached is kept
   in both cases, as the object is mutated in place. *)
Definition M (A : Type) : Type := X86Sim -> result A * X86Sim.

Definition ret {A} (a : A) : M A := fun s => (Ok a, s).
Definition bind {A B} (c : M A) (k : A -> M B) : M B :=
  fun s => match c s with
           | (Ok a, s') => k a s'
           | (Throw e, s') => (Throw e, s')
           end.
Definition lift {A} (r : result A) : M A := fun s => (r, s).

Notation "x <- c1 ;; c2" := (bind c1 (fun x => c2))
  (at level 60, c1 at next level, right associativity).
Notation "c1 ;;; c2" := (bind c1 (fun _ => c2))
  (at level 60, right associativity).

Definition regs_get (name : string) : M Z :=
  fun s => (Registers_get (regs s) name, s).
Definition regs_set (name : string) (v : Z) : M unit :=
  fun s => match Registers_set (regs s) name v with
           | Ok r => (Ok tt, with_regs s r)
           | Throw e => (Throw e, s)
           end.
Definition mem_readLE (addr n : Z) : M Z :=
  fun s => let '(v, m) := readLE (mem s) addr n in (Ok v, with_mem s m).
Definition mem_writeLE (addr v n : Z) : M unit :=
  fun s => (Ok tt, with_mem s (writeLE (mem s) addr v n)).
Definition get_flags : M Flags := fun s => (Ok (flags s), s).
Definition set_flags (f : Flags) : M unit := fun s => (Ok tt, with_flags s f).
Definition get_regs : M Registers := fun s => (Ok (regs s), s).
Definition get_bits : M Z := fun s => (Ok (bits s), s).
Definition get_list : M (list Instruction) := fun s => (Ok (_list s), s).

Definition set_cf (b : bool) : M unit := fun s =>
  let f := flags s in
  (Ok tt, with_flags s {| cf := b; zf := zf f; sf := sf f; of_ := of_ f; pf := pf f; af := af f |}).
Definition set_zf (b : bool) : M unit := fun s =>
  let f := flags s in
  (Ok tt, with_flags s {| cf := cf f; zf := b; sf := sf f; of_ := of_ f; pf := pf f; af := af f |}).
Definition set_sf (b : bool) : M unit := fun s =>
  let f := flags s in
  (Ok tt, with_flags s {| cf := cf f; zf := zf f; sf := b; of_ := of_ f; pf := pf f; af := af f |}).
Definition set_of (b : bool) : M unit := fun s =>
  let f := flags s in
  (Ok tt, with_flags s {| cf := cf f; zf := zf f; sf := sf f; of_ := b; pf := pf f; af := af f |}).
Definition set_pf (b : bool) : M unit := fun s =>
  let f := flags s in
  (Ok tt, with_flags s {| cf := cf f; zf := zf f; sf := sf f; of_ := of_ f; pf := b; af := af f |}).

(* read() and write(v) of the object returned by parseOp *)
Definition op_read (o : Operand) : M Z :=
  match o with
  | op_mem b addr => mem_readLE addr b
  | op_reg name _ => regs_get name
  | op_imm _ iv => ret iv
  | op_unknown _ => ret 0
  end.
Definition op_write (o : Operand) (v : Z) : M unit :=
  match o with
  | op_mem b addr => mem_writeLE addr v b
  | op_reg name _ => regs_set name v
  | op_imm _ _ => ret tt
  | op_unknown _ => ret tt
  end.

(* load(instructions) *)
Definition build_map (instructions : list Instruction) : gmap string Instruction :=
  fold_left (fun m inst => <[toLowerCase (address inst) := inst]> m) instructions ∅.

Definition touch_stack (m : Memory) : Memory :=
  fold_left (fun m' i => snd (_page m' (0x7fff0000 - Z.of_nat i * 0x1000))) (seq 0 16) m.

Definition load (instructions : list Instruction) : M unit :=
  (fun s => (Ok tt,
      {| bits := bits s; regs := regs s; mem := mem s; flags := flags s;
         breakpoints := breakpoints s; _map := build_map instructions;
         _list := instructions; _maxSteps := _maxSteps s |})) ;;;
  match instructions with
  | i0 :: _ => a <- lift (BigInt_parseInt16 (address i0)) ;; regs_set "rip" a
  | [] => ret tt
  end ;;;
  regs_set "rsp" 0x7fff0000 ;;;
  (fun s => (Ok tt, with_mem s (touch_stack (mem s)))).

Definition ripAddr (s : X86Sim) : result string :=
  let pad := if bits s =? 64 then 16%nat else 8%nat in
  rbind (Registers_get (regs s) "rip") (fun rip =>
  Ok ("0x" +:+ padStart pad "0" (toString 16 rip))).

(* currentInst(): null is None *)
Definition currentInst (s : X86Sim) : result (option Instruction) :=
  rbind (ripAddr s) (fun a => Ok (_map s !! a)).

(* list.findIndex(p): -1 when no element satisfies p *)
Fixpoint findIndex {A} (p : A -> bool) (l : list A) (i : Z) : Z :=
  match l with
  | [] => -1
  | x :: r => if p x then i else findIndex p r (i + 1)
  end.

(* list[i] for an integer i: undefined is None *)
Definition at_index {A} (l : list A) (i : Z) : option A :=
  if i <? 0 then None else l !! Z.to_nat i.

Inductive opcode : Type :=
  | Nop | Mov | Movzx | Movsx | Push | Pop | Add | Sub | Xor | And | Or
  | Not | Neg | Inc | Dec | Cmp | Test | Lea | Shl | Shr | Sar
  | Call | Ret | Jmp | Default.

Definition mnem_in (m : string) (l : list string) : bool :=
  existsb (String.eqb m) l.

(* the case labels of the switch in _exec *)
Definition opcode_of (m : string) : opcode :=
  if mnem_in m ["nop";"int3";"endbr64";"endbr32";"pause"] then Nop
  else if mnem_in m ["mov";"movq";"movl"] then Mov
  else if mnem_in m ["movzx"] then Movzx
  else if mnem_in m ["movsx";"movsxd"] then Movsx
  else if mnem_in m ["push"] then Push
  else if mnem_in m ["pop"] then Pop
  else if mnem_in m ["add"] then Add
  else if mnem_in m ["sub"] then Sub
  else if mnem_in m ["xor"] then Xor
  else if mnem_in m ["and"] then And
  else if mnem_in m ["or"] then Or
  else if mnem_in m ["not"] then Not
  else if mnem_in m ["neg"] then Neg
  else if mnem_in m ["inc"] then Inc
  else if mnem_in m ["dec"] then Dec
  else if mnem_in m ["cmp"] then Cmp
  else if mnem_in m ["test"] then Test
  else if mnem_in m ["lea"] then Lea
  else if mnem_in m ["shl";"sal"] then Shl
  else if mnem_in m ["shr"] then Shr
  else if mnem_in m ["sar"] then Sar
  else if mnem_in m ["call"] then Call
  else if mnem_in m ["ret";"retn";"retq"] then Ret
  else if mnem_in m ["jmp"] then Jmp
  else Default.

(* Number(x & 0x3Fn) % bits: NaN (None) when bits is 0 *)
Definition shift_count (x bits : Z) : option Z :=
  if bits =? 0 then None else Some (Z.rem (Z.land x 0x3F) bits).

(* BigInt(n) of a Number that may be NaN *)
Definition BigInt_num (n : option Z) : result Z :=
  match n with Some v => Ok v | None => Throw RangeError end.

Definition sign_bit (bits : Z) : Z := Z.shiftl 1 (bits - 1).

(* const op = (i) => parseOp(ops[i], this.regs, this.mem, db) *)
Definition op (ops : list string) (i : nat) : M Operand :=
  rg <- get_regs ;;
  b <- get_bits ;;
  lift (parseOp (default "" (ops !! i)) rg (shr3 b)).

(* const jmp = (addr) => { if (addr !== null) this.regs.set('rip', addr); } *)
Definition jmp (addr : option Z) : M unit :=
  match addr with
  | Some a => regs_set "rip" a
  | None => ret tt
  end.

Definition resolveTarget (s : option string) : M (option Z) :=
  let s := toLowerCase (trim (default "" s)) in
  if truthy_name (REG_MAP s) then v <- regs_get s ;; ret (Some v)
  else
    match parseImm s with
    | Some iv => ret (Some iv)
    | None =>
        if bracketed s then
          rg <- get_regs ;;
          b <- get_bits ;;
          a <- lift (evalAddr (slice_inner 1 1 s) rg) ;;
          v <- mem_readLE a (shr3 b) ;;
          ret (Some v)
        else ret None
    end.

(* the flag updates shared by xor, and, test (with pf) and or (without) *)
Definition logic_flags (r bits : Z) (with_pf : bool) : M unit :=
  set_of false ;;; set_cf false ;;;
  set_zf (r =? 0) ;;;
  set_sf (nz (Z.land r (sign_bit bits))) ;;;
  if with_pf then set_pf (parity r) else ret tt.

Definition exec_case (o : opcode) (mnem : string) (ops : list string) (db nextRip : Z) : M unit :=
  match o with
  | Nop => ret tt
  | Mov =>
      d <- op ops 0 ;; s <- op ops 1 ;;
      v <- op_read s ;; op_write d v
  | Movzx =>
      d <- op ops 0 ;; s <- op ops 1 ;;
      v <- op_read s ;; op_write d (asUintN (op_bytes d * 8) v)
  | Movsx =>
      d <- op ops 0 ;; s <- op ops 1 ;;
      let sb := op_bytes s * 8 in
      sv <- op_read s ;;
      let sign := Z.shiftl 1 (sb - 1) in
      let ext := if nz (Z.land sv sign)
                 then Z.lor sv (Z.lnot (Z.shiftl 1 sb - 1)) else sv in
      op_write d (asUintN (op_bytes d * 8) ext)
  | Push =>
      o0 <- op ops 0 ;; v <- op_read o0 ;;
      r <- regs_get "rsp" ;;
      let rsp := r - db in
      regs_set "rsp" rsp ;;;
      mem_writeLE rsp v db
  | Pop =>
      rsp <- regs_get "rsp" ;;
      o0 <- op ops 0 ;;
      v <- mem_readLE rsp db ;;
      op_write o0 v ;;;
      regs_set "rsp" (rsp + db)
  | Add =>
      d <- op ops 0 ;; s <- op ops 1 ;;
      let bits := op_bytes d * 8 in
      a <- op_read d ;; b <- op_read s ;;
      let r := a + b in
      f <- get_flags ;; set_flags (setArith f r a b bits false) ;;;
      op_write d (asUintN bits r)
  | Sub =>
      d <- op ops 0 ;; s <- op ops 1 ;;
      let bits := op_bytes d * 8 in
      a <- op_read d ;; b <- op_read s ;;
      let r := a - b in
      f <- get_flags ;; set_flags (setArith f r a b bits true) ;;;
      op_write d (asUintN bits r)
  | Xor =>
      d <- op ops 0 ;; s <- op ops 1 ;;
      let bits := op_bytes d * 8 in
      a <- op_read d ;; b <- op_read s ;;
      let r := Z.lxor a b in
      logic_flags r bits true ;;;
      op_write d (asUintN bits r)
  | And =>
      d <- op ops 0 ;; s <- op ops 1 ;;
      let bits := op_bytes d * 8 in
      a <- op_read d ;; b <- op_read s ;;
      let r := Z.land a b in
      logic_flags r bits true ;;;
      op_write d r
  | Or =>
      d <- op ops 0 ;; s <- op ops 1 ;;
      let bits := op_bytes d * 8 in
      a <- op_read d ;; b <- op_read s ;;
      let r := Z.lor a b in
      logic_flags r bits false ;;;
      op_write d r
  | Not =>
      d <- op ops 0 ;;
      let b := op_bytes d * 8 in
      v <- op_read d ;; op_write d (asUintN b (Z.lnot v))
  | Neg =>
      d <- op ops 0 ;;
      let bits := op_bytes d * 8 in
      v <- op_read d ;;
      let r := - v in
      set_cf (nz v) ;;;
      set_zf (asUintN bits r =? 0) ;;;
      set_sf (nz (Z.land (asUintN bits r) (sign_bit bits))) ;;;
      set_of (v =? sign_bit bits) ;;;
      op_write d (asUintN bits r)
  | Inc =>
      d <- op ops 0 ;;
      let bits := op_bytes d * 8 in
      a <- op_read d ;;
      let r := a + 1 in
      op_write d (asUintN bits r) ;;;
      set_zf (asUintN bits r =? 0) ;;;
      set_sf (nz (Z.land (asUintN bits r) (sign_bit bits))) ;;;
      set_of (a =? sign_bit bits - 1)
  | Dec =>
      d <- op ops 0 ;;
      let bits := op_bytes d * 8 in
      a <- op_read d ;;
      let r := a - 1 in
      op_write d (asUintN bits r) ;;;
      set_zf (asUintN bits r =? 0) ;;;
      set_sf (nz (Z.land (asUintN bits r) (sign_bit bits))) ;;;
      set_of (a =? sign_bit bits)
  | Cmp =>
      d <- op ops 0 ;; s <- op ops 1 ;;
      let bits := op_bytes d * 8 in
      a <- op_read d ;; b <- op_read s ;;
      f <- get_flags ;; set_flags (setArith f (a - b) a b bits true)
  | Test =>
      d <- op ops 0 ;; s <- op ops 1 ;;
      let bits := op_bytes d * 8 in
      a <- op_read d ;; b <- op_read s ;;
      logic_flags (Z.land a b) bits true
  | Lea =>
      d <- op ops 0 ;;
      let s0 := toLowerCase (trim (default "" (ops !! 1%nat))) in
      let s := match strip_size s0 with Some (_, rest) => rest | None => s0 end in
      if bracketed s then
        rg <- get_regs ;;
        a <- lift (evalAddr (trim (slice_inner 1 1 s)) rg) ;;
        op_write d a
      else ret tt
  | Shl =>
      d <- op ops 0 ;; s <- op ops 1 ;;
      let bits := op_bytes d * 8 in
      x <- op_read s ;;
      let sh := shift_count x bits in
      v <- op_read d ;;
      match sh with
      | Some k => if 0 <? k then set_cf (nz (Z.land v (Z.shiftl 1 (bits - k)))) else ret tt
      | None => ret tt
      end ;;;
      n <- lift (BigInt_num sh) ;;
      let r := asUintN bits (Z.shiftl v n) in
      set_zf (r =? 0) ;;;
      set_sf (nz (Z.land r (sign_bit bits))) ;;;
      op_write d r
  | Shr =>
      d <- op ops 0 ;; s <- op ops 1 ;;
      let bits := op_bytes d * 8 in
      x <- op_read s ;;
      let sh := shift_count x bits in
      v <- op_read d ;;
      match sh with
      | Some k => if 0 <? k then set_cf (nz (Z.land v (Z.shiftl 1 (k - 1)))) else ret tt
      | None => ret tt
      end ;;;
      n <- lift (BigInt_num sh) ;;
      let r := Z.shiftr v n in
      set_zf (r =? 0) ;;;
      set_sf (nz (Z.land r (sign_bit bits))) ;;;
      op_write d r
  | Sar =>
      d <- op ops 0 ;; s <- op ops 1 ;;
      let bits := op_bytes d * 8 in
      x <- op_read s ;;
      let sh := shift_count x bits in
      v <- op_read d ;;
      let sign := sign_bit bits in
      let v := if nz (Z.land v sign) then Z.lor v (Z.lnot (Z.shiftl 1 bits - 1)) else v in
      n <- lift (BigInt_num sh) ;;
      let r := asUintN bits (Z.shiftr v n) in
      set_zf (r =? 0) ;;;
      set_sf (nz (Z.land r sign)) ;;;
      op_write d r
  | Call =>
      r1 <- regs_get "rsp" ;;
      mem_writeLE (r1 - db) nextRip db ;;;
      r2 <- regs_get "rsp" ;;
      regs_set "rsp" (r2 - db) ;;;
      t <- resolveTarget (ops !! 0%nat) ;;
      jmp t
  | Ret =>
      rsp <- regs_get "rsp" ;;
      ra <- mem_readLE rsp db ;;
      regs_set "rsp" (rsp + db) ;;;
      jmp (Some ra)
  | Jmp =>
      t <- resolveTarget (ops !! 0%nat) ;;
      jmp t
  | Default =>
      (* Jcc *)
      if startsWith mnem "j" then
        let code := drop_front 1 mnem in
        f <- get_flags ;;
        if check f code then t <- resolveTarget (ops !! 0%nat) ;; jmp t
        else ret tt
      else ret tt
  end.

Definition _exec (inst : Instruction) : M unit :=
  let mnem := trim (toLowerCase (mnemonic inst)) in
  let ops := splitOps (operands inst) in
  b <- get_bits ;;
  let db := shr3 b in   (* default bytes *)
  (* Advance RIP (default; jumps override) *)
  l <- get_list ;;
  let idx := findIndex (fun i => String.eqb (address i) (address inst)) l 0 in
  let next := at_index l (idx + 1) in
  nextRip <- match next with
             | Some n => lift (BigInt_parseInt16 (address n))
             | None => regs_get "rip"
             end ;;
  regs_set "rip" nextRip ;;;
  exec_case (opcode_of mnem) mnem ops db nextRip.

(* the three shapes of the object returned by step() *)
Inductive step_result : Type :=
  | ok (inst : Instruction)                      (* { ok: true, inst } *)
  | error_unmapped (msg : string)                (* { error } *)
  | error_caught (e : error) (inst : Instruction).   (* { error: e.message, inst } *)

Definition is_error (r : step_result) : bool :=
  match r with ok _ => false | _ => true end.

(* step(): a Throw is an exception that leaves step() uncaught, which only
   currentInst(), called outside the try block, can raise *)
Definition step : M step_result :=
  fun s =>
    match currentInst s with
    | Throw e => (Throw e, s)
    | Ok None =>
        match ripAddr s with
        | Ok a => (Ok (error_unmapped ("RIP at unmapped address: " +:+ a)), s)
        | Throw e => (Throw e, s)
        end
    | Ok (Some inst) =>
        match _exec inst s with
        | (Ok _, s') => (Ok (ok inst), s')
        | (Throw e, s') => (Ok (error_caught e inst), s')
        end
    end.

Record snapshot : Type := {
  snap_regs : gmap string Z;
  snap_flags : Flags;
  snap_stack : list dump_row;
  snap_rip : string;
  snap_inst : option Instruction
}.

Definition stateSnapshot : M snapshot :=
  rsp <- regs_get "rsp" ;;
  stack <- (fun s => let '(rows, m) := dump (mem s) rsp 6 in (Ok rows, with_mem s m)) ;;
  rip <- (fun s => (ripAddr s, s)) ;;
  inst <- (fun s => (currentInst s, s)) ;;
  fun s => (Ok {| snap_regs := Registers_all (regs s); snap_flags := flags s;
                  snap_stack := stack; snap_rip := rip; snap_inst := inst |}, s).

Definition reset (instructions : list Instruction) : M unit :=
  fun s =>
    load instructions
      {| bits := bits s; regs := Registers_new; mem := Memory_new; flags := Flags_new;
         breakpoints := breakpoints s; _map := _map s; _list := _list s;
         _maxSteps := _maxSteps s |}.

End Sim.

(** ** The debugger of the front end (public/app.js) *)

Module App.
Import JS Sim.

(* the fields of the global state object that the debugger uses *)
Record state : Type := {
  sim : option X86Sim;            (* X86Sim instance *)
  simRunning : bool;
  prevRegs : option (gmap string Z);
  bpAddrs : gset string           (* breakpoint addresses *)
}.

Definition with_sim (st : state) (s : X86Sim) : state :=
  {| sim := Some s; simRunning := simRunning st; prevRegs := prevRegs st;
     bpAddrs := bpAddrs st |}.
Definition with_running (st : state) (b : bool) : state :=
  {| sim := sim st; simRunning := b; prevRegs := prevRegs st; bpAddrs := bpAddrs st |}.

(* updateDebuggerUI(): the page shows the snapshot; what stays in the state is
   the set of pages that taking the snapshot touched, and prevRegs.  None is
   an exception thrown by stateSnapshot(). *)
Definition updateDebuggerUI (st : state) : option state :=
  match sim st with
  | None => Some st
  | Some s =>
      match stateSnapshot s with
      | (Ok snap, s') =>
          Some {| sim := Some s'; simRunning := simRunning st;
                  prevRegs := Some (snap_regs snap); bpAddrs := bpAddrs st |}
      | (Throw _, _) => None
      end
  end.

(* how one call of tick() ends *)
Inductive tick_end : Type :=
  | Rescheduled     (* setTimeout(tick, 16) was called *)
  | Halted          (* returned without scheduling another tick *)
  | Uncaught.       (* an exception left tick() *)

(* the for loop of tick(): [k] iterations left, [n] calls of step() made so
   far in this tick *)
Fixpoint tick_loop (k : nat) (n : nat) (st : state) (s : X86Sim) : nat * tick_end * state :=
  match k with
  | O =>
      match updateDebuggerUI (with_sim st s) with
      | Some st' => (n, Rescheduled, st')
      | None => (n, Uncaught, with_sim st s)
      end
  | S k' =>
      match step s with
      | (Throw _, s') => (S n, Uncaught, with_sim st s')
      | (Ok r, s') =>
          if is_error r then
            let st1 := with_running (with_sim st s') false in
            match updateDebuggerUI st1 with
            | Some st' => (S n, Halted, st')
            | None => (S n, Uncaught, st1)
            end
          else
            match ripAddr s' with
            | Throw _ => (S n, Uncaught, with_sim st s')
            | Ok a =>
                if bool_decide (a ∈ bpAddrs st) then
                  let st1 := with_running (with_sim st s') false in
                  match updateDebuggerUI st1 with
                  | Some st' => (S n, Halted, st')
                  | None => (S n, Uncaught, st1)
                  end
                else tick_loop k' (S n) st s'
            end
      end
  end.

Definition tick (st : state) : nat * tick_end * state :=
  if negb (simRunning st) then (O, Halted, st)
  else
    match sim st with
    | Some s => tick_loop 100 0 st s
    | None => (O, Uncaught, st)
    end.

(* A run session: dbgRun() calls tick() once, and every tick that ends in
   setTimeout is followed by the next one when the timer fires.  [timers] is
   the number of timer firings the host delivers; nothing else (dbgStop,
   dbgReset) runs in between.  The result counts the calls of step(). *)
Fixpoint ticks (timers : nat) (n : nat) (st : state) : nat * tick_end * state :=
  let '(k, e, st') := tick st in
  match e, timers with
  | Rescheduled, S t => ticks t (n + k) st'
  | _, _ => ((n + k)%nat, e, st')
  end.

Definition dbgRun (timers : nat) (st : state) : nat * tick_end * state :=
  match sim st with
  | None => (O, Halted, st)
  | Some _ =>
      if simRunning st then (O, Halted, st)
      else ticks timers 0 (with_running st true)
  end.

Definition dbgStop (st : state) : option state :=
  updateDebuggerUI (with_running st false).

(* the debugger set-up of renderReport, made when the disassembly is not the
   fallback and has instructions: new X86Sim(report.file.bits || 64), load,
   updateDebuggerUI.  [bits] is the member file.bits when it is a Number (the
   parsers' bits; the info of an ELF report replaces it by a string). *)
Definition setup (bits : Z) (instructions : list Instruction) : option state :=
  match load instructions (X86Sim_new bits) with
  | (Ok _, s) =>
      updateDebuggerUI
        {| sim := Some s; simRunning := false; prevRegs := None; bpAddrs := ∅ |}
  | (Throw _, _) => None
  end.

End App.

(** ** The uniform section record and parser result (lib/peParser.js,
    lib/elfParser.js) *)

Record Section_ : Type := {
  name : string;
  virtualAddress : Z;
  virtualSize : Z;
  rawOffset : Z;
  rawSize : Z;
  sflags : Z;                  (* flags *)
  flagsStr : string;
  typeStr : option string;     (* set by the ELF parser only *)
  isCode : bool
}.

(* the members of the parser results that the analyzer reads; [info] keeps
   the order in which the object literal lists its members *)
Record Parsed : Type := {
  format : string;
  type : string;
  arch : string;
  pbits : Z;                   (* bits *)
  sections : list Section_;
  numSections : Z;
  summary : string;
  info : list (string * string)
}.

Definition hex0x (n : Z) : string := "0x" +:+ JS.toString 16 n.
Definition decimal (n : Z) : string := JS.toString 10 n.

(* table[key] || dflt for a table with numeric keys and string values *)
Definition table_or (t : list (Z * string)) (key : Z) (dflt : string) : string :=
  match List.find (fun kv => fst kv =? key) t with
  | Some (_, v) => if String.eqb v "" then dflt else v
  | None => dflt
  end.

(** ** PE parser (lib/peParser.js) *)

Module PE.
Import JS.

Record machine_type : Type := { m_name : string; m_bits : Z }.

Definition MACHINE_TYPES : list (Z * machine_type) :=
  [ (0x014c, {| m_name := "x86"; m_bits := 32 |});
    (0x8664, {| m_name := "AMD64"; m_bits := 64 |});
    (0xaa64, {| m_name := "ARM64"; m_bits := 64 |});
    (0x01c0, {| m_name := "ARM"; m_bits := 32 |});
    (0x0200, {| m_name := "IA64"; m_bits := 64 |});
    (0x01c4, {| m_name := "ARMv7"; m_bits := 32 |});
    (0x0166, {| m_name := "MIPS16"; m_bits := 32 |}) ].

Definition SUBSYSTEMS : list (Z * string) :=
  [ (1, "Native"); (2, "Windows GUI"); (3, "Windows CUI"); (7, "POSIX CUI");
    (9, "Windows CE GUI"); (10, "EFI Application"); (11, "EFI Boot Driver");
    (12, "EFI Runtime Driver"); (14, "Xbox"); (16, "Windows Boot App") ].

(* Object.entries lists integer keys in ascending order *)
Definition SECTION_FLAGS : list (Z * string) :=
  [ (0x00000020, "CODE"); (0x00000040, "INIT_DATA"); (0x00000080, "UNINIT_DATA");
    (0x20000000, "EXEC"); (0x40000000, "READ"); (0x80000000, "WRITE") ].

Definition parseSectionFlags (flags : Z) : string :=
  let names := map snd (List.filter (fun kv => negb (and32 flags (fst kv) =? 0)) SECTION_FLAGS) in
  let joined := String.concat "|" names in
  if String.eqb joined "" then "0x" +:+ toString 16 flags else joined.

(* s.replace(/\0+$/, '') *)
Fixpoint strip_nul_front (s : string) : string :=
  match s with
  | String c r => if Ascii.eqb c "000"%char then strip_nul_front r else s
  | EmptyString => EmptyString
  end.
Definition strip_trailing_nul (s : string) : string :=
  str (rev (chars (strip_nul_front (str (rev (chars s)))))).

Definition pad2 (n : Z) : string := padStart 2 "0" (toString 10 n).

(* new Date(t * 1000).toISOString().replace('T', ' ').slice(0, 19) for
   0 <= t < 2^32 seconds: the proleptic Gregorian date of day t / 86400 *)
Definition iso_datetime (t : Z) : string :=
  let days := t / 86400 in
  let secs := t mod 86400 in
  let z := days + 719468 in
  let era := z / 146097 in
  let doe := z - era * 146097 in
  let yoe := (doe - doe / 1460 + doe / 36524 - doe / 146096) / 365 in
  let doy := doe - (365 * yoe + yoe / 4 - yoe / 100) in
  let mp := (5 * doy + 2) / 153 in
  let d := doy - (153 * mp + 2) / 5 + 1 in
  let m := if mp <? 10 then mp + 3 else mp - 9 in
  let y := yoe + era * 400 + (if m <=? 2 then 1 else 0) in
  padStart 4 "0" (toString 10 y) +:+ "-" +:+ pad2 m +:+ "-" +:+ pad2 d +:+ " " +:+
  pad2 (secs / 3600) +:+ ":" +:+ pad2 (secs mod 3600 / 60) +:+ ":" +:+ pad2 (secs mod 60).

(* one pass of the section loop: None is the break *)
Definition read_section (b : buffer) (sectionTableBase i : Z) : option (result Section_) :=
  let off := sectionTableBase + i * 40 in
  if blen b <? off + 40 then None
  else Some (
    let nameBytes := bslice b off (off + 8) in
    let name := strip_trailing_nul (ascii_string nameBytes) in
    rbind (readUInt32LE b (off + 8)) (fun virtualSize =>
    rbind (readUInt32LE b (off + 12)) (fun virtualAddress =>
    rbind (readUInt32LE b (off + 16)) (fun sizeOfRawData =>
    rbind (readUInt32LE b (off + 20)) (fun pointerToRawData =>
    rbind (readUInt32LE b (off + 36)) (fun flags =>
    Ok {| name := name;
          virtualAddress := virtualAddress;
          virtualSize := virtualSize;
          rawOffset := pointerToRawData;
          rawSize := sizeOfRawData;
          sflags := flags;
          flagsStr := parseSectionFlags flags;
          typeStr := None;
          (* IMAGE_SCN_CNT_CODE | IMAGE_SCN_MEM_EXECUTE *)
          isCode := negb (and32 flags 0x20000020 =? 0) |})))))).

(* for (let i = 0; i < numSections; i++): [k] passes left *)
Fixpoint section_loop (k : nat) (b : buffer) (sectionTableBase i : Z)
    (acc : list Section_) : result (list Section_) :=
  match k with
  | O => Ok acc
  | S k' =>
      match read_section b sectionTableBase i with
      | None => Ok acc
      | Some r =>
          rbind r (fun s => section_loop k' b sectionTableBase (i + 1) (acc ++ [s])%list)
      end
  end.

Definition parsePE (b : buffer) : result Parsed :=
  if blen b <? 0x40 then Throw (Error "File too small to be a PE") else
  rbind (readUInt16LE b 0) (fun e_magic =>
  if negb (e_magic =? 0x5a4d) then Throw (Error "Not a PE file (no MZ signature)") else
  rbind (readUInt32LE b 0x3c) (fun e_lfanew =>
  if blen b <? e_lfanew + 24 then Throw (Error "Invalid PE header offset") else
  rbind (readUInt32LE b e_lfanew) (fun peSig =>
  if negb (peSig =? 0x00004550) then Throw (Error "Invalid PE signature") else
  let coffBase := e_lfanew + 4 in
  rbind (readUInt16LE b coffBase) (fun machine =>
  rbind (readUInt16LE b (coffBase + 2)) (fun numSections =>
  rbind (readUInt32LE b (coffBase + 4)) (fun timestamp =>
  rbind (readUInt16LE b (coffBase + 16)) (fun sizeOfOptHeader =>
  rbind (readUInt16LE b (coffBase + 18)) (fun characteristics =>
  let arch := match List.find (fun kv => fst kv =? machine) MACHINE_TYPES with
              | Some (_, a) => a
              | None => {| m_name := "0x" +:+ toString 16 machine; m_bits := 32 |}
              end in
  let optBase := coffBase + 20 in
  rbind (readUInt16LE b optBase) (fun magic =>
  let isPE32Plus := magic =? 0x20b in
  rbind (readUInt32LE b (optBase + 16)) (fun entryPoint =>
  rbind (readUInt32LE b (optBase + 20)) (fun baseOfCode =>
  rbind (if isPE32Plus
         then rbind (readBigUInt64LE b (optBase + 24)) (fun v => Ok (to_double v))
         else readUInt32LE b (optBase + 28)) (fun imageBase =>
  let subsystemOffset := if isPE32Plus then optBase + 68 else optBase + 68 in
  rbind (readUInt16LE b subsystemOffset) (fun subsystem =>
  let isDLL := negb (and32 characteristics 0x2000 =? 0) in
  let isExe := negb (and32 characteristics 0x0002 =? 0) in
  (* Parse sections *)
  let sectionTableBase := optBase + sizeOfOptHeader in
  rbind (section_loop (Z.to_nat numSections) b sectionTableBase 0 []) (fun sections =>
  let fileType := if isDLL then "DLL" else if isExe then "EXE" else "OBJ" in
  let ts := iso_datetime timestamp +:+ " UTC" in
  Ok {| format := "PE";
        type := "PE (" +:+ m_name arch +:+ ")";
        arch := m_name arch;
        pbits := m_bits arch;
        sections := sections;
        numSections := numSections;
        summary := fileType +:+ ", " +:+ m_name arch +:+ ", " +:+ decimal numSections +:+ " sections";
        info := [ ("entryPoint", hex0x entryPoint);
                  ("imageBase", hex0x imageBase);
                  ("subsystem", table_or SUBSYSTEMS subsystem ("Unknown (" +:+ decimal subsystem +:+ ")"));
                  ("fileType", fileType);
                  ("timestamp", ts) ] |})))))))))))))).

End PE.

(** ** ELF parser (lib/elfParser.js) *)

Module ELF.
Import JS.

Definition ELF_MACHINES : list (Z * string) :=
  [ (0x00, "None"); (0x02, "SPARC"); (0x03, "x86"); (0x08, "MIPS");
    (0x14, "PowerPC"); (0x16, "S390"); (0x28, "ARM"); (0x2a, "SuperH");
    (0x32, "IA-64"); (0x3e, "AMD64"); (0xb7, "AArch64"); (0xf3, "RISC-V") ].

Definition ELF_TYPES : list (Z * string) :=
  [ (0, "None"); (1, "Relocatable"); (2, "Executable"); (3, "Shared Object"); (4, "Core") ].

Definition ELF_OSABI : list (Z * string) :=
  [ (0, "System V"); (1, "HP-UX"); (2, "NetBSD"); (3, "Linux"); (6, "Solaris");
    (9, "FreeBSD"); (12, "OpenBSD") ].

Definition SHT : list (Z * string) :=
  [ (0, "NULL"); (1, "PROGBITS"); (2, "SYMTAB"); (3, "STRTAB"); (4, "RELA");
    (5, "HASH"); (6, "DYNAMIC"); (7, "NOTE"); (8, "NOBITS"); (9, "REL"); (11, "DYNSYM") ].

Definition ARCH_BITS : list (string * Z) :=
  [ ("x86", 32); ("AMD64", 64); ("ARM", 32); ("AArch64", 64); ("MIPS", 32);
    ("RISC-V", 64); ("PowerPC", 32); ("IA-64", 64) ].

(* the readers that parseELF builds from the two identification bytes *)
Record readers : Type := {
  is64 : bool;
  isLE : bool;
  read16 : Z -> result Z;
  read32 : Z -> result Z;
  read64 : Z -> result Z
}.

Definition mk_readers (b : buffer) (is64 isLE : bool) : readers :=
  let read32 := fun off => if isLE then readUInt32LE b off else readUInt32BE b off in
  {| is64 := is64;
     isLE := isLE;
     read16 := fun off => if isLE then readUInt16LE b off else readUInt16BE b off;
     read32 := read32;
     read64 := fun off =>
       rbind (if isLE then readUInt32LE b off else readUInt32BE b (off + 4)) (fun lo =>
       rbind (if isLE then readUInt32LE b (off + 4) else readUInt32BE b off) (fun hi =>
       Ok (nadd (nmul hi 0x100000000) lo))) |}.

Definition readAddr (r : readers) : Z -> result Z := if is64 r then read64 r else read32 r.
Definition readOff (r : readers) : Z -> result Z := if is64 r then read64 r else read32 r.

(* buf.indexOf(0, offset) for 0 <= offset: -1 when there is no zero byte *)
Fixpoint index_of_zero (l : list Byte.byte) (i : Z) : Z :=
  match l with
  | [] => -1
  | x :: r => if byte_val x =? 0 then i else index_of_zero r (i + 1)
  end.

Definition readCStr (buf : option buffer) (offset : Z) : string :=
  match buf with
  | None => ""
  | Some buf =>
      if blen buf <=? offset then ""
      else
        let e := index_of_zero (drop (Z.to_nat offset) buf) offset in
        ascii_string (bslice buf offset (if e <? 0 then blen buf else e))
  end.

(* one pass of the section-header loop: None is the break *)
Definition read_section (b : buffer) (r : readers) (shstrBuf : option buffer)
    (e_shoff e_shentsize : Z) (i : Z) : option (result Section_) :=
  let off := nadd e_shoff (nmul i e_shentsize) in
  if blen b <? nadd off e_shentsize then None
  else Some (
    rbind (read32 r off) (fun sh_name =>
    rbind (read32 r (nadd off 4)) (fun sh_type =>
    rbind (if is64 r then readOff r (nadd off 8) else read32 r (nadd off 8)) (fun sh_flags =>
    rbind (readAddr r (if is64 r then nadd off 16 else nadd off 12)) (fun sh_addr =>
    rbind (readOff r (if is64 r then nadd off 24 else nadd off 16)) (fun sh_offset =>
    rbind (readOff r (if is64 r then nadd off 32 else nadd off 20)) (fun sh_size =>
    let cname := readCStr shstrBuf sh_name in
    let name := if String.eqb cname "" then "section_" +:+ decimal i else cname in
    let isCode := negb (and32 sh_flags 0x4 =? 0) in   (* SHF_EXECINSTR *)
    let typeStr := table_or SHT sh_type ("0x" +:+ toString 16 sh_type) in
    let flagParts :=
      ((if negb (and32 sh_flags 0x1 =? 0) then ["WRITE"] else []) ++
       (if negb (and32 sh_flags 0x2 =? 0) then ["ALLOC"] else []) ++
       (if negb (and32 sh_flags 0x4 =? 0) then ["EXEC"] else []))%list in
    let joined := String.concat "|" flagParts in
    Ok {| name := name;
          virtualAddress := sh_addr;
          virtualSize := sh_size;
          rawOffset := sh_offset;
          rawSize := sh_size;
          sflags := sh_flags;
          flagsStr := if String.eqb joined "" then "NONE" else joined;
          typeStr := Some typeStr;
          isCode := isCode |}))))))).

Fixpoint section_loop (k : nat) (b : buffer) (r : readers) (shstrBuf : option buffer)
    (e_shoff e_shentsize : Z) (i : Z) (acc : list Section_) : result (list Section_) :=
  match k with
  | O => Ok acc
  | S k' =>
      match read_section b r shstrBuf e_shoff e_shentsize i with
      | None => Ok acc
      | Some x =>
          rbind x (fun s =>
            section_loop k' b r shstrBuf e_shoff e_shentsize (i + 1) (acc ++ [s])%list)
      end
  end.

Definition parseELF (b : buffer) : result Parsed :=
  if blen b <? 16 then Throw (Error "File too small to be an ELF") else
  if negb ((default 0 (byte_at b 0) =? 0x7f) && (default 0 (byte_at b 1) =? 0x45) &&
           (default 0 (byte_at b 2) =? 0x4c) && (default 0 (byte_at b 3) =? 0x46))
  then Throw (Error "Not an ELF file") else
  let r := mk_readers b (default 0 (byte_at b 4) =? 2) (default 0 (byte_at b 5) =? 1) in
  let osabi := default 0 (byte_at b 7) in
  rbind (read16 r 0x10) (fun e_type =>
  rbind (read16 r 0x12) (fun e_machine =>
  rbind (readAddr r (if is64 r then 0x18 else 0x18)) (fun e_entry =>
  rbind (readOff r (if is64 r then 0x28 else 0x20)) (fun e_shoff =>
  rbind (read16 r (if is64 r then 0x3a else 0x2e)) (fun e_shentsize =>
  rbind (read16 r (if is64 r then 0x3c else 0x30)) (fun e_shnum =>
  rbind (read16 r (if is64 r then 0x3e else 0x32)) (fun e_shstrndx =>
  let machName := table_or ELF_MACHINES e_machine ("0x" +:+ toString 16 e_machine) in
  let bits := match List.find (fun kv => String.eqb (fst kv) machName) ARCH_BITS with
              | Some (_, n) => n
              | None => if is64 r then 64 else 32
              end in
  (* Parse section headers *)
  rbind
    (if negb (e_shoff =? 0) && negb (e_shnum =? 0) && (e_shstrndx <? e_shnum) then
       (* Get string table section header *)
       let strShOff := nadd e_shoff (nmul e_shstrndx e_shentsize) in
       if nadd strShOff e_shentsize <=? blen b then
         rbind (if is64 r then readOff r (nadd strShOff 24) else read32 r (nadd strShOff 16)) (fun strOffset =>
         rbind (if is64 r then readOff r (nadd strShOff 32) else read32 r (nadd strShOff 20)) (fun strSize =>
         if nadd strOffset strSize <=? blen b
         then Ok (Some (bslice b strOffset (nadd strOffset strSize)))
         else Ok None))
       else Ok None
     else Ok None) (fun shstrBuf =>
  rbind (section_loop (Z.to_nat e_shnum) b r shstrBuf e_shoff e_shentsize 0 []) (fun sections =>
  let fileType := table_or ELF_TYPES e_type ("Type " +:+ decimal e_type) in
  let endian := if isLE r then "Little-endian" else "Big-endian" in
  let n := Z.of_nat (length sections) in
  Ok {| format := "ELF";
        type := "ELF (" +:+ machName +:+ ")";
        arch := machName;
        pbits := bits;
        sections := sections;
        numSections := n;
        summary := fileType +:+ ", " +:+ machName +:+ ", " +:+ decimal n +:+ " sections";
        info := [ ("fileType", fileType);
                  ("arch", machName);
                  ("bits", decimal bits +:+ "-bit");
                  ("endian", endian);
                  ("osabi", table_or ELF_OSABI osabi ("0x" +:+ toString 16 osabi));
                  ("entryPoint", hex0x e_entry) ] |}))))))))).

End ELF.

(** ** Decoder adapter (lib/disassembler.js) *)

Module Disassembler.
Import JS.

Definition MAX_INSTRUCTIONS : Z := 10000.
Definition MAX_BYTES : Z := 2 * 1024 * 1024.   (* 2 MB cap *)

(* what the wrapper reads from one decoded instruction *)
Record decoded : Type := {
  d_ip : Z;              (* instr.ip *)
  d_length : Z;          (* instr.length *)
  d_formatted : string   (* formatter.format(instr) *)
}.

(* iced-x86, the third-party decoder, as the wrapper sees it: either the
   module could not be loaded, or, for a bit mode, the data and the start
   address, it yields instructions one by one until canDecode is false;
   [true] in the second component says that a call into the library throws
   when the wrapper asks for more after the last instruction listed. *)
Inductive iced : Type :=
  | Unavailable
  | Available (decode : Z -> buffer -> Z -> list decoded * bool).

Definition hexbytes (b : buffer) : string :=
  String.concat " " (map (fun x => padStart 2 "0" (toString 16 (byte_val x))) b).

(* the rows of hexDump, i = 0, 16, 32, ... below limit; [k] rows left *)
Fixpoint hexDump_loop (k : nat) (b : buffer) (startOffset limit i : Z) : list Instruction :=
  match k with
  | O => []
  | S k' =>
      if i <? limit then
        let chunk := bslice b i (Z.min (i + 16) limit) in
        {| address := "0x" +:+ padStart 8 "0" (toString 16 (nadd startOffset i));
           bytes := hexbytes chunk;
           mnemonic := str (map (fun x => let v := byte_val x in
                                          if (32 <=? v) && (v <? 127) then chr v else "."%char) chunk);
           operands := "" |}
        :: hexDump_loop k' b startOffset limit (i + 16)
      else []
  end.

Definition hexDump (b : buffer) (startOffset : Z) : list Instruction :=
  let limit := Z.min (blen b) 512 in
  hexDump_loop 32 b startOffset limit 0.

(* str.indexOf(' '): -1 when there is none *)
Fixpoint index_of_space (s : string) (i : Z) : Z :=
  match s with
  | EmptyString => -1
  | String c r => if Ascii.eqb c " " then i else index_of_space r (i + 1)
  end.

(* the body of the decoding loop: [offset] is the running offset into data *)
Fixpoint build (items : list decoded) (data : buffer) (bits : Z) (offset : Z) : list Instruction :=
  match items with
  | [] => []
  | instr :: rest =>
      let ip := d_ip instr in
      let size := d_length instr in
      let addrStr := "0x" +:+ padStart (if bits =? 64 then 16 else 8) "0" (toString 16 ip) in
      let bytesHex := hexbytes (bslice data offset (offset + size)) in
      let formatted := d_formatted instr in
      let spaceIdx := index_of_space formatted 0 in
      let mnemonic := if spaceIdx <? 0 then formatted
                      else String.substring 0 (Z.to_nat spaceIdx) formatted in
      let operands := if spaceIdx <? 0 then ""
                      else trim (drop_front (Z.to_nat (spaceIdx + 1)) formatted) in
      {| address := addrStr; bytes := bytesHex; mnemonic := mnemonic; operands := operands |}
      :: build rest data bits (offset + size)
  end.

Record disasm_result : Type := { instructions : list Instruction; fallback : bool }.

Definition disassemble (icedX86 : iced) (b : buffer) (virtualAddress bits : Z) : disasm_result :=
  let data := if MAX_BYTES <? blen b then bslice b 0 MAX_BYTES else b in
  match icedX86 with
  | Unavailable => {| instructions := hexDump data virtualAddress; fallback := true |}
  | Available decode =>
      let bitMode := if bits =? 64 then 64 else if bits =? 16 then 16 else 32 in
      let '(items, throws) := decode bitMode data virtualAddress in
      if (Z.of_nat (length items) <? MAX_INSTRUCTIONS) && throws
      then {| instructions := hexDump data virtualAddress; fallback := true |}
      else {| instructions := build (take (Z.to_nat MAX_INSTRUCTIONS) items) data bits 0;
              fallback := false |}
  end.

End Disassembler.

(** ** Cross-reference analyzer (lib/xrefAnalyzer.js) *)

Module Xref.
Import JS.

Definition CALL_SET : list string := ["call"].
Definition JMP_SET : list string := ["jmp"].
Definition JCC_SET : list string :=
  ["jo";"jno";"js";"jns";"je";"jne";"jz";"jnz";
   "jb";"jnae";"jc";"jnb";"jae";"jnc";"jbe";"jna";
   "ja";"jnbe";"jl";"jnge";"jge";"jnl";"jle";"jng";
   "jg";"jnle";"jp";"jpe";"jnp";"jpo";
   "jcxz";"jecxz";"jrcxz";"loop";"loope";"loopne"].

Definition has (set : list string) (x : string) : bool := existsb (String.eqb x) set.

(* the hex digits of an operand of the form NNNh (h in either case) *)
Definition match_hexH (s : string) : option string :=
  match last (chars s) with
  | Some c =>
      if Ascii.eqb c "h" || Ascii.eqb c "H" then
        let body := String.substring 0 (String.length s - 1) s in
        if nonempty_all is_hex body then Some body else None
      else None
  | None => None
  end.

(* the hex digits of an operand of the form 0xNNN (x in either case) *)
Definition match_0x (s : string) : option string :=
  match s with
  | String "0" (String x body) =>
      if (Ascii.eqb x "x" || Ascii.eqb x "X") && nonempty_all is_hex body
      then Some body else None
  | _ => None
  end.

(* Parse a direct target address from a FastFormatter NASM operand string.
   Returns a normalized '0xNNN...' string, or null (None) for
   indirect/register targets. *)
Definition parseTarget (operands : string) (bits : Z) : option string :=
  if String.eqb operands "" then None
  else
    let pad := if bits =? 64 then 16%nat else 8%nat in
    match match_hexH operands with
    | Some h => Some ("0x" +:+ padStart pad "0" (toString 16 (hex_value h)))
    | None =>
        match match_0x operands with
        | Some h => Some ("0x" +:+ padStart pad "0" (toString 16 (hex_value h)))
        | None => None   (* indirect / register target *)
        end
    end.

Inductive xref_type : Type := call | jmp | jcc.

Record xref : Type := { from : string; xtype : xref_type }.

(* target_address -> [{from: address, type}] *)
Definition buildXrefs (instructions : list Instruction) (bits : Z) : gmap string (list xref) :=
  fold_left
    (fun xrefs inst =>
       let mnem := trim (toLowerCase (mnemonic inst)) in
       let type := if has CALL_SET mnem then Some call
                   else if has JMP_SET mnem then Some jmp
                   else if has JCC_SET mnem then Some jcc
                   else None in
       match type with
       | None => xrefs
       | Some type =>
           match parseTarget (trim (operands inst)) bits with
           | None => xrefs
           | Some target =>
               let old := default [] (xrefs !! target) in
               <[target := (old ++ [{| from := address inst; xtype := type |}])%list]> xrefs
           end
       end)
    instructions ∅.

End Xref.

(** ** Function boundaries and byte signatures (lib/signatures.js) *)

Module Signatures.
Import JS.

Definition END_MNEMS : list string := ["ret"; "retn"; "retq"; "retf"; "ud2"; "hlt"].

(* address.replace(/^0x0*/, '') *)
Fixpoint strip_zeros (s : string) : string :=
  match s with
  | String "0" r => strip_zeros r
  | _ => s
  end.
Definition strip_0x_zeros (s : string) : string :=
  match s with
  | String "0" (String "x" r) => strip_zeros r
  | _ => s
  end.

(* Returns Map<address, label>; [atBoundary] is the loop variable *)
Fixpoint detect_loop (instructions : list Instruction) (atBoundary : bool)
    (funcs : gmap string string) : gmap string string :=
  match instructions with
  | [] => funcs
  | inst :: rest =>
      let mnem := trim (toLowerCase (mnemonic inst)) in
      let '(funcs, atBoundary) :=
        if atBoundary && negb (String.eqb mnem "int3") then
          let short := strip_0x_zeros (address inst) in
          let short := if String.eqb short "" then "0" else short in
          (<[address inst := "sub_" +:+ short]> funcs, false)
        else (funcs, atBoundary) in
      let atBoundary :=
        if existsb (String.eqb mnem) END_MNEMS || String.eqb mnem "int3"
        then true else atBoundary in
      detect_loop rest atBoundary funcs
  end.

Definition detectFunctions (instructions : list Instruction) : gmap string string :=
  detect_loop instructions true ∅.

Record byte_sig : Type := { sig_bytes : list Z; sig_name : string; sig_note : string }.

(* Well-known byte-level patterns *)
Definition BYTE_SIGS : list byte_sig :=
  [ {| sig_bytes := [0xf3; 0xaa]; sig_name := "rep stosb"; sig_note := "byte memset" |};
    {| sig_bytes := [0xf3; 0xab]; sig_name := "rep stosd"; sig_note := "dword memset" |};
    {| sig_bytes := [0xf3; 0xa4]; sig_name := "rep movsb"; sig_note := "byte memcpy" |};
    {| sig_bytes := [0xf3; 0xa5]; sig_name := "rep movsd"; sig_note := "dword memcpy" |};
    {| sig_bytes := [0x0f; 0x05]; sig_name := "syscall"; sig_note := "Linux syscall" |};
    {| sig_bytes := [0xcd; 0x80]; sig_name := "int 80h"; sig_note := "Linux int 0x80" |};
    {| sig_bytes := [0xff; 0x25]; sig_name := "jmp [IAT]"; sig_note := "Indirect jump (import)" |};
    {| sig_bytes := [0xff; 0x15]; sig_name := "call [IAT]"; sig_note := "Indirect call (import)" |} ].

Record hit : Type := { hit_address : string; hit_name : string; hit_note : string }.

(* the inner loop over j: does the pattern stand at offset i? *)
Fixpoint match_at (codeBuffer : buffer) (i : Z) (pat : list Z) (j : Z) : bool :=
  match pat with
  | [] => true
  | p :: rest =>
      match byte_at codeBuffer (i + j) with
      | Some x => if x =? p then match_at codeBuffer i rest (j + 1) else false
      | None => false
      end
  end.

(* for (let i = 0; i < limit - sig.bytes.length; i++): [fuel] bounds the
   number of passes; with a pattern that is not empty every pass advances i,
   so limit passes are enough *)
Fixpoint scan (fuel : nat) (codeBuffer : buffer) (baseVA : Z) (pad : nat) (limit : Z)
    (sig : byte_sig) (i : Z) : list hit :=
  match fuel with
  | O => []
  | S fuel' =>
      let n := Z.of_nat (length (sig_bytes sig)) in
      if i <? limit - n then
        if match_at codeBuffer i (sig_bytes sig) 0 then
          let va := nadd baseVA i in
          {| hit_address := "0x" +:+ padStart pad "0" (toString 16 va);
             hit_name := sig_name sig;
             hit_note := sig_note sig |}
          :: scan fuel' codeBuffer baseVA pad limit sig (i + (n - 1) + 1)
        else scan fuel' codeBuffer baseVA pad limit sig (i + 1)
      else []
  end.

Definition matchByteSignatures (codeBuffer : buffer) (baseVA bits : Z) : list hit :=
  let pad := if bits =? 64 then 16%nat else 8%nat in
  let limit := Z.min (blen codeBuffer) (1024 * 1024) in
  flat_map (fun sig => scan (Z.to_nat limit) codeBuffer baseVA pad limit sig 0) BYTE_SIGS.

End Signatures.

(** ** Pipeline orchestrator (lib/analyzer.js) *)

Module Analyzer.
Import JS.

(* formatSize(bytes) for an integer number of bytes *)
Definition formatSize (n : Z) : string :=
  if n <? 1024 then decimal n +:+ " B"
  else if n <? 1048576 then toFixed_pow2 n 10 1 +:+ " KB"
  else toFixed_pow2 n 20 2 +:+ " MB".

Inductive format_type : Type := raw | pe | elf | macho.

Record detected : Type := { dtype : format_type; description : string }.

Definition detectFormat (b : buffer) : detected :=
  let at_ i := default 0 (byte_at b i) in
  if blen b <? 4 then {| dtype := raw; description := "Raw binary (too small)" |}
  else if (at_ 0 =? 0x4d) && (at_ 1 =? 0x5a)
  then {| dtype := pe; description := "PE (Portable Executable)" |}
  else if (at_ 0 =? 0x7f) && (at_ 1 =? 0x45) && (at_ 2 =? 0x4c) && (at_ 3 =? 0x46)
  then {| dtype := elf; description := "ELF (Executable and Linkable Format)" |}
  else
    let m := be_value [at_ 0; at_ 1; at_ 2; at_ 3] in
    if (m =? 0xfeedface) || (m =? 0xcefaedfe)
    then {| dtype := macho; description := "Mach-O (32-bit)" |}
    else if (m =? 0xfeedfacf) || (m =? 0xcffaedfe)
    then {| dtype := macho; description := "Mach-O (64-bit)" |}
    else if m =? 0xcafebabe
    then {| dtype := macho; description := "Mach-O FAT binary" |}
    else {| dtype := raw; description := "Raw binary / unknown format" |}.

Definition type_upper (t : format_type) : string :=
  match t with raw => "RAW" | pe => "PE" | elf => "ELF" | macho => "MACHO" end.

Definition or_else {A} (a b : option A) : option A :=
  match a with Some _ => a | None => b end.

Definition findCodeSection (sections : list Section_) : option Section_ :=
  or_else (List.find (fun s => String.eqb (name s) ".text" || String.eqb (name s) "__text") sections)
  (or_else (List.find (fun s => isCode s && (0 <? rawSize s)) sections)
           (List.find (fun s => 0 <? rawSize s) sections)).

(* a member of the file object of the report: a Number or a string *)
Inductive value : Type :=
  | num (n : Z)
  | text (s : string).

(* { name, size, sizeStr, format, type, arch, bits, ...parsed.info }: the
   members of info are spread last and replace members of the same name (the
   ELF parser's info has arch and bits) *)
Definition file_object (originalName : string) (fileSize : Z) (parsed : Parsed)
  : gmap string value :=
  fold_left (fun o kv => <[fst kv := text (snd kv)]> o) (info parsed)
    (<["bits" := num (pbits parsed)]>
    (<["arch" := text (arch parsed)]>
    (<["type" := text (type parsed)]>
    (<["format" := text (format parsed)]>
    (<["sizeStr" := text (formatSize fileSize)]>
    (<["size" := num fileSize]>
    (<["name" := text originalName]> ∅))))))).

Record report_section : Type := {
  rs_name : string; rs_virtualAddress : string; rs_size : string; rs_rawSize : Z;
  rs_flags : string; rs_isCode : bool; rs_type : string
}.

Record report_disasm : Type := {
  section : option string;
  fallback : bool;
  instructions : list Instruction;
  baseVA : Z
}.

Record report_analysis : Type := {
  xrefs : gmap string (list Xref.xref);
  funcLabels : gmap string string;
  byteSigs : list Signatures.hit
}.

Record report : Type := {
  file : gmap string value;
  rsections : list report_section;
  disasm : report_disasm;
  analysis : report_analysis
}.

(* a || b on Numbers *)
Definition num_or (a b : Z) : Z := if a =? 0 then b else a.

(* analyzeFile(filePath, originalName, fileSize, emit), given the bytes of the
   file at filePath and the decoder module.  The stage events handed to emit
   and the pauses between the stages are left out: they do not enter the
   report.  A Throw is the rejection of the promise by a parser error. *)
Definition analyzeFile (icedX86 : Disassembler.iced) (b : buffer)
    (originalName : string) (fileSize : Z) : result report :=
  (* 1. Format *)
  let fmt := detectFormat b in
  (* 2. Headers *)
  rbind (match dtype fmt with
         | pe => PE.parsePE b
         | elf => ELF.parseELF b
         | _ => Ok {| format := type_upper (dtype fmt); type := description fmt;
                      arch := "unknown"; pbits := 32; sections := []; numSections := 0;
                      summary := description fmt; info := [] |}
         end) (fun parsed =>
  (* 3. Sections *)
  let sections := sections parsed in
  (* 4. Disassemble *)
  let codeSection := findCodeSection sections in
  let '(instructions, disasmFallback, disasmSection, codeBaseVA) :=
    match codeSection with
    | Some cs =>
        if (0 <? rawSize cs) && (0 <? rawOffset cs) then
          let rawEnd := Z.min (nadd (rawOffset cs) (rawSize cs)) (blen b) in
          if rawOffset cs <? rawEnd then
            let codeBuffer := bslice b (rawOffset cs) rawEnd in
            let codeBaseVA := virtualAddress cs in
            let r := Disassembler.disassemble icedX86 codeBuffer codeBaseVA (pbits parsed) in
            (Disassembler.instructions r, Disassembler.fallback r, Some (name cs), codeBaseVA)
          else ([], false, None, 0)
        else if (length sections =? 0)%nat then
          let r := Disassembler.disassemble icedX86 b 0 32 in
          (Disassembler.instructions r, Disassembler.fallback r, None, 0)
        else ([], false, None, 0)
    | None =>
        if (length sections =? 0)%nat then
          let r := Disassembler.disassemble icedX86 b 0 32 in
          (Disassembler.instructions r, Disassembler.fallback r, None, 0)
        else ([], false, None, 0)
    end in
  (* 5. References + Signatures *)
  let xrefs := if disasmFallback then ∅ else Xref.buildXrefs instructions (pbits parsed) in
  let funcLabels := if disasmFallback then ∅ else Signatures.detectFunctions instructions in
  let byteSigs :=
    match codeSection with
    | Some cs =>
        if (0 <? rawOffset cs) && (0 <? rawSize cs) then
          let rawEnd := Z.min (nadd (rawOffset cs) (rawSize cs)) (blen b) in
          let codeBuf := bslice b (rawOffset cs) rawEnd in
          Signatures.matchByteSignatures codeBuf codeBaseVA (pbits parsed)
        else []
    | None => []
    end in
  (* 6. Report *)
  Ok {| file := file_object originalName fileSize parsed;
        rsections :=
          map (fun s =>
                 {| rs_name := name s;
                    rs_virtualAddress := "0x" +:+ padStart 8 "0" (toString 16 (virtualAddress s));
                    rs_size := formatSize (num_or (rawSize s) (num_or (virtualSize s) 0));
                    rs_rawSize := num_or (rawSize s) 0;
                    rs_flags := flagsStr s;
                    rs_isCode := isCode s;
                    rs_type := default "" (typeStr s) |}) sections;
        disasm := {| section := disasmSection; fallback := disasmFallback;
                     instructions := instructions; baseVA := codeBaseVA |};
        analysis := {| xrefs := xrefs; funcLabels := funcLabels; byteSigs := byteSigs |} |}).

End Analyzer.

(** ** Control-flow graph builder (public/graph.js) *)

Module Graph.
Import JS.

Definition JMP_END : list string := ["jmp";"ret";"retn";"retq";"retf";"ud2";"hlt"].
Definition JCC_ALL : list string :=
  ["je";"jne";"jz";"jnz";"jg";"jge";"jl";"jle";"ja";"jae";"jb";"jbe";
   "jp";"jnp";"jo";"jno";"js";"jns";"jcxz";"jecxz";"jrcxz"].

Definition has (set : list string) (x : string) : bool := existsb (String.eqb x) set.

(* Parse target address from NASM-style operand *)
Definition parseTarget (op : string) (bits : Z) : option string :=
  if String.eqb op "" then None
  else
    let pad := if bits =? 64 then 16%nat else 8%nat in
    match Xref.match_hexH (trim op) with
    | Some h => Some ("0x" +:+ padStart pad "0" (toString 16 (hex_value h)))
    | None =>
        match Xref.match_0x (trim op) with
        | Some h => Some ("0x" +:+ padStart pad "0" (toString 16 (hex_value h)))
        | None => None
        end
    end.

Inductive edge_type : Type := fall | jump.
Record succ : Type := { to : string; etype : edge_type }.
Record block : Type := { id : string; insts : list Instruction; succs : list succ }.

(* 1. Mark block-start addresses: the loop over i, [rest] being the
   instructions from index i on *)
Fixpoint mark_starts (rest : list Instruction) (bits : Z) (starts : gset string) : gset string :=
  match rest with
  | [] => starts
  | inst :: rest' =>
      let m := trim (toLowerCase (mnemonic inst)) in
      let starts :=
        if has JMP_END m || has JCC_ALL m || String.eqb m "call" then
          let starts := match rest' with
                        | next :: _ => {[ address next ]} ∪ starts
                        | [] => starts
                        end in
          match parseTarget (operands inst) bits with
          | Some t => {[ t ]} ∪ starts
          | None => starts
          end
        else starts in
      mark_starts rest' bits starts
  end.

(* 2. Build blocks: [cur] is the block under construction *)
Fixpoint build_blocks (rest : list Instruction) (starts : gset string)
    (blocks : list block) (cur : option block) : list block * option block :=
  match rest with
  | [] => (blocks, cur)
  | inst :: rest' =>
      if bool_decide (address inst ∈ starts) then
        let blocks := match cur with Some c => (blocks ++ [c])%list | None => blocks end in
        build_blocks rest' starts blocks
          (Some {| id := address inst; insts := [inst]; succs := [] |})
      else
        match cur with
        | Some c =>
            build_blocks rest' starts blocks
              (Some {| id := id c; insts := (insts c ++ [inst])%list; succs := succs c |})
        | None => build_blocks rest' starts blocks None
        end
  end.

Definition truthy_str (s : string) : bool := negb (String.eqb s "").

(* 3. Build edges: the successors of one block *)
Definition edges (instructions : list Instruction) (bits : Z) (ids : gset string)
    (b : block) : list succ :=
  match last (insts b) with
  | None => []
  | Some lst =>
      let m := trim (toLowerCase (mnemonic lst)) in
      let li := Sim.findIndex (fun i => String.eqb (address i) (address lst)) instructions 0 in
      let nextAddr := address <$> Sim.at_index instructions (li + 1) in
      let fall_edge := match nextAddr with
                       | Some a => if truthy_str a && bool_decide (a ∈ ids)
                                   then [{| to := a; etype := fall |}] else []
                       | None => []
                       end in
      let jump_edge := match parseTarget (operands lst) bits with
                       | Some t => if bool_decide (t ∈ ids)
                                   then [{| to := t; etype := jump |}] else []
                       | None => []
                       end in
      if has JCC_ALL m then (fall_edge ++ jump_edge)%list
      else if String.eqb m "jmp" then jump_edge
      else if negb (has JMP_END m) then fall_edge
      else []
  end.

Record cfg : Type := { blocks : list block; blockMap : gmap string block }.

Definition buildCFG (instructions : list Instruction) (bits : Z) : cfg :=
  match instructions with
  | [] => {| blocks := []; blockMap := ∅ |}
  | first :: _ =>
      let starts := mark_starts instructions bits {[ address first ]} in
      let '(bs, cur) := build_blocks instructions starts [] None in
      let bs := match cur with Some c => (bs ++ [c])%list | None => bs end in
      let ids : gset string := list_to_set (map id bs) in
      let bs := map (fun b => {| id := id b; insts := insts b;
                                 succs := (succs b ++ edges instructions bits ids b)%list |}) bs in
      {| blocks := bs;
         blockMap := fold_left (fun m b => <[id b := b]> m) bs ∅ |}
  end.

End Graph.

(** ** Auxiliary definitions and fixtures used by the properties *)

Module Fixtures.
Import JS Sim.

(* the five (width, shift) pairs of the alias tables; parents are named *)
Definition alias_shape (name parent : string) : bool :=
  match t_bits REG !! name, t_shift REG !! name with
  | Some w, Some s =>
      existsb (fun '(w', s') => (w =? w') && (s =? s'))
        [(64, 0); (32, 0); (16, 0); (8, 0); (8, 8)]
      && negb (String.eqb parent "")
  | _, _ => false
  end.

(* a register file whose rax holds 0xffffffffffffffff *)
Definition rax_all_ones : Registers :=
  {| _r := <["rax" := 0xffffffffffffffff]> (_r Registers_new) |}.

(* the byte that memory holds at an address: the content of r8 without the
   allocation of the page *)
Definition peek (m : Memory) (a : Z) : Z :=
  match _pages m !! page_base a with
  | Some p => p !!! page_off a
  | None => 0
  end.

(* The end-to-end stream
     0x401000  b8 05 00 00 00   mov  eax, 5
     0x401005  83 c0 03         add  eax, 3
     0x401008  c3               ret
   with the addresses in the canonical form for the bit width. *)
Definition canonical (bits : Z) (a : Z) : string :=
  "0x" +:+ padStart (if bits =? 64 then 16 else 8) "0" (toString 16 a).

Definition scenario_stream (bits : Z) : list Instruction :=
  [ {| address := canonical bits 0x401000; bytes := "b8 05 00 00 00";
       mnemonic := "mov"; operands := "eax, 5" |};
    {| address := canonical bits 0x401005; bytes := "83 c0 03";
       mnemonic := "add"; operands := "eax, 3" |};
    {| address := canonical bits 0x401008; bytes := "c3";
       mnemonic := "ret"; operands := "" |} ].

Record scenario_outcome : Type := {
  rsp0 : Z;                      (* rsp after the reset *)
  results : list step_result;    (* what the three calls of step() returned *)
  flags_after_add : Flags;
  final_eax : Z;
  final_rip : Z;
  final_rsp : Z
}.

(* reset, write 0xdead as one word at mem[rsp], step three times *)
Definition run_scenario (stream : list Instruction) : M scenario_outcome :=
  reset stream ;;;
  r0 <- regs_get "rsp" ;;
  b <- get_bits ;;
  mem_writeLE r0 0xdead (shr3 b) ;;;
  r1 <- step ;;
  r2 <- step ;;
  f <- get_flags ;;
  r3 <- step ;;
  eax <- regs_get "eax" ;;
  rip <- regs_get "rip" ;;
  rsp <- regs_get "rsp" ;;
  ret {| rsp0 := r0; results := [r1; r2; r3]; flags_after_add := f;
         final_eax := eax; final_rip := rip; final_rsp := rsp |}.



Definition cpuid_inst : Instruction :=
  {| address := "0x00401000"; bytes := "0f a2"; mnemonic := "cpuid"; operands := "" |}.
Definition cpuid_stream : list Instruction :=
  [ cpuid_inst;
    {| address := "0x00401002"; bytes := "90"; mnemonic := "nop"; operands := "" |} ].

(* a one-instruction loop: jmp to itself *)
Definition loop_stream : list Instruction :=
  [ {| address := "0x00401000"; bytes := "eb fe"; mnemonic := "jmp"; operands := "401000h" |} ].

(* the simulator after load(cpuid_stream) in 32-bit mode *)
Definition cpuid_state : X86Sim := snd (load cpuid_stream (X86Sim_new 32)).

(* little-endian encodings for building test images *)
Definition le16 (n : Z) : list Z := [n mod 256; n / 256 mod 256].
Definition le32 (n : Z) : list Z := (le16 (n mod 65536) ++ le16 (n / 65536))%list.
Definition zeros (n : nat) : list Z := replicate n 0.

(* A PE32+ image with one section .text: the DOS header with e_lfanew = 0x40,
   the signature, the COFF header (machine AMD64, one section, an optional
   header of 0xf0 bytes, characteristics EXE), the optional header and one
   section header with the given flags. *)
Definition pe_image (flags : Z) : buffer :=
  map u8
    ([0x4d; 0x5a] ++ zeros 58 ++ le32 0x40 ++
     [0x50; 0x45; 0; 0] ++
     le16 0x8664 ++ le16 1 ++ le32 0 ++ le32 0 ++ le32 0 ++ le16 0xf0 ++ le16 0x0002 ++
     le16 0x20b ++ zeros 238 ++
     [0x2e; 0x74; 0x65; 0x78; 0x74; 0; 0; 0] ++
     le32 0x10 ++ le32 0x1000 ++ le32 0x10 ++ le32 0x200 ++ zeros 12 ++ le32 flags)%list.

(* what parsePE returns for pe_image 0x60000020 *)
Definition pe_text_parsed : Parsed :=
  {| format := "PE"; type := "PE (AMD64)"; arch := "AMD64"; pbits := 64;
     sections :=
       [ {| name := ".text"; virtualAddress := 0x1000; virtualSize := 0x10;
            rawOffset := 0x200; rawSize := 0x10; sflags := 0x60000020;
            flagsStr := "CODE|EXEC|READ"; typeStr := None; isCode := true |} ];
     numSections := 1;
     summary := "EXE, AMD64, 1 sections";
     info := [ ("entryPoint", "0x0"); ("imageBase", "0x0"); ("subsystem", "Unknown (0)");
               ("fileType", "EXE"); ("timestamp", "1970-01-01 00:00:00 UTC") ] |}.

(* F3 AA 90 F3 AB *)
Definition sig_buffer : buffer := map u8 [0xF3; 0xAA; 0x90; 0xF3; 0xAB].

Definition inst_at (a m o : string) : Instruction :=
  {| address := a; bytes := ""; mnemonic := m; operands := o |}.

(* call 401000h @0x100; jne 0x401010 @0x105; jmp rax @0x10a *)
Definition xref_stream : list Instruction :=
  [ inst_at "0x00000100" "call" "401000h";
    inst_at "0x00000105" "jne" "0x401010";
    inst_at "0x0000010a" "jmp" "rax" ].

(* a conditional jump over one instruction, under a given mnemonic *)
Definition branch_stream (jcc : string) : list Instruction :=
  [ inst_at "0x00000000" jcc "10h";
    inst_at "0x00000002" "nop" "";
    inst_at "0x00000010" "ret" "" ].

(* four bytes that are no PE and no ELF, and their report when no decoder is
   available *)
Definition raw_file : buffer := map u8 [0x90; 0x90; 0xc3; 0x00].
Definition raw_report : Analyzer.report :=
  {| Analyzer.file :=
       {[ "name" := Analyzer.text "a.bin"; "size" := Analyzer.num 4;
          "sizeStr" := Analyzer.text "4 B"; "format" := Analyzer.text "RAW";
          "type" := Analyzer.text "Raw binary / unknown format";
          "arch" := Analyzer.text "unknown"; "bits" := Analyzer.num 32 ]};
     Analyzer.rsections := [];
     Analyzer.disasm :=
       {| Analyzer.section := None; Analyzer.fallback := true;
          Analyzer.instructions :=
            [ {| address := "0x00000000"; bytes := "90 90 c3 00";
                 mnemonic := "...."; operands := "" |} ];
          Analyzer.baseVA := 0 |};
     Analyzer.analysis :=
       {| Analyzer.xrefs := ∅; Analyzer.funcLabels := ∅; Analyzer.byteSigs := [] |} |}.

(* isCode as parsePE computes it: one of the two bits is enough *)
Definition code_or_exec (s : Section_) : Prop :=
  isCode s = true <-> Z.land (sflags s) 0x20000020 <> 0.

(* a history of accesses to a memory, and the memory it leaves *)
Inductive mem_op : Type :=
  | Write (a v n : Z)    (* writeLE(a, v, n) *)
  | Read (a n : Z).      (* readLE(a, n) *)

Definition run_op (m : Memory) (o : mem_op) : Memory :=
  match o with
  | Write a v n => writeLE m a v n
  | Read a n => snd (readLE m a n)
  end.

Definition run_ops (ops : list mem_op) (m : Memory) : Memory := fold_left run_op ops m.

(* no write of the history covers the byte at b *)
Definition never_written (b : Z) (ops : list mem_op) : bool :=
  forallb (fun o => match o with
                    | Write a _ n => (b <? a) || (a + n <=? b)
                    | Read _ _ => true
                    end) ops.

End Fixtures.

(** ** Auxiliary definitions used by the further properties *)

(** *** The HTML escaping of the front end (public/app.js) *)

Module Html.

(* s.replace(/c/g, rep) for a one-character pattern *)
Fixpoint replace_char (c : ascii) (rep : string) (s : string) : string :=
  match s with
  | EmptyString => EmptyString
  | String x r =>
      if Ascii.eqb x c then rep +:+ replace_char c rep r
      else String x (replace_char c rep r)
  end.

(* the double quote *)
Definition quote : ascii := "034"%char.

(* esc(s) for a string s *)
Definition esc (s : string) : string :=
  replace_char quote "&quot;"
    (replace_char ">" "&gt;"
       (replace_char "<" "&lt;"
          (replace_char "&" "&amp;" s))).

(* the characters that esc rewrites *)
Definition special (c : ascii) : bool :=
  Ascii.eqb c "&" || Ascii.eqb c "<" || Ascii.eqb c ">" || Ascii.eqb c quote.

End Html.

(** *** Invariants and fixtures of the simulator *)

Module SimAux.
Import JS Sim Fixtures.

(* every slot of a register file holds a 64-bit value *)
Definition regs_bounded (rg : Registers) : Prop :=
  map_Forall (fun _ x => 0 <= x < 2 ^ 64) (_r rg).

(* the number of set bits among the low eight bits *)
Definition popcount8 (n : Z) : nat :=
  length (List.filter (Z.testbit n) [0; 1; 2; 3; 4; 5; 6; 7]).

(* the value of an n-bit pattern read as a two's complement number *)
Definition signed (bits x : Z) : Z :=
  if 2 ^ (bits - 1) <=? x then x - 2 ^ bits else x.

(* what no instruction changes, and the invariants that every instruction
   keeps *)
Definition keeps (s s' : X86Sim) : Prop :=
  bits s' = bits s /\ _list s' = _list s /\ _map s' = _map s /\
  breakpoints s' = breakpoints s /\ _maxSteps s' = _maxSteps s /\
  af (flags s') = af (flags s) /\
  dom (_r (regs s')) = dom (_r (regs s)) /\
  (regs_bounded (regs s) -> regs_bounded (regs s')) /\
  (Memory_wf (mem s) -> Memory_wf (mem s')).

Definition mkeeps {A} (c : M A) : Prop := forall s, keeps s (snd (c s)).

(* a character that toString(16) produces: a lowercase hex digit, which is
   none of the characters that the operand syntax gives a meaning to *)
Definition good_digit (c : ascii) : Prop :=
  is_hex_l c = true /\ is_ws c = false /\ is_upper c = false /\ is_hex c = true /\
  c <> "h"%char /\ c <> "H"%char /\ c <> "x"%char /\ c <> "-"%char /\ c <> "+"%char.

(* reading a digit string in radix r with digit values dv, from init *)
Definition read_digits (r : Z) (dv : ascii -> Z) (l : list ascii) (init : Z) : Z :=
  fold_left (fun a c => r * a + dv c) l init.

(* a character that trim, toLowerCase and the sign test of parseImm leave
   alone *)
Definition plain (c : ascii) : Prop :=
  is_ws c = false /\ is_upper c = false /\ c <> "-"%char.

(* what parseImm computes once the string is normalised and the sign is
   taken off *)
Definition imm_value (s : string) : option Z :=
  let v := None in
  let v := match match_hexH s with Some h => Some (hex_value h) | None => v end in
  let v := match match_0x s with Some h => Some (hex_value h) | None => v end in
  if nonempty_all is_digit s then Some (dec_value s) else v.

(* the instruction that the address map holds under a key: the last one of
   the list whose lowercased address is the key *)
Definition last_at (k : string) (l : list Instruction) : option Instruction :=
  last (List.filter (fun i => String.eqb (toLowerCase (address i)) k) l).

(* a 64-bit machine with rax = 2^64 - 1 and the stack pointer where load
   puts it *)
Definition stack_state : X86Sim :=
  with_regs (X86Sim_new 64) {| _r := <["rsp" := 0x7fff0000]> (_r rax_all_ones) |}.

(* two instructions at one address *)
Definition dup_first : Instruction :=
  {| address := canonical 64 0x401000; bytes := "90"; mnemonic := "nop"; operands := "" |}.
Definition dup_last : Instruction :=
  {| address := canonical 64 0x401000; bytes := "c3"; mnemonic := "ret"; operands := "" |}.

(* the debugger state after set-up on cpuid_stream in 32-bit mode, with a
   breakpoint on the second instruction *)
Definition bp_state : App.state :=
  {| App.sim := Some cpuid_state; App.simRunning := false; App.prevRegs := None;
     App.bpAddrs := {[ "0x00401002" ]} |}.

End SimAux.

(** *** Vocabulary for the analyses *)

Module AnalysisAux.
Import JS Fixtures.

(* the kind of reference an instruction makes, by its mnemonic *)
Definition kind (inst : Instruction) : option Xref.xref_type :=
  let mnem := trim (toLowerCase (mnemonic inst)) in
  if Xref.has Xref.CALL_SET mnem then Some Xref.call
  else if Xref.has Xref.JMP_SET mnem then Some Xref.jmp
  else if Xref.has Xref.JCC_SET mnem then Some Xref.jcc
  else None.

(* the reference that an instruction makes to the target t, if any *)
Definition ref_to (bits : Z) (t : string) (inst : Instruction) : option Xref.xref :=
  match kind inst with
  | Some ty =>
      if bool_decide (Xref.parseTarget (trim (operands inst)) bits = Some t)
      then Some {| Xref.from := address inst; Xref.xtype := ty |} else None
  | None => None
  end.

Definition norm_mnem (inst : Instruction) : string := trim (toLowerCase (mnemonic inst)).

(* an instruction after which a function may begin *)
Definition ends_function (inst : Instruction) : bool :=
  existsb (String.eqb (norm_mnem inst)) Signatures.END_MNEMS ||
  String.eqb (norm_mnem inst) "int3".

(* the label that detectFunctions gives to an address *)
Definition label_of (a : string) : string :=
  let short := Signatures.strip_0x_zeros a in
  "sub_" +:+ (if String.eqb short "" then "0" else short).

(* the pattern stands in the buffer at offset i *)
Definition stands_at (b : buffer) (i : Z) (pat : list Z) : Prop :=
  forall (k : nat) p, pat !! k = Some p -> byte_at b (i + Z.of_nat k) = Some p.

(* the entry that matchByteSignatures pushes for a pattern found at offset i *)
Definition hit_at (baseVA bits : Z) (sig : Signatures.byte_sig) (i : Z) : Signatures.hit :=
  {| Signatures.hit_address :=
       "0x" +:+ padStart (if bits =? 64 then 16 else 8) "0" (toString 16 (nadd baseVA i));
     Signatures.hit_name := Signatures.sig_name sig;
     Signatures.hit_note := Signatures.sig_note sig |}.

(* the instructions held by the finished blocks and the block under
   construction, in order *)
Definition flat (bs : list Graph.block) (cur : option Graph.block) : list Instruction :=
  (concat (map Graph.insts bs) ++
   match cur with Some c => Graph.insts c | None => [] end)%list.

(* a block as build_blocks makes it: not empty, named after its first
   instruction, no successors yet *)
Definition fresh_block (b : Graph.block) : Prop :=
  (exists i rest, Graph.insts b = i :: rest /\ Graph.id b = address i) /\
  Graph.succs b = [].

(* a section with one of the two names that findCodeSection looks for first *)
Definition is_text (s : Section_) : bool :=
  String.eqb (name s) ".text" || String.eqb (name s) "__text".

(* the character that the hex dump shows for a byte *)
Definition printable (x : Byte.byte) : ascii :=
  let v := byte_val x in if (32 <=? v) && (v <? 127) then chr v else "."%char.

(* A 32-bit little-endian ELF image: the header (executable, x86, entry
   0x8048000, one section header of 40 bytes at offset 52) and the section
   header (PROGBITS, flags ALLOC|EXEC, address 0x8048000, no bytes). *)
Definition elf_image : buffer :=
  map u8
    ([0x7f; 0x45; 0x4c; 0x46; 1; 1; 1; 0] ++ zeros 8 ++
     le16 2 ++ le16 3 ++ le32 1 ++ le32 0x8048000 ++ le32 0 ++ le32 52 ++ le32 0 ++
     le16 52 ++ le16 0 ++ le16 0 ++ le16 40 ++ le16 1 ++ le16 0 ++
     le32 0 ++ le32 1 ++ le32 6 ++ le32 0x8048000 ++ le32 0 ++ le32 0 ++ zeros 16)%list.

(* what parseELF returns for elf_image *)
Definition elf_parsed : Parsed :=
  {| format := "ELF"; type := "ELF (x86)"; arch := "x86"; pbits := 32;
     sections :=
       [ {| name := "section_0"; virtualAddress := 0x8048000; virtualSize := 0;
            rawOffset := 0; rawSize := 0; sflags := 6;
            flagsStr := "ALLOC|EXEC"; typeStr := Some "PROGBITS"; isCode := true |} ];
     numSections := 1;
     summary := "Executable, x86, 1 sections";
     info := [ ("fileType", "Executable"); ("arch", "x86"); ("bits", "32-bit");
               ("endian", "Little-endian"); ("osabi", "System V");
               ("entryPoint", "0x8048000") ] |}.

End AnalysisAux.

(** * Properties *)

Import JS Sim Fixtures.

(** ** Register file *)

Section RegisterTables.

Lemma REG_shapes : map_Forall (fun name p => alias_shape name p = true) (t_map REG).
Proof.
  refine (bool_decide_unpack _ _). vm_compute. reflexivity.
Qed.

Lemma REG_MAP_own name p : REG_MAP name = Own p -> t_map REG !! name = Some p.
Proof.
  unfold REG_MAP, obj_get. destruct (t_map REG !! name); [congruence|].
  destruct (inherited name); discriminate.
Qed.

Lemma REG_own_shape name p :
  REG_MAP name = Own p ->
  truthy_name (Own p) = true /\
  exists w s, REG_BITS name = Own w /\ REG_SHIFT name = Own s /\
    ((w = 64 /\ s = 0) \/ (w = 32 /\ s = 0) \/ (w = 16 /\ s = 0) \/
     (w = 8 /\ s = 0) \/ (w = 8 /\ s = 8)).
Proof.
  intros H. apply REG_MAP_own in H.
  pose proof (REG_shapes name p H) as Hs. cbv beta in Hs.
  unfold alias_shape in Hs. unfold REG_BITS, REG_SHIFT, obj_get.
  destruct (t_bits REG !! name) as [w|]; [|discriminate].
  destruct (t_shift REG !! name) as [s|]; [|discriminate].
  apply andb_true_iff in Hs as [Hs Hp]. split; [exact Hp|].
  exists w, s. split; [reflexivity|]. split; [reflexivity|].
  simpl in Hs. rewrite !orb_true_iff, !andb_true_iff, !Z.eqb_eq in Hs. lia.
Qed.

End RegisterTables.

Section BitSlices.

Lemma mask_ones w : 0 <= w -> Z.shiftl 1 w - 1 = Z.ones w.
Proof. intros Hw. rewrite Z.shiftl_1_l, Z.ones_equiv. lia. Qed.

(* clearing a slice and or-ing a masked value in, bit by bit *)
Lemma slice_write_bits old v w s i :
  0 <= w -> 0 <= s -> 0 <= i ->
  Z.testbit (Z.lor (Z.land old (Z.lnot (Z.shiftl (Z.shiftl 1 w - 1) s)))
                   (Z.shiftl (Z.land v (Z.shiftl 1 w - 1)) s)) i
  = if (s <=? i) && (i <? s + w) then Z.testbit v (i - s) else Z.testbit old i.
Proof.
  intros Hw Hs Hi. rewrite (mask_ones w Hw).
  rewrite Z.lor_spec, Z.land_spec, (Z.lnot_spec _ _ Hi), !(Z.shiftl_spec _ _ _ Hi), Z.land_spec.
  destruct (Z.leb_spec s i) as [Hle|Hlt]; simpl.
  - rewrite (Z.testbit_ones w (i - s) Hw).
    replace (0 <=? i - s) with true by (symmetry; apply Z.leb_le; lia). simpl.
    destruct (Z.ltb_spec i (s + w)) as [H1|H1].
    + replace (i - s <? w) with true by (symmetry; apply Z.ltb_lt; lia).
      simpl. rewrite andb_false_r, andb_true_r. reflexivity.
    + replace (i - s <? w) with false by (symmetry; apply Z.ltb_ge; lia).
      simpl. rewrite andb_true_r, andb_false_r, orb_false_r. reflexivity.
  - rewrite !(Z.testbit_neg_r _ (i - s)) by lia. simpl.
    rewrite andb_true_r, orb_false_r. reflexivity.
Qed.

Lemma low32_of_slice old v :
  Z.land (Z.lor (Z.land old (Z.lnot (Z.shiftl (Z.shiftl 1 32 - 1) 0)))
                (Z.shiftl (Z.land v (Z.shiftl 1 32 - 1)) 0)) 0xFFFFFFFF
  = v mod 2 ^ 32.
Proof.
  rewrite <- (Z.land_ones v 32) by lia.
  change 0xFFFFFFFF with (Z.ones 32).
  apply Z.bits_inj'. intros i Hi.
  rewrite !Z.land_spec, (slice_write_bits old v 32 0 i) by lia.
  rewrite (Z.testbit_ones 32 i) by lia.
  replace (0 <=? i) with true by (symmetry; apply Z.leb_le; lia).
  rewrite Z.add_0_l, Z.sub_0_r. simpl.
  destruct (i <? 32); simpl.
  - reflexivity.
  - rewrite !andb_false_r. reflexivity.
Qed.

End BitSlices.

(* what Registers.set does for a name of the alias tables *)
Lemma Registers_set_spec (rg : Registers) (name p : string) (old v w s : Z) :
  REG_MAP (toLowerCase name) = Own p ->
  REG_BITS (toLowerCase name) = Own w ->
  REG_SHIFT (toLowerCase name) = Own s ->
  _r rg !! p = Some old ->
  exists new,
    Registers_set rg name v = Ok {| _r := <[p := new]> (_r rg) |} /\
    (w = 32 -> new = v mod 2 ^ 32) /\
    (w <> 32 ->
     forall i, 0 <= i ->
       Z.testbit new i =
       if (s <=? i) && (i <? s + w) then Z.testbit v (i - s) else Z.testbit old i).
Proof.
  intros Hp Hw Hs Hold.
  destruct (REG_own_shape _ _ Hp) as (Ht & w' & s' & Hw' & Hs' & Hcases).
  rewrite Hw in Hw'. rewrite Hs in Hs'. injection Hw' as <-. injection Hs' as <-.
  unfold Registers_set. rewrite Hp, Ht, Hs, Hw. unfold slot. rewrite Hold. simpl.
  destruct Hcases as [[-> ->]|[[-> ->]|[[-> ->]|[[-> ->]|[-> ->]]]]]; simpl;
    eexists; (split; [reflexivity|]); (split; [intros Hw32; try discriminate Hw32|]).
  - intros _ i Hi. apply (slice_write_bits old v 64 0 i); lia.
  - apply low32_of_slice.
  - intros Hne. contradiction Hne. reflexivity.
  - intros _ i Hi. apply (slice_write_bits old v 16 0 i); lia.
  - intros _ i Hi. apply (slice_write_bits old v 8 0 i); lia.
  - intros _ i Hi. apply (slice_write_bits old v 8 8 i); lia.
Qed.

(** C1. Registers.set: a write to a 32-bit alias leaves the parent equal to
    the written value modulo 2^32 (the upper 32 bits become 0); a write to a
    16-bit or 8-bit alias (low or high) replaces exactly the bits of the
    alias and leaves every other bit of the parent as it was.  This holds for
    every prior parent value and every written value. *)
Theorem Registers_set_alias (rg : Registers) (name p : string) (old v w s : Z) :
  REG_MAP (toLowerCase name) = Own p ->
  REG_BITS (toLowerCase name) = Own w ->
  REG_SHIFT (toLowerCase name) = Own s ->
  _r rg !! p = Some old ->
  exists new,
    Registers_set rg name v = Ok {| _r := <[p := new]> (_r rg) |} /\
    (w = 32 -> new = v mod 2 ^ 32) /\
    (w = 16 \/ w = 8 ->
     forall i, 0 <= i ->
       Z.testbit new i =
       if (s <=? i) && (i <? s + w) then Z.testbit v (i - s) else Z.testbit old i).
Proof.
  intros Hp Hw Hs Hold.
  destruct (Registers_set_spec rg name p old v w s Hp Hw Hs Hold) as (new & Hset & H32 & Hsub).
  exists new. split; [exact Hset|]. split; [exact H32|].
  intros Hw'. apply Hsub. lia.
Qed.

(* eax := 0x1234567890 and ah := 0x1ab, each over rax = 0xffffffffffffffff *)
Lemma Registers_set_alias_witness :
  (exists new,
     Registers_set rax_all_ones "EAX" 0x1234567890
     = Ok {| _r := <["rax" := new]> (_r rax_all_ones) |} /\
     (32 = 32 -> new = 0x1234567890 mod 2 ^ 32) /\
     (32 = 16 \/ 32 = 8 ->
      forall i, 0 <= i ->
        Z.testbit new i =
        if (0 <=? i) && (i <? 0 + 32) then Z.testbit 0x1234567890 (i - 0)
        else Z.testbit 0xffffffffffffffff i)) /\
  (exists new,
     Registers_set rax_all_ones "ah" 0x1ab
     = Ok {| _r := <["rax" := new]> (_r rax_all_ones) |} /\
     (8 = 32 -> new = 0x1ab mod 2 ^ 32) /\
     (8 = 16 \/ 8 = 8 ->
      forall i, 0 <= i ->
        Z.testbit new i =
        if (8 <=? i) && (i <? 8 + 8) then Z.testbit 0x1ab (i - 8)
        else Z.testbit 0xffffffffffffffff i)).
Proof.
  split.
  - apply (Registers_set_alias rax_all_ones "EAX" "rax" 0xffffffffffffffff 0x1234567890 32 0);
      vm_compute; reflexivity.
  - apply (Registers_set_alias rax_all_ones "ah" "rax" 0xffffffffffffffff 0x1ab 8 8);
      vm_compute; reflexivity.
Defined.

(** ** Memory *)

Section MemoryFacts.

Lemma page_off_lt a : (page_off a < 4096)%nat.
Proof.
  unfold page_off. change 0xFFF with (Z.ones 12). rewrite Z.land_ones by lia.
  pose proof (Z.mod_pos_bound a (2 ^ 12) ltac:(lia)). lia.
Qed.

Lemma page_off_eq a : Z.of_nat (page_off a) = a mod 4096.
Proof.
  unfold page_off. change 0xFFF with (Z.ones 12). rewrite Z.land_ones by lia.
  rewrite Z2Nat.id; [reflexivity|]. apply Z.mod_pos_bound. lia.
Qed.

Lemma page_base_eq a : page_base a = 4096 * (a / 4096).
Proof.
  unfold page_base. change 0xFFF with (Z.ones 12).
  rewrite <- Z.ldiff_land, Z.ldiff_ones_r by lia.
  rewrite Z.shiftl_mul_pow2, Z.shiftr_div_pow2 by lia.
  change (2 ^ 12) with 4096. lia.
Qed.

Lemma page_split a : a = page_base a + Z.of_nat (page_off a).
Proof.
  rewrite page_off_eq, page_base_eq. apply Z.div_mod. lia.
Qed.

Lemma page_addr_inj a b :
  page_base a = page_base b -> page_off a = page_off b -> a = b.
Proof.
  intros Hb Ho. rewrite (page_split a), (page_split b), Hb, Ho. reflexivity.
Qed.

Lemma zero_page_lookup i : (i < 4096)%nat -> Uint8Array_new 4096 !!! i = 0.
Proof. intros Hi. apply list_lookup_total_correct, lookup_replicate_2, Hi. Qed.

Lemma zero_page_length : length (Uint8Array_new 4096) = 4096%nat.
Proof. apply length_replicate. Qed.

Lemma _page_wf m a : Memory_wf m -> Memory_wf (snd (_page m a)).
Proof.
  intros Hwf. unfold _page. destruct (_pages m !! page_base a) eqn:E; simpl; [exact Hwf|].
  unfold Memory_wf. simpl. apply map_Forall_insert_2; [apply zero_page_length|exact Hwf].
Qed.

Lemma _page_length m a : Memory_wf m -> length (fst (_page m a)) = 4096%nat.
Proof.
  intros Hwf. unfold _page. destruct (_pages m !! page_base a) eqn:E; simpl.
  - exact (Hwf _ _ E).
  - apply zero_page_length.
Qed.

Lemma _page_peek m a b : peek (snd (_page m a)) b = peek m b.
Proof.
  unfold _page. destruct (_pages m !! page_base a) eqn:E; simpl; [reflexivity|].
  unfold peek. simpl.
  destruct (decide (page_base a = page_base b)) as [Heq|Hne].
  - rewrite <- Heq, lookup_insert_eq, E. apply zero_page_lookup, page_off_lt.
  - rewrite lookup_insert_ne by exact Hne. reflexivity.
Qed.

Lemma _page_fst m a b :
  page_base a = page_base b -> fst (_page m a) !!! page_off b = peek m b.
Proof.
  intros Heq. unfold _page, peek. rewrite <- Heq.
  destruct (_pages m !! page_base a); simpl; [reflexivity|].
  apply zero_page_lookup, page_off_lt.
Qed.

Lemma r8_peek m a : fst (r8 m a) = peek m a.
Proof.
  unfold r8. pose proof (_page_fst m a a eq_refl) as H.
  destruct (_page m a) as [p m']. exact H.
Qed.

Lemma r8_snd m a : snd (r8 m a) = snd (_page m a).
Proof. unfold r8. destruct (_page m a); reflexivity. Qed.

Lemma w8_wf m a v : Memory_wf m -> Memory_wf (w8 m a v).
Proof.
  intros Hwf. unfold w8.
  pose proof (_page_wf m a Hwf) as H1. pose proof (_page_length m a Hwf) as H2.
  destruct (_page m a) as [p m']. simpl in *.
  unfold Memory_wf. simpl. apply map_Forall_insert_2; [|exact H1].
  rewrite length_insert. exact H2.
Qed.

Lemma w8_peek m a v b :
  Memory_wf m ->
  peek (w8 m a v) b = if a =? b then Z.land v 0xFF else peek m b.
Proof.
  intros Hwf. unfold w8.
  pose proof (_page_peek m a b) as H1. pose proof (_page_length m a Hwf) as H2.
  pose proof (_page_fst m a b) as H3.
  destruct (_page m a) as [p m']. simpl in *.
  unfold peek at 1. simpl.
  destruct (decide (page_base a = page_base b)) as [Heq|Hne].
  - rewrite <- Heq, lookup_insert_eq.
    destruct (decide (page_off a = page_off b)) as [Ho|Ho].
    + rewrite (page_addr_inj a b Heq Ho), Z.eqb_refl.
      apply list_lookup_total_insert_eq. rewrite H2. apply page_off_lt.
    + rewrite list_lookup_total_insert_ne by exact Ho.
      destruct (Z.eqb_spec a b) as [->|_]; [congruence|]. apply H3, Heq.
  - rewrite lookup_insert_ne by exact Hne.
    destruct (Z.eqb_spec a b) as [->|_]; [congruence|]. exact H1.
Qed.

Lemma writeLE_loop_wf k i a v m :
  Memory_wf m -> Memory_wf (writeLE_loop k i a v m).
Proof.
  revert i m. induction k as [|k IH]; intros i m Hwf; simpl; [exact Hwf|].
  apply IH, w8_wf, Hwf.
Qed.

Lemma writeLE_loop_peek k i a v m b :
  Memory_wf m ->
  peek (writeLE_loop k i a v m) b =
  if (a + i <=? b) && (b <? a + i + Z.of_nat k)
  then Z.land (Z.shiftr v ((b - a) * 8)) 0xFF else peek m b.
Proof.
  revert i m. induction k as [|k IH]; intros i m Hwf.
  - simpl. destruct (Z.leb_spec (a + i) b), (Z.ltb_spec b (a + i + Z.of_nat 0)); simpl;
      try reflexivity; lia.
  - cbn [writeLE_loop]. rewrite IH by (apply w8_wf, Hwf). rewrite w8_peek by exact Hwf.
    destruct (Z.eqb_spec (a + i) b) as [<-|Hne].
    + replace (a + i - a) with i by lia.
      rewrite <- Z.land_assoc, Z.land_diag.
      destruct (Z.leb_spec (a + (i + 1)) (a + i)); [lia|]. simpl.
      destruct (Z.leb_spec (a + i) (a + i)); [|lia].
      destruct (Z.ltb_spec (a + i) (a + i + Z.of_nat (S k))); [|lia]. reflexivity.
    + destruct (Z.leb_spec (a + (i + 1)) b), (Z.ltb_spec b (a + (i + 1) + Z.of_nat k)),
        (Z.leb_spec (a + i) b), (Z.ltb_spec b (a + i + Z.of_nat (S k))); simpl;
        try reflexivity; lia.
Qed.

Lemma byte_append v i :
  0 <= i ->
  Z.lor (Z.land v (Z.ones (8 * i))) (Z.shiftl (Z.land (Z.shiftr v (i * 8)) 0xFF) (i * 8))
  = Z.land v (Z.ones (8 * (i + 1))).
Proof.
  intros Hi. change 0xFF with (Z.ones 8).
  apply Z.bits_inj'. intros j Hj.
  rewrite Z.lor_spec, !Z.land_spec, (Z.shiftl_spec _ _ _ Hj), Z.land_spec.
  rewrite !Z.testbit_ones by lia.
  replace (0 <=? j) with true by (symmetry; apply Z.leb_le; lia). simpl.
  destruct (Z.ltb_spec j (8 * i)) as [Hlt|Hge].
  - rewrite (Z.testbit_neg_r _ (j - i * 8)) by lia.
    replace (j <? 8 * (i + 1)) with true by (symmetry; apply Z.ltb_lt; lia).
    simpl. rewrite orb_false_r. reflexivity.
  - rewrite andb_false_r. simpl.
    rewrite Z.shiftr_spec by lia. replace (j - i * 8 + i * 8) with j by lia.
    replace (0 <=? j - i * 8) with true by (symmetry; apply Z.leb_le; lia). simpl.
    destruct (Z.ltb_spec (j - i * 8) 8), (Z.ltb_spec j (8 * (i + 1)));
      try reflexivity; lia.
Qed.

Lemma readLE_loop_spec k i a v acc m :
  Memory_wf m -> 0 <= i ->
  (forall j, i <= j < i + Z.of_nat k ->
     peek m (a + j) = Z.land (Z.shiftr v (j * 8)) 0xFF) ->
  acc = Z.land v (Z.ones (8 * i)) ->
  fst (readLE_loop k i a acc m) = Z.land v (Z.ones (8 * (i + Z.of_nat k))).
Proof.
  revert i acc m. induction k as [|k IH]; intros i acc m Hwf Hi Hbytes Hacc.
  - simpl. rewrite Z.add_0_r. exact Hacc.
  - cbn [readLE_loop].
    pose proof (r8_peek m (a + i)) as Hv. pose proof (r8_snd m (a + i)) as Hm.
    destruct (r8 m (a + i)) as [b m']. simpl in Hv, Hm. subst b m'.
    rewrite (IH (i + 1)).
    + f_equal. f_equal. lia.
    + apply _page_wf, Hwf.
    + lia.
    + intros j Hj. rewrite _page_peek. apply Hbytes. lia.
    + rewrite Hacc, Hbytes by lia. apply byte_append, Hi.
Qed.

Lemma readLE_loop_content k i a acc m b :
  peek (snd (readLE_loop k i a acc m)) b = peek m b.
Proof.
  revert i acc m. induction k as [|k IH]; intros i acc m; [reflexivity|].
  cbn [readLE_loop]. pose proof (r8_snd m (a + i)) as Hm.
  destruct (r8 m (a + i)) as [x m']. simpl in Hm. subst m'.
  rewrite IH. apply _page_peek.
Qed.

Lemma readLE_loop_wf k i a acc m :
  Memory_wf m -> Memory_wf (snd (readLE_loop k i a acc m)).
Proof.
  revert i acc m. induction k as [|k IH]; intros i acc m Hwf; [exact Hwf|].
  cbn [readLE_loop]. pose proof (r8_snd m (a + i)) as Hm.
  destruct (r8 m (a + i)) as [x m']. simpl in Hm. subst m'.
  apply IH, _page_wf, Hwf.
Qed.

Lemma run_op_wf m o : Memory_wf m -> Memory_wf (run_op m o).
Proof.
  intros Hwf. destruct o as [a v n|a n]; simpl.
  - apply writeLE_loop_wf, Hwf.
  - apply readLE_loop_wf, Hwf.
Qed.

Lemma run_ops_untouched ops m b :
  Memory_wf m -> never_written b ops = true ->
  peek (run_ops ops m) b = peek m b.
Proof.
  revert m. induction ops as [|o ops IH]; intros m Hwf Hnw; [reflexivity|].
  simpl in Hnw. apply andb_true_iff in Hnw as [Ho Hrest].
  cbn [run_ops fold_left]. fold (run_ops ops (run_op m o)).
  rewrite IH by (try apply run_op_wf; assumption).
  destruct o as [a v n|a n]; simpl.
  - unfold writeLE. rewrite writeLE_loop_peek by exact Hwf.
    apply orb_true_iff in Ho. rewrite Z.ltb_lt, Z.leb_le in Ho.
    destruct (Z.leb_spec (a + 0) b), (Z.ltb_spec b (a + 0 + Z.of_nat (Z.to_nat n))); simpl;
      try reflexivity; lia.
  - apply readLE_loop_content.
Qed.

End MemoryFacts.

(** C10. Memory is a read-after-write little-endian round trip: after
    writeLE(a, v, n), readLE(a, n) returns v mod 2^(8n), for every address a,
    every value v and every byte count n (1, 2, 4 and 8 among them), across
    page boundaries as well; a byte outside the written range reads as
    before and a read does not change what memory holds; a byte of a page
    that was never touched reads 0, and so does, after any history of reads
    and writes on a new memory, every byte that no write of the history
    covers. *)
Theorem Memory_roundtrip (m : Memory) (a v n : Z) :
  Memory_wf m -> 0 <= n ->
  fst (readLE (writeLE m a v n) a n) = v mod 2 ^ (8 * n) /\
  (forall b, (b <? a) || (a + n <=? b) = true ->
     fst (r8 (writeLE m a v n) b) = fst (r8 m b)) /\
  (forall b, fst (r8 (snd (readLE m a n)) b) = fst (r8 m b)) /\
  (forall b, _pages m !! page_base b = None -> fst (r8 m b) = 0) /\
  (forall ops b, never_written b ops = true -> fst (r8 (run_ops ops Memory_new) b) = 0).
Proof.
  intros Hwf Hn. unfold readLE, writeLE. repeat split.
  - rewrite (readLE_loop_spec (Z.to_nat n) 0 a v 0).
    + rewrite Z.land_ones by lia. f_equal. f_equal. lia.
    + apply writeLE_loop_wf, Hwf.
    + lia.
    + intros j Hj. rewrite writeLE_loop_peek by exact Hwf.
      destruct (Z.leb_spec (a + 0) (a + j)); [|lia].
      destruct (Z.ltb_spec (a + j) (a + 0 + Z.of_nat (Z.to_nat n))); [|lia].
      simpl. f_equal. f_equal. lia.
    + rewrite Z.mul_0_r. symmetry. apply Z.land_0_r.
  - intros b Hb. rewrite !r8_peek, writeLE_loop_peek by exact Hwf.
    apply orb_true_iff in Hb. rewrite Z.ltb_lt, Z.leb_le in Hb.
    destruct (Z.leb_spec (a + 0) b), (Z.ltb_spec b (a + 0 + Z.of_nat (Z.to_nat n))); simpl;
      try reflexivity; lia.
  - intros b. rewrite !r8_peek. apply readLE_loop_content.
  - intros b Hb. rewrite r8_peek. unfold peek. rewrite Hb. reflexivity.
  - intros ops b Hnw. rewrite r8_peek, run_ops_untouched; [reflexivity| |exact Hnw].
    apply map_Forall_empty.
Qed.

(* a write of 0x11223344 over the page boundary at 0x1000 *)
Lemma Memory_roundtrip_witness :
  fst (readLE (writeLE Memory_new 0xFFE 0x11223344 4) 0xFFE 4) = 0x11223344 mod 2 ^ (8 * 4) /\
  (forall b, (b <? 0xFFE) || (0xFFE + 4 <=? b) = true ->
     fst (r8 (writeLE Memory_new 0xFFE 0x11223344 4) b) = fst (r8 Memory_new b)) /\
  (forall b, fst (r8 (snd (readLE Memory_new 0xFFE 4)) b) = fst (r8 Memory_new b)) /\
  (forall b, _pages Memory_new !! page_base b = None -> fst (r8 Memory_new b) = 0) /\
  (forall ops b, never_written b ops = true -> fst (r8 (run_ops ops Memory_new) b) = 0).
Proof.
  apply (Memory_roundtrip Memory_new 0xFFE 0x11223344 4).
  - apply map_Forall_empty.
  - lia.
Defined.

(** ** Stepping *)

(** C2. The stream mov eax,5 @0x401000; add eax,3 @0x401005; ret @0x401008,
    loaded by reset into a simulator of 16, 32 or 64 bits whatever its state
    was before, with 0xdead written as one word at mem[rsp]: three steps
    return ok, the flags after the add are zf=0, sf=0, cf=0, of=0, pf=0, and
    at the end eax=8, rip=0xdead and rsp is its initial value 0x7fff0000 plus
    one word. *)
Theorem end_to_end_scenario (s : X86Sim) :
  bits s = 16 \/ bits s = 32 \/ bits s = 64 ->
  fst (run_scenario (scenario_stream (bits s)) s) =
  Ok {| rsp0 := 0x7fff0000;
        results := map ok (scenario_stream (bits s));
        flags_after_add := {| cf := false; zf := false; sf := false; of_ := false;
                              pf := false; af := false |};
        final_eax := 8;
        final_rip := 0xdead;
        final_rsp := 0x7fff0000 + bits s / 8 |}.
Proof.
  destruct s as [b rg m f bp mp l ms]. simpl.
  intros [->|[->| ->]]; vm_compute; reflexivity.
Qed.

Lemma end_to_end_scenario_witness :
  fst (run_scenario (scenario_stream (bits (X86Sim_new 64))) (X86Sim_new 64)) =
  Ok {| rsp0 := 0x7fff0000;
        results := map ok (scenario_stream (bits (X86Sim_new 64)));
        flags_after_add := {| cf := false; zf := false; sf := false; of_ := false;
                              pf := false; af := false |};
        final_eax := 8;
        final_rip := 0xdead;
        final_rsp := 0x7fff0000 + bits (X86Sim_new 64) / 8 |}.
Proof.
  apply (end_to_end_scenario (X86Sim_new 64)). right. right. reflexivity.
Defined.

Section StepFacts.

Lemma rip_entry :
  REG_MAP (toLowerCase "rip") = Own "rip" /\
  REG_BITS (toLowerCase "rip") = Own 64 /\
  REG_SHIFT (toLowerCase "rip") = Own 0.
Proof. vm_compute. auto. Qed.


Lemma Registers_set_rip rg old v :
  _r rg !! "rip" = Some old ->
  exists new, Registers_set rg "rip" v = Ok {| _r := <["rip" := new]> (_r rg) |}.
Proof.
  intros Hold. destruct rip_entry as (Hm & Hb & Hs).
  destruct (Registers_set_spec rg "rip" "rip" old v 64 0 Hm Hb Hs Hold) as (new & H & _).
  eauto.
Qed.




End StepFacts.




(** ** Run loop *)

Section RunLoop.
Import App.

(* the debugger over loop_stream, started by dbgRun: one tick makes its
   hundred steps, ends in setTimeout and leaves the state as it was *)
Lemma loop_tick :
  match setup 32 loop_stream with
  | Some st =>
      tick (with_running st true) = (100%nat, Rescheduled, with_running st true) /\
      simRunning st = false /\
      (_maxSteps <$> sim st) = Some 50000 /\
      (bpAddrs st = ∅ /\ is_Some (sim st))
  | None => False
  end.
Proof. vm_compute. repeat split; eauto. Qed.

Lemma ticks_fixed st timers n :
  tick st = (100%nat, Rescheduled, st) ->
  ticks timers n st = ((n + 100 * S timers)%nat, Rescheduled, st).
Proof.
  intros Ht. revert n. induction timers as [|t IH]; intros n.
  - cbn [ticks]. rewrite Ht. f_equal; f_equal; lia.
  - cbn [ticks]. rewrite Ht, IH. f_equal; f_equal; lia.
Qed.

End RunLoop.

(** C3 (what the code does). The run loop has no cap on the number of steps:
    over the one-instruction loop jmp 401000h, with no breakpoint set, no
    error and no stop, a session that the host keeps scheduling executes a
    hundred steps per tick without end; after 500 timer firings it has made
    50100 calls of step(), more than the 50000 of _maxSteps, and the next
    tick is scheduled. *)
Theorem dbgRun_ignores_maxSteps :
  exists st,
    App.setup 32 loop_stream = Some st /\
    App.bpAddrs st = ∅ /\
    (_maxSteps <$> App.sim st) = Some 50000 /\
    (forall timers,
       exists st', App.dbgRun timers st = ((100 * S timers)%nat, App.Rescheduled, st')) /\
    (exists st', App.dbgRun 500 st = ((100 * 501)%nat, App.Rescheduled, st') /\
                 50000 < Z.of_nat (100 * 501)).
Proof.
  pose proof loop_tick as H.
  destruct (App.setup 32 loop_stream) as [st|]; [|contradiction].
  destruct H as (Htick & Hrun & Hmax & Hbp & Hsim).
  assert (Hall : forall timers,
             App.dbgRun timers st =
             ((100 * S timers)%nat, App.Rescheduled, App.with_running st true)).
  { intros timers. unfold App.dbgRun. destruct Hsim as [x Hx]. rewrite Hx, Hrun.
    apply (ticks_fixed _ timers 0 Htick). }
  exists st. repeat split; try assumption.
  - intros timers. eexists. apply Hall.
  - eexists. rewrite Hall. split; [reflexivity|lia].
Qed.

(** ** PE parser *)

Section PEFacts.

Lemma toInt32_small x : 0 <= x < 2 ^ 31 -> toInt32 x = x.
Proof.
  intros Hx. unfold toInt32. rewrite Z.mod_small by lia.
  destruct (Z.ltb_spec x (2 ^ 31)); [reflexivity|lia].
Qed.

Lemma toInt32_low_bits x i : 0 <= i < 32 -> Z.testbit (toInt32 x) i = Z.testbit x i.
Proof.
  intros Hi. unfold toInt32.
  destruct (x mod 2 ^ 32 <? 2 ^ 31).
  - apply Z.mod_pow2_bits_low. lia.
  - rewrite <- (Z.mod_pow2_bits_low (x mod 2 ^ 32 - 2 ^ 32) 32 i) by lia.
    rewrite <- (Z.mod_pow2_bits_low x 32 i) by lia. f_equal.
    rewrite <- Zminus_mod_idemp_r, Z.mod_same by lia.
    rewrite Z.sub_0_r, Z.mod_mod by lia. reflexivity.
Qed.

(* for a mask below 2^30 the 32-bit & of Numbers is the & of the integers *)
Lemma and32_mask f m : 0 <= m < 2 ^ 30 -> and32 f m = Z.land f m.
Proof.
  intros Hm. unfold and32. rewrite (toInt32_small m) by lia.
  assert (Hm30 : Z.land m (Z.ones 30) = m)
    by (rewrite Z.land_ones by lia; apply Z.mod_small; lia).
  assert (Heq : Z.land (toInt32 f) m = Z.land f m).
  { rewrite <- Hm30, !Z.land_assoc. apply Z.bits_inj'. intros i Hi.
    rewrite !Z.land_spec, Z.testbit_ones by lia.
    destruct (Z.ltb_spec i 30).
    - rewrite toInt32_low_bits by lia. reflexivity.
    - rewrite !andb_false_r. reflexivity. }
  rewrite Heq. apply toInt32_small.
  rewrite <- Hm30, Z.land_assoc, Z.land_ones by lia.
  pose proof (Z.mod_pos_bound (Z.land f m) (2 ^ 30) ltac:(lia)). lia.
Qed.

Lemma read_section_isCode b base i s :
  PE.read_section b base i = Some (Ok s) -> code_or_exec s.
Proof.
  unfold PE.read_section.
  destruct (blen b <? base + i * 40 + 40); [discriminate|].
  intros H. injection H as H.
  repeat match type of H with
         | rbind ?x _ = Ok _ => destruct x; [cbn [rbind] in H|discriminate]
         end.
  injection H as <-. unfold code_or_exec. cbn [isCode sflags].
  rewrite and32_mask by lia. rewrite negb_true_iff, Z.eqb_neq. reflexivity.
Qed.

Lemma section_loop_isCode k b base i acc r :
  Forall code_or_exec acc ->
  PE.section_loop k b base i acc = Ok r -> Forall code_or_exec r.
Proof.
  revert i acc. induction k as [|k IH]; intros i acc Hacc H; cbn [PE.section_loop] in H.
  - injection H as <-. exact Hacc.
  - destruct (PE.read_section b base i) as [[s|e]|] eqn:E.
    + cbn [rbind] in H. apply (IH (i + 1) (acc ++ [s])%list); [|exact H].
      apply Forall_app. split; [exact Hacc|].
      apply Forall_cons. split; [|apply Forall_nil_2].
      apply (read_section_isCode _ _ _ _ E).
    + discriminate.
    + injection H as <-. exact Hacc.
Qed.

End PEFacts.

(** C5 (as the code has it). In every section entry that the PE parser
    produces, isCode is true if and only if flags & 0x20000020 is not zero:
    at least one of IMAGE_SCN_CNT_CODE (0x20) and IMAGE_SCN_MEM_EXECUTE
    (0x20000000) is set. *)
Theorem parsePE_isCode (b : buffer) (p : Parsed) :
  PE.parsePE b = Ok p ->
  Forall (fun s => isCode s = true <-> Z.land (sflags s) 0x20000020 <> 0) (sections p).
Proof.
  unfold PE.parsePE. intros H.
  repeat match type of H with
         | (if ?c then Throw _ else _) = Ok _ => destruct c; [discriminate|]
         | rbind ?x _ = Ok _ => destruct x eqn:?; [cbn [rbind] in H|discriminate]
         end.
  injection H as <-. cbn [sections].
  eapply section_loop_isCode; [apply Forall_nil_2|eassumption].
Qed.

Lemma parsePE_isCode_witness :
  Forall (fun s => isCode s = true <-> Z.land (sflags s) 0x20000020 <> 0)
    (sections pe_text_parsed).
Proof.
  apply (parsePE_isCode (pe_image 0x60000020) pe_text_parsed).
  vm_compute. reflexivity.
Defined.

(* C5 as stated fails: a section whose flags are 0x20 (CNT_CODE without
   MEM_EXECUTE) is reported as code, although flags & 0x20000020 is 0x20. *)
Lemma parsePE_isCode_counterexample :
  match PE.parsePE (pe_image 0x20) with
  | Ok p => map (fun s => (name s, sflags s, isCode s)) (sections p) = [(".text", 0x20, true)]
  | Throw _ => False
  end /\
  Z.land 0x20 0x20000020 <> 0x20000020.
Proof. vm_compute. split; [reflexivity|discriminate]. Qed.

(** ** Byte signatures *)

Section SignatureFacts.
Import Signatures.

(* the scan does not depend on the fuel once there is enough of it: for a
   pattern that is not empty (as all of BYTE_SIGS are) every pass advances i
   by at least one *)
Lemma scan_fuel codeBuffer baseVA pad limit sig f1 f2 i :
  (0 < length (sig_bytes sig))%nat ->
  (Z.to_nat (limit - i) <= f1)%nat -> (Z.to_nat (limit - i) <= f2)%nat ->
  scan f1 codeBuffer baseVA pad limit sig i = scan f2 codeBuffer baseVA pad limit sig i.
Proof.
  intros Hn. revert f2 i. induction f1 as [|f1 IH]; intros f2 i H1 H2.
  - destruct f2 as [|f2]; [reflexivity|]. cbn [scan].
    destruct (Z.ltb_spec i (limit - Z.of_nat (length (sig_bytes sig)))); [lia|reflexivity].
  - destruct f2 as [|f2]; cbn [scan];
      destruct (Z.ltb_spec i (limit - Z.of_nat (length (sig_bytes sig)))) as [Hlt|Hge];
      try reflexivity; try lia.
    destruct (match_at codeBuffer i (sig_bytes sig) 0).
    + f_equal. apply IH; lia.
    + apply IH; lia.
Qed.

End SignatureFacts.

(** C6 (what the code does). On the buffer F3 AA 90 F3 AB with base
    0x400000 and bits 32 the scanner reports one hit only, rep stosb at
    0x00400000: the loop runs while i < limit - 2, so the pair F3 AB that
    ends at the last byte of the scanned region is never looked at.  With
    one more byte after it the same pair is found at 0x00400003. *)
Theorem matchByteSignatures_skips_last :
  Signatures.matchByteSignatures sig_buffer 0x400000 32 =
    [ {| Signatures.hit_address := "0x00400000"; Signatures.hit_name := "rep stosb";
         Signatures.hit_note := "byte memset" |} ] /\
  Signatures.matchByteSignatures (sig_buffer ++ [u8 0])%list 0x400000 32 =
    [ {| Signatures.hit_address := "0x00400000"; Signatures.hit_name := "rep stosb";
         Signatures.hit_note := "byte memset" |};
      {| Signatures.hit_address := "0x00400003"; Signatures.hit_name := "rep stosd";
         Signatures.hit_note := "dword memset" |} ].
Proof. vm_compute. split; reflexivity. Qed.

(** ** Cross references *)

Section XrefFacts.

Lemma length_append (s1 s2 : string) :
  String.length (s1 +:+ s2) = (String.length s1 + String.length s2)%nat.
Proof. induction s1 as [|c s1 IH]; simpl; [reflexivity|]. rewrite IH. reflexivity. Qed.

Lemma length_repeat_char c n : String.length (repeat_char c n) = n.
Proof. induction n as [|n IH]; simpl; [reflexivity|]. rewrite IH. reflexivity. Qed.

Lemma length_padStart n c s : (n <= String.length (padStart n c s))%nat.
Proof. unfold padStart. rewrite length_append, length_repeat_char. lia. Qed.

End XrefFacts.

(** C7. For the list call 401000h @0x100, jne 0x401010 @0x105, jmp rax
    @0x10a with bits = 32 the xref builder returns exactly the map with
    0x00401000 -> [from 0x00000100, call] and 0x00401010 -> [from
    0x00000105, jcc]; the indirect jmp rax has no target and no entry; and
    with bits = 32 every resolved target is 0x followed by at least 8 = 32/4
    digits, here the hex value padded with zeros. *)
Theorem buildXrefs_example :
  Xref.buildXrefs xref_stream 32 =
    {[ "0x00401000" := [ {| Xref.from := "0x00000100"; Xref.xtype := Xref.call |} ];
       "0x00401010" := [ {| Xref.from := "0x00000105"; Xref.xtype := Xref.jcc |} ] ]} /\
  Xref.parseTarget "rax" 32 = None /\
  Xref.parseTarget "401000h" 32 = Some "0x00401000" /\
  Xref.parseTarget "0x401010" 32 = Some "0x00401010" /\
  (forall ops,
     match Xref.parseTarget ops 32 with
     | Some t => exists d, t = "0x" +:+ d /\ (8 <= String.length d)%nat
     | None => True
     end).
Proof.
  split; [vm_compute; reflexivity|].
  split; [vm_compute; reflexivity|].
  split; [vm_compute; reflexivity|].
  split; [vm_compute; reflexivity|].
  intros ops. unfold Xref.parseTarget.
  destruct (String.eqb ops ""); [exact I|].
  change (32 =? 64) with false. cbv iota.
  destruct (Xref.match_hexH ops) as [h|].
  - eexists. split; [reflexivity|]. apply length_padStart.
  - destruct (Xref.match_0x ops) as [h|]; [|exact I].
    eexists. split; [reflexivity|]. apply length_padStart.
Qed.

(** ** Control-flow graph *)

(** C8 (what the code does). The CFG builder's JCC_ALL lacks loop, loope,
    loopne and the aliases jc, jnae, jnb, jnc, jna, jnbe, jnge, jnl, jng,
    jnle, jpe, jpo, all of which the xref analyzer's JCC_SET has.  Over
    loop 10h @0x0; nop @0x2; ret @0x10 (and the same with jc) neither the
    instruction after the branch nor its target 0x10 begins a block: the
    whole stream is one block without successors.  Under the mnemonic jb the
    same stream is cut into three blocks. *)
Theorem buildCFG_misses_loop :
  forallb (fun m => Xref.has Xref.JCC_SET m && negb (Graph.has Graph.JCC_ALL m))
    ["jnae";"jc";"jnb";"jnc";"jna";"jnbe";"jnge";"jnl";"jng";"jnle";"jpe";"jpo";
     "loop";"loope";"loopne"] = true /\
  Graph.parseTarget "10h" 32 = Some "0x00000010" /\
  map (fun b => (Graph.id b, map address (Graph.insts b), Graph.succs b))
      (Graph.blocks (Graph.buildCFG (branch_stream "loop") 32)) =
    [ ("0x00000000", ["0x00000000"; "0x00000002"; "0x00000010"], []) ] /\
  map (fun b => (Graph.id b, map address (Graph.insts b), Graph.succs b))
      (Graph.blocks (Graph.buildCFG (branch_stream "jc") 32)) =
    [ ("0x00000000", ["0x00000000"; "0x00000002"; "0x00000010"], []) ] /\
  map (fun b => (Graph.id b, map address (Graph.insts b), Graph.succs b))
      (Graph.blocks (Graph.buildCFG (branch_stream "jb") 32)) =
    [ ("0x00000000", ["0x00000000"],
       [ {| Graph.to := "0x00000002"; Graph.etype := Graph.fall |};
         {| Graph.to := "0x00000010"; Graph.etype := Graph.jump |} ]);
      ("0x00000002", ["0x00000002"],
       [ {| Graph.to := "0x00000010"; Graph.etype := Graph.fall |} ]);
      ("0x00000010", ["0x00000010"], []) ].
Proof. vm_compute. repeat split; reflexivity. Qed.

(** ** Pipeline *)

(** C9. Whenever the disassembly of a report is the hex-dump fallback
    (disasm.fallback = true), analysis.xrefs and analysis.funcLabels are both
    empty: neither analysis is run over the hex rows. *)
Theorem analyzeFile_fallback_skips (icedX86 : Disassembler.iced) (b : buffer)
    (originalName : string) (fileSize : Z) (r : Analyzer.report) :
  Analyzer.analyzeFile icedX86 b originalName fileSize = Ok r ->
  Analyzer.fallback (Analyzer.disasm r) = true ->
  Analyzer.xrefs (Analyzer.analysis r) = ∅ /\
  Analyzer.funcLabels (Analyzer.analysis r) = ∅.
Proof.
  unfold Analyzer.analyzeFile. intros H Hfb.
  match type of H with rbind ?x _ = _ => destruct x as [parsed|e]; [|discriminate] end.
  cbn [rbind] in H.
  match type of H with
  | context [match ?t with (_, _) => _ end] => destruct t as [[[instructions fb] sec] base]
  end.
  injection H as <-. cbn in Hfb. subst fb. cbn. split; reflexivity.
Qed.

Lemma analyzeFile_fallback_skips_witness :
  Analyzer.xrefs (Analyzer.analysis raw_report) = ∅ /\
  Analyzer.funcLabels (Analyzer.analysis raw_report) = ∅.
Proof.
  apply (analyzeFile_fallback_skips Disassembler.Unavailable raw_file "a.bin" 4 raw_report).
  - vm_compute. reflexivity.
  - vm_compute. reflexivity.
Defined.

(** * Further properties *)

Import SimAux AnalysisAux.

(** ** Registers and flags *)

Section RegisterRoundTrip.

Lemma Registers_get_own rg name p w s x :
  REG_MAP (toLowerCase name) = Own p ->
  REG_BITS (toLowerCase name) = Own w ->
  REG_SHIFT (toLowerCase name) = Own s ->
  _r rg !! p = Some x ->
  Registers_get rg name = Ok (Z.land (Z.shiftr x s) (Z.ones w)).
Proof.
  intros Hp Hw Hs Hx.
  destruct (REG_own_shape _ _ Hp) as (Ht & w' & s' & Hw' & Hs' & Hc).
  rewrite Hw in Hw'. rewrite Hs in Hs'. injection Hw' as <-. injection Hs' as <-.
  unfold Registers_get. cbv zeta. rewrite Hp, Ht, Hs, Hw. unfold slot. rewrite Hx.
  destruct Hc as [[-> ->]|[[-> ->]|[[-> ->]|[[-> ->]|[-> ->]]]]]; reflexivity.
Qed.

Lemma slice_read_bits x w s i :
  0 <= w -> 0 <= s -> 0 <= i ->
  Z.testbit (Z.land (Z.shiftr x s) (Z.ones w)) i = Z.testbit x (i + s) && (i <? w).
Proof.
  intros Hw Hs Hi. rewrite Z.land_spec, Z.shiftr_spec, Z.testbit_ones by lia.
  replace (0 <=? i) with true by (symmetry; apply Z.leb_le; lia). reflexivity.
Qed.

End RegisterRoundTrip.

(** X1. A register read after a write returns the written value truncated to
    the register's width, v mod 2^w, for every name of the register tables,
    the sub-registers among them; the write changes no slot but the one of
    the parent register. *)
Theorem Registers_get_after_set (rg : Registers) (name p : string) (old v w : Z) :
  REG_MAP (toLowerCase name) = Own p ->
  REG_BITS (toLowerCase name) = Own w ->
  _r rg !! p = Some old ->
  exists rg',
    Registers_set rg name v = Ok rg' /\
    Registers_get rg' name = Ok (v mod 2 ^ w) /\
    (forall q, q <> p -> _r rg' !! q = _r rg !! q).
Proof.
  intros Hp Hw Hold.
  destruct (REG_own_shape _ _ Hp) as (Ht & w' & s & Hw' & Hs & Hc).
  rewrite Hw in Hw'. injection Hw' as <-.
  destruct (Registers_set_spec rg name p old v w s Hp Hw Hs Hold) as (new & Hset & H32 & Hbits).
  eexists. split; [exact Hset|]. split.
  - rewrite (Registers_get_own _ name p w s new Hp Hw Hs) by (simpl; apply lookup_insert_eq).
    f_equal. rewrite <- Z.land_ones by lia.
    apply Z.bits_inj'. intros i Hi.
    rewrite slice_read_bits by lia. rewrite Z.land_spec, Z.testbit_ones by lia.
    replace (0 <=? i) with true by (symmetry; apply Z.leb_le; lia).
    destruct (Z.eq_dec w 32) as [->|Hne].
    + rewrite (H32 eq_refl). assert (s = 0) as -> by lia.
      rewrite Z.add_0_r, <- Z.land_ones, Z.land_spec, Z.testbit_ones by lia.
      replace (0 <=? i) with true by (symmetry; apply Z.leb_le; lia).
      simpl. destruct (i <? 32); rewrite ?andb_true_r, ?andb_false_r; reflexivity.
    + rewrite (Hbits Hne) by lia.
      destruct (Z.ltb_spec i w).
      * replace ((s <=? i + s) && (i + s <? s + w)) with true
          by (symmetry; apply andb_true_iff; split; [apply Z.leb_le|apply Z.ltb_lt]; lia).
        replace (i + s - s) with i by lia. simpl. rewrite !andb_true_r. reflexivity.
      * rewrite !andb_false_r. reflexivity.
  - intros q Hq. simpl. apply lookup_insert_ne. congruence.
Qed.

Lemma Registers_get_after_set_witness :
  exists rg',
    Registers_set rax_all_ones "ah" 0x1234 = Ok rg' /\
    Registers_get rg' "ah" = Ok (0x1234 mod 2 ^ 8) /\
    (forall q, q <> "rax" -> _r rg' !! q = _r rax_all_ones !! q).
Proof.
  apply (Registers_get_after_set rax_all_ones "ah" "rax" 0xffffffffffffffff 0x1234 8);
    vm_compute; reflexivity.
Defined.

Section RegisterRange.

Lemma high_bits_clear x :
  (forall i, 64 <= i -> Z.testbit x i = false) -> 0 <= x < 2 ^ 64.
Proof.
  intros H. assert (Hx : x = x mod 2 ^ 64).
  { apply Z.bits_inj'. intros i Hi. destruct (Z.ltb_spec i 64).
    - rewrite Z.mod_pow2_bits_low by lia. reflexivity.
    - rewrite Z.mod_pow2_bits_high by lia. apply H. lia. }
  rewrite Hx. apply Z.mod_pos_bound. lia.
Qed.

Lemma bounded_high_bits x i : 0 <= x < 2 ^ 64 -> 64 <= i -> Z.testbit x i = false.
Proof.
  intros Hx Hi. rewrite <- (Z.mod_small x (2 ^ 64)) by lia.
  apply Z.mod_pow2_bits_high. lia.
Qed.

Lemma Registers_set_cases rg name v rg' :
  Registers_set rg name v = Ok rg' ->
  rg' = rg \/
  exists p old w s new,
    REG_MAP (toLowerCase name) = Own p /\ REG_BITS (toLowerCase name) = Own w /\
    REG_SHIFT (toLowerCase name) = Own s /\ _r rg !! p = Some old /\
    rg' = {| _r := <[p := new]> (_r rg) |} /\
    (w = 32 -> new = v mod 2 ^ 32) /\
    (w <> 32 -> forall i, 0 <= i ->
       Z.testbit new i =
       if (s <=? i) && (i <? s + w) then Z.testbit v (i - s) else Z.testbit old i) /\
    s + w <= 64 /\ 0 < w.
Proof.
  intros H. destruct (REG_MAP (toLowerCase name)) as [p| |] eqn:Hp.
  - destruct (REG_own_shape _ _ Hp) as (Ht & w & s & Hw & Hs & Hc).
    destruct (_r rg !! p) as [old|] eqn:Hold.
    + destruct (Registers_set_spec rg name p old v w s Hp Hw Hs Hold) as (new & Hset & H32 & Hb).
      right. exists p, old, w, s, new. rewrite Hset in H. injection H as <-.
      repeat split; try assumption; lia.
    + unfold Registers_set in H. cbv zeta in H. rewrite Hp, Ht, Hs, Hw in H.
      unfold slot in H. rewrite Hold in H.
      destruct Hc as [[-> ->]|[[-> ->]|[[-> ->]|[[-> ->]|[-> ->]]]]]; discriminate H.
  - unfold Registers_set in H. cbv zeta in H. rewrite Hp in H. cbn [truthy_name negb] in H.
    unfold REG_MAP, REG_SHIFT, obj_get in *.
    destruct (t_map REG !! toLowerCase name) eqn:E1; [discriminate|].
    destruct (inherited (toLowerCase name)) eqn:Ei; [|discriminate].
    assert (Hsh : t_shift REG !! toLowerCase name = None).
    { unfold inherited in Ei. apply orb_true_iff in Ei as [Ei|Ei];
        apply String.eqb_eq in Ei; rewrite Ei; vm_compute; reflexivity. }
    rewrite Hsh in H. discriminate H.
  - unfold Registers_set in H. cbv zeta in H. rewrite Hp in H. left.
    cbn in H. congruence.
Qed.

End RegisterRange.

Lemma Registers_set_range (rg rg' : Registers) (name : string) (v : Z) :
  regs_bounded rg ->
  Registers_set rg name v = Ok rg' ->
  regs_bounded rg' /\ dom (_r rg') = dom (_r rg).
Proof.
  intros Hb H. destruct (Registers_set_cases _ _ _ _ H) as [->|Hc]; [split; [exact Hb|reflexivity]|].
  destruct Hc as (p & old & w & s & new & Hp & Hw & Hs & Hold & -> & H32 & Hbits & Hsw & Hw0).
  split.
  - apply map_Forall_insert_2; [|exact Hb].
    destruct (Z.eq_dec w 32) as [->|Hne].
    + rewrite (H32 eq_refl). pose proof (Z.mod_pos_bound v (2 ^ 32) ltac:(lia)). lia.
    + apply high_bits_clear. intros i Hi. rewrite (Hbits Hne) by lia.
      destruct (REG_own_shape _ _ Hp) as (_ & w' & s' & Hw' & Hs' & Hc).
      rewrite Hw in Hw'. rewrite Hs in Hs'. injection Hw' as <-. injection Hs' as <-.
      replace ((s <=? i) && (i <? s + w)) with false
        by (symmetry; apply andb_false_iff; right; apply Z.ltb_ge; lia).
      apply bounded_high_bits; [exact (Hb _ _ Hold)|exact Hi].
  - simpl. rewrite dom_insert_L. apply elem_of_dom_2 in Hold.
    apply subseteq_union_1_L, singleton_subseteq_l, Hold.
Qed.

(** X2. Registers.set keeps every slot a 64-bit value, whatever value is
    written under whatever name, and adds or removes no slot. *)
Theorem Registers_set_keeps_range (rg rg' : Registers) (name : string) (v : Z) :
  regs_bounded rg ->
  Registers_set rg name v = Ok rg' ->
  regs_bounded rg' /\ dom (_r rg') = dom (_r rg).
Proof. intros Hb H. exact (Registers_set_range rg rg' name v Hb H). Qed.

Lemma Registers_set_keeps_range_witness :
  match Registers_set Registers_new "eax" (-1) with
  | Ok rg' => regs_bounded rg' /\ dom (_r rg') = dom (_r Registers_new)
  | Throw _ => False
  end.
Proof.
  destruct (Registers_set Registers_new "eax" (-1)) as [rg'|e] eqn:E;
    [|vm_compute in E; discriminate].
  apply (Registers_set_keeps_range Registers_new rg' "eax" (-1)); [|exact E].
  refine (bool_decide_unpack _ _). vm_compute. reflexivity.
Defined.

Section FlagFacts.

Lemma parity_low n : parity n = parity (n mod 256).
Proof.
  unfold parity. change 0xFF with (Z.ones 8). rewrite !Z.land_ones by lia.
  change (2 ^ 8) with 256. rewrite Z.mod_mod by lia. reflexivity.
Qed.

Lemma popcount8_low n : popcount8 n = popcount8 (n mod 256).
Proof.
  unfold popcount8. f_equal. apply List.filter_ext_in. intros i Hi. symmetry.
  change 256 with (2 ^ 8). rewrite Z.mod_pow2_bits_low; [reflexivity|].
  simpl in Hi. lia.
Qed.

Lemma parity_table :
  forallb (fun k => Bool.eqb (parity k) (Nat.even (popcount8 k)))
    (map Z.of_nat (seq 0 256)) = true.
Proof. vm_compute. reflexivity. Qed.

End FlagFacts.

Lemma parity_popcount (n : Z) : parity n = Nat.even (popcount8 n).
Proof.
  rewrite parity_low, popcount8_low.
  pose proof (Z.mod_pos_bound n 256 ltac:(lia)) as Hr.
  pose proof parity_table as Ht. rewrite forallb_forall in Ht.
  apply Bool.eqb_prop, Ht, in_map_iff. exists (Z.to_nat (n mod 256)).
  split; [lia|]. apply in_seq. lia.
Qed.

(** X3. The xor-folding of Flags.parity computes the parity flag of x86: it
    is true exactly when the low byte of the value has an even number of set
    bits. *)
Theorem parity_even_popcount (n : Z) : parity n = Nat.even (popcount8 n).
Proof. exact (parity_popcount n). Qed.

Section ArithFlags.

Lemma top_bit x k : 0 <= k -> 0 <= x < 2 ^ (k + 1) -> Z.testbit x k = (2 ^ k <=? x).
Proof.
  intros Hk Hx. rewrite Z.pow_add_r, Z.pow_1_r in Hx by lia.
  assert (Hp : 0 < 2 ^ k) by (apply Z.pow_pos_nonneg; lia).
  destruct (Z.leb_spec (2 ^ k) x) as [Hle|Hlt].
  - apply Z.testbit_true; [lia|].
    assert (1 = x / 2 ^ k) as <-; [|reflexivity].
    apply Z.div_unique with (r := x - 2 ^ k); lia.
  - apply not_true_is_false. intros Ht. apply Z.testbit_true in Ht; [|lia].
    rewrite Z.div_small in Ht by lia. discriminate.
Qed.

Lemma sign_test bits x :
  0 < bits -> 0 <= x < 2 ^ bits ->
  nz (Z.land x (Z.shiftl 1 (bits - 1))) = (2 ^ (bits - 1) <=? x).
Proof.
  intros Hb Hx. rewrite Z.shiftl_1_l.
  rewrite <- (top_bit x (bits - 1)) by (replace (bits - 1 + 1) with bits by lia; lia).
  unfold nz. destruct (Z.testbit x (bits - 1)) eqn:Et.
  - apply negb_true_iff, Z.eqb_neq. intros H0.
    assert (Hbit : Z.testbit (Z.land x (2 ^ (bits - 1))) (bits - 1) = true)
      by (rewrite Z.land_spec, Et, Z.pow2_bits_true by lia; reflexivity).
    rewrite H0, Z.bits_0 in Hbit. discriminate.
  - apply negb_false_iff, Z.eqb_eq. apply Z.bits_inj'. intros i Hi.
    rewrite Z.land_spec, Z.bits_0, Z.pow2_bits_eqb by lia.
    destruct (Z.eqb_spec (bits - 1) i) as [<-|_]; [rewrite Et|rewrite andb_false_r]; reflexivity.
Qed.

Lemma pow_half bits : 0 < bits -> 2 ^ bits = 2 * 2 ^ (bits - 1).
Proof. intros H. rewrite <- Z.pow_succ_r by lia. f_equal. lia. Qed.

End ArithFlags.

(** X4. The flags of an addition of two w-bit values: cf is the carry out of
    the top bit, zf says that the truncated sum is 0, sf is its top bit, of
    says that the sum of the operands read as two's complement numbers leaves
    the signed range, pf is the parity of its low byte, and af stays as it
    was. *)
Theorem setArith_add_flags (f : Flags) (a b bits : Z) :
  0 < bits -> 0 <= a < 2 ^ bits -> 0 <= b < 2 ^ bits ->
  let f' := setArith f (a + b) a b bits false in
  cf f' = (2 ^ bits <=? a + b) /\
  zf f' = ((a + b) mod 2 ^ bits =? 0) /\
  sf f' = (2 ^ (bits - 1) <=? (a + b) mod 2 ^ bits) /\
  of_ f' = negb ((- 2 ^ (bits - 1) <=? signed bits a + signed bits b) &&
                 (signed bits a + signed bits b <? 2 ^ (bits - 1))) /\
  pf f' = Nat.even (popcount8 ((a + b) mod 2 ^ bits)) /\
  af f' = af f.
Proof.
  intros Hb Ha Hbb. cbv zeta. unfold setArith. cbn [cf zf sf of_ pf af]. unfold asUintN.
  pose proof (pow_half bits Hb) as Hh.
  assert (Hp : 0 < 2 ^ (bits - 1)) by (apply Z.pow_pos_nonneg; lia).
  pose proof (Z.mod_pos_bound (a + b) (2 ^ bits) ltac:(lia)) as Hr.
  rewrite !sign_test by lia. rewrite Z.shiftl_1_l.
  repeat split.
  - destruct (Z.ltb_spec (2 ^ bits - 1) (a + b)), (Z.ltb_spec (a + b) 0),
      (Z.leb_spec (2 ^ bits) (a + b)); simpl; try reflexivity; lia.
  - unfold signed.
    assert (Hmod : (a + b) mod 2 ^ bits = a + b \/ (a + b) mod 2 ^ bits = a + b - 2 ^ bits).
    { destruct (Z.lt_ge_cases (a + b) (2 ^ bits)).
      - left. apply Z.mod_small. lia.
      - right. symmetry. apply Z.mod_unique with (q := 1); lia. }
    destruct (Z.leb_spec (2 ^ (bits - 1)) a), (Z.leb_spec (2 ^ (bits - 1)) b),
      (Z.leb_spec (2 ^ (bits - 1)) ((a + b) mod 2 ^ bits)); simpl;
      match goal with
      | |- _ = negb ((?x <=? ?y) && (?u <? ?w)) =>
          destruct (Z.leb_spec x y), (Z.ltb_spec u w); simpl; try reflexivity; lia
      end.
  - apply parity_popcount.
Qed.

Lemma setArith_add_flags_witness :
  cf (setArith Flags_new (200 + 100) 200 100 8 false) = true /\
  of_ (setArith Flags_new (100 + 100) 100 100 8 false) = true.
Proof.
  destruct (setArith_add_flags Flags_new 200 100 8) as (Hc & _); [lia|lia|lia|].
  destruct (setArith_add_flags Flags_new 100 100 8) as (_ & _ & _ & Ho & _); [lia|lia|lia|].
  cbv zeta in Hc, Ho. rewrite Hc, Ho. split; reflexivity.
Defined.

Lemma setArith_sub_spec (f : Flags) (a b bits : Z) :
  0 < bits -> 0 <= a < 2 ^ bits -> 0 <= b < 2 ^ bits ->
  let f' := setArith f (a - b) a b bits true in
  cf f' = (a <? b) /\
  zf f' = (a =? b) /\
  sf f' = (2 ^ (bits - 1) <=? (a - b) mod 2 ^ bits) /\
  of_ f' = negb ((- 2 ^ (bits - 1) <=? signed bits a - signed bits b) &&
                 (signed bits a - signed bits b <? 2 ^ (bits - 1))) /\
  pf f' = Nat.even (popcount8 ((a - b) mod 2 ^ bits)) /\
  af f' = af f.
Proof.
  intros Hb Ha Hbb. cbv zeta. unfold setArith. cbn [cf zf sf of_ pf af]. unfold asUintN.
  pose proof (pow_half bits Hb) as Hh.
  assert (Hp : 0 < 2 ^ (bits - 1)) by (apply Z.pow_pos_nonneg; lia).
  pose proof (Z.mod_pos_bound (a - b) (2 ^ bits) ltac:(lia)) as Hr.
  assert (Hmod : (a - b) mod 2 ^ bits = a - b /\ b <= a \/
                 (a - b) mod 2 ^ bits = a - b + 2 ^ bits /\ a < b).
  { destruct (Z.lt_ge_cases a b).
    - right. split; [|lia]. symmetry. apply Z.mod_unique with (q := -1); lia.
    - left. split; [|lia]. apply Z.mod_small. lia. }
  rewrite !sign_test by lia. rewrite Z.shiftl_1_l.
  repeat split.
  - destruct (Z.ltb_spec (2 ^ bits - 1) (a - b)), (Z.ltb_spec (a - b) 0),
      (Z.ltb_spec a b); simpl; try reflexivity; lia.
  - destruct (Z.eqb_spec ((a - b) mod 2 ^ bits) 0), (Z.eqb_spec a b); try reflexivity; lia.
  - unfold signed.
    destruct (Z.leb_spec (2 ^ (bits - 1)) a), (Z.leb_spec (2 ^ (bits - 1)) b),
      (Z.leb_spec (2 ^ (bits - 1)) ((a - b) mod 2 ^ bits)); simpl;
      match goal with
      | |- _ = negb ((?x <=? ?y) && (?u <? ?w)) =>
          destruct (Z.leb_spec x y), (Z.ltb_spec u w); simpl; try reflexivity; lia
      end.
  - apply parity_popcount.
Qed.

(** X5. The flags of a subtraction of two w-bit values: cf is the borrow
    (a < b), zf says that the operands are equal, sf is the top bit of the
    truncated difference, of says that the difference of the operands read as
    two's complement numbers leaves the signed range, pf is the parity of the
    low byte, and af stays as it was. *)
Theorem setArith_sub_flags (f : Flags) (a b bits : Z) :
  0 < bits -> 0 <= a < 2 ^ bits -> 0 <= b < 2 ^ bits ->
  let f' := setArith f (a - b) a b bits true in
  cf f' = (a <? b) /\
  zf f' = (a =? b) /\
  sf f' = (2 ^ (bits - 1) <=? (a - b) mod 2 ^ bits) /\
  of_ f' = negb ((- 2 ^ (bits - 1) <=? signed bits a - signed bits b) &&
                 (signed bits a - signed bits b <? 2 ^ (bits - 1))) /\
  pf f' = Nat.even (popcount8 ((a - b) mod 2 ^ bits)) /\
  af f' = af f.
Proof. exact (setArith_sub_spec f a b bits). Qed.

Lemma setArith_sub_flags_witness :
  cf (setArith Flags_new (3 - 5) 3 5 8 true) = true /\
  zf (setArith Flags_new (5 - 5) 5 5 8 true) = true.
Proof.
  destruct (setArith_sub_flags Flags_new 3 5 8) as (Hc & _); [lia|lia|lia|].
  destruct (setArith_sub_flags Flags_new 5 5 8) as (_ & Hz & _); [lia|lia|lia|].
  cbv zeta in Hc, Hz. rewrite Hc, Hz. split; reflexivity.
Defined.

(** X6. After the flags of a comparison of a with b (setArith on a - b as a
    subtraction), the condition codes that the conditional jumps test mean
    the comparisons they are named after: e/ne equality, b/ae/be/a the order
    of the operands as unsigned numbers, l/ge/le/g their order as two's
    complement numbers of the operand width. *)
Theorem cmp_conditions (f : Flags) (a b bits : Z) :
  0 < bits -> 0 <= a < 2 ^ bits -> 0 <= b < 2 ^ bits ->
  let f' := setArith f (a - b) a b bits true in
  check f' "e" = (a =? b) /\ check f' "ne" = negb (a =? b) /\
  check f' "b" = (a <? b) /\ check f' "ae" = (b <=? a) /\
  check f' "be" = (a <=? b) /\ check f' "a" = (b <? a) /\
  check f' "l" = (signed bits a <? signed bits b) /\
  check f' "ge" = (signed bits b <=? signed bits a) /\
  check f' "le" = (signed bits a <=? signed bits b) /\
  check f' "g" = (signed bits b <? signed bits a).
Proof.
  intros Hb Ha Hbb.
  destruct (setArith_sub_spec f a b bits Hb Ha Hbb) as (Hcf & Hzf & Hsf & Hof & _).
  cbv zeta in *. unfold check. cbn [String.eqb Ascii.eqb Bool.eqb orb].
  rewrite Hcf, Hzf, Hsf, Hof. clear Hcf Hzf Hsf Hof.
  pose proof (pow_half bits Hb) as Hh.
  assert (Hp : 0 < 2 ^ (bits - 1)) by (apply Z.pow_pos_nonneg; lia).
  assert (Hmod : (a - b) mod 2 ^ bits = a - b /\ b <= a \/
                 (a - b) mod 2 ^ bits = a - b + 2 ^ bits /\ a < b).
  { destruct (Z.lt_ge_cases a b).
    - right. split; [|lia]. symmetry. apply Z.mod_unique with (q := -1); lia.
    - left. split; [|lia]. apply Z.mod_small. lia. }
  unfold signed.
  destruct (Z.leb_spec (2 ^ (bits - 1)) a), (Z.leb_spec (2 ^ (bits - 1)) b),
    (Z.leb_spec (2 ^ (bits - 1)) ((a - b) mod 2 ^ bits)),
    (Z.eqb_spec a b), (Z.ltb_spec a b), (Z.leb_spec b a), (Z.leb_spec a b), (Z.ltb_spec b a);
    try lia;
    repeat match goal with
    | |- context [?x <=? ?y] => destruct (Z.leb_spec x y)
    | |- context [?x <? ?y] => destruct (Z.ltb_spec x y)
    end; cbn; try lia; repeat split; try reflexivity; lia.
Qed.

Lemma cmp_conditions_witness :
  check (setArith Flags_new (200 - 100) 200 100 8 true) "l" = true /\
  check (setArith Flags_new (200 - 100) 200 100 8 true) "a" = true.
Proof.
  destruct (cmp_conditions Flags_new 200 100 8) as (_ & _ & _ & _ & _ & Ha & Hl & _);
    [lia|lia|lia|].
  split; [rewrite Hl|rewrite Ha]; reflexivity.
Defined.

(** ** Memory.load *)

Section LoadFacts.

Lemma load_fold_wf l m addr :
  Memory_wf m ->
  Memory_wf (fold_left (fun m' '(i, b) => w8 m' (addr + Z.of_nat i) b) l m).
Proof.
  revert m. induction l as [|[i b] l IH]; intros m Hwf; [exact Hwf|].
  simpl. apply IH, w8_wf, Hwf.
Qed.

(* the bytes of data, from index k on, written at addr + k, addr + k + 1, ... *)
Lemma load_fold_peek data k m addr a :
  Memory_wf m ->
  peek (fold_left (fun m' '(i, b) => w8 m' (addr + Z.of_nat i) b)
          (imap (fun i x => ((k + i)%nat, x)) data) m) a =
  match (if (addr + Z.of_nat k <=? a) then data !! Z.to_nat (a - addr - Z.of_nat k) else None) with
  | Some b => Z.land b 0xFF
  | None => peek m a
  end.
Proof.
  revert k m. induction data as [|x data IH]; intros k m Hwf.
  - simpl. destruct (addr + Z.of_nat k <=? a); reflexivity.
  - cbn [imap fold_left].
    rewrite (imap_ext _ (fun i y => ((S k + i)%nat, y))) by (intros; cbn; f_equal; lia).
    rewrite IH by (apply w8_wf, Hwf). rewrite w8_peek by exact Hwf.
    replace (k + 0)%nat with k by lia.
    destruct (Z.leb_spec (addr + Z.of_nat (S k)) a) as [H1|H1].
    + destruct (Z.leb_spec (addr + Z.of_nat k) a); [|lia].
      replace (Z.to_nat (a - addr - Z.of_nat k)) with (S (Z.to_nat (a - addr - Z.of_nat (S k)))) by lia.
      cbn [lookup list_lookup].
      destruct (data !! Z.to_nat (a - addr - Z.of_nat (S k))); [reflexivity|].
      destruct (Z.eqb_spec (addr + Z.of_nat k) a); [lia|reflexivity].
    + destruct (Z.eqb_spec (addr + Z.of_nat k) a) as [<-|Hne].
      * destruct (Z.leb_spec (addr + Z.of_nat k) (addr + Z.of_nat k)); [|lia].
        replace (Z.to_nat (addr + Z.of_nat k - addr - Z.of_nat k)) with O by lia. reflexivity.
      * destruct (Z.leb_spec (addr + Z.of_nat k) a); [lia|reflexivity].
Qed.

End LoadFacts.

(** X7. Memory.load writes the data byte by byte: afterwards the pages are
    still whole, byte i of the data (its low eight bits) reads back at
    addr + i, and every byte outside the loaded range reads as before. *)
Theorem Memory_load_readback (m : Memory) (addr : Z) (data : list Z) :
  Memory_wf m ->
  Memory_wf (Memory_load m addr data) /\
  (forall i b, data !! i = Some b ->
     fst (r8 (Memory_load m addr data) (addr + Z.of_nat i)) = Z.land b 0xFF) /\
  (forall a, (a <? addr) || (addr + Z.of_nat (length data) <=? a) = true ->
     fst (r8 (Memory_load m addr data) a) = fst (r8 m a)).
Proof.
  intros Hwf. unfold Memory_load, indexed. split; [apply load_fold_wf, Hwf|]. split.
  - intros i b Hi. rewrite r8_peek, (load_fold_peek data 0 m addr) by exact Hwf.
    destruct (Z.leb_spec (addr + Z.of_nat 0) (addr + Z.of_nat i)); [|lia].
    replace (Z.to_nat (addr + Z.of_nat i - addr - Z.of_nat 0)) with i by lia.
    rewrite Hi. reflexivity.
  - intros a Ha. rewrite !r8_peek, (load_fold_peek data 0 m addr) by exact Hwf.
    apply orb_true_iff in Ha. rewrite Z.ltb_lt, Z.leb_le in Ha.
    destruct (Z.leb_spec (addr + Z.of_nat 0) a); [|reflexivity].
    rewrite lookup_ge_None_2; [reflexivity|]. lia.
Qed.

Lemma Memory_load_readback_witness :
  fst (r8 (Memory_load Memory_new 0xFFE [0x11; 0x22; 0x133]) (0xFFE + Z.of_nat 2)) =
  Z.land 0x133 0xFF.
Proof.
  destruct (Memory_load_readback Memory_new 0xFFE [0x11; 0x22; 0x133]) as (_ & H & _).
  - apply map_Forall_empty.
  - apply (H 2%nat 0x133). reflexivity.
Defined.

(** ** What a step keeps *)

Section StepInvariant.

Lemma keeps_intro s s' :
  bits s' = bits s -> _list s' = _list s -> _map s' = _map s ->
  breakpoints s' = breakpoints s -> _maxSteps s' = _maxSteps s ->
  af (flags s') = af (flags s) ->
  dom (_r (regs s')) = dom (_r (regs s)) ->
  (regs_bounded (regs s) -> regs_bounded (regs s')) ->
  (Memory_wf (mem s) -> Memory_wf (mem s')) ->
  keeps s s'.
Proof. unfold keeps. tauto. Qed.

Lemma keeps_refl s : keeps s s.
Proof. unfold keeps. tauto. Qed.

Lemma keeps_trans s1 s2 s3 : keeps s1 s2 -> keeps s2 s3 -> keeps s1 s3.
Proof.
  unfold keeps. intros (a1 & a2 & a3 & a4 & a5 & a6 & a7 & a8 & a9)
    (b1 & b2 & b3 & b4 & b5 & b6 & b7 & b8 & b9).
  apply keeps_intro; try (etransitivity; eassumption); auto.
Qed.

Lemma mkeeps_ret {A} (a : A) : mkeeps (ret a).
Proof. intros s. apply keeps_refl. Qed.

Lemma mkeeps_lift {A} (r : result A) : mkeeps (lift r).
Proof. intros s. apply keeps_refl. Qed.

Lemma mkeeps_bind {A B} (c : M A) (k : A -> M B) :
  mkeeps c -> (forall a, mkeeps (k a)) -> mkeeps (bind c k).
Proof.
  intros Hc Hk s. unfold bind. specialize (Hc s).
  destruct (c s) as [[a|e] s']; simpl in *; [|exact Hc].
  eapply keeps_trans; [exact Hc|apply Hk].
Qed.

Lemma mkeeps_regs_get name : mkeeps (regs_get name).
Proof. intros s. apply keeps_refl. Qed.

Lemma mkeeps_get_flags : mkeeps get_flags.
Proof. intros s. apply keeps_refl. Qed.
Lemma mkeeps_get_regs : mkeeps get_regs.
Proof. intros s. apply keeps_refl. Qed.
Lemma mkeeps_get_bits : mkeeps get_bits.
Proof. intros s. apply keeps_refl. Qed.
Lemma mkeeps_get_list : mkeeps get_list.
Proof. intros s. apply keeps_refl. Qed.

Lemma mkeeps_regs_set name v : mkeeps (regs_set name v).
Proof.
  intros s. unfold regs_set.
  destruct (Registers_set (regs s) name v) as [r|e] eqn:E; simpl; [|apply keeps_refl].
  apply keeps_intro; simpl; try reflexivity; try tauto.
  - destruct (Registers_set_cases _ _ _ _ E) as [->|Hc]; [reflexivity|].
    destruct Hc as (p & old & w & s0 & new & _ & _ & _ & Hold & -> & _).
    simpl. rewrite dom_insert_L. apply elem_of_dom_2 in Hold.
    apply subseteq_union_1_L, singleton_subseteq_l, Hold.
  - intros Hb. apply (Registers_set_range _ _ _ _ Hb E).
Qed.

Lemma mkeeps_mem_readLE a n : mkeeps (mem_readLE a n).
Proof.
  intros s. unfold mem_readLE.
  pose proof (readLE_loop_wf (Z.to_nat n) 0 a 0 (mem s)) as Hwf. unfold readLE.
  destruct (readLE_loop (Z.to_nat n) 0 a 0 (mem s)) as [v m]. simpl in *.
  unfold keeps. simpl. tauto.
Qed.

Lemma mkeeps_mem_writeLE a v n : mkeeps (mem_writeLE a v n).
Proof.
  intros s. unfold mem_writeLE. simpl.
  apply keeps_intro; simpl; try reflexivity; try tauto.
  apply writeLE_loop_wf.
Qed.

Lemma mkeeps_set_cf b : mkeeps (set_cf b).
Proof. intros s. unfold keeps. simpl. tauto. Qed.
Lemma mkeeps_set_zf b : mkeeps (set_zf b).
Proof. intros s. unfold keeps. simpl. tauto. Qed.
Lemma mkeeps_set_sf b : mkeeps (set_sf b).
Proof. intros s. unfold keeps. simpl. tauto. Qed.
Lemma mkeeps_set_of b : mkeeps (set_of b).
Proof. intros s. unfold keeps. simpl. tauto. Qed.
Lemma mkeeps_set_pf b : mkeeps (set_pf b).
Proof. intros s. unfold keeps. simpl. tauto. Qed.

(* the flags of add, sub and cmp: read, recomputed by setArith, written *)
Lemma mkeeps_setArith {B} r a b bits sub (k : M B) :
  mkeeps k ->
  mkeeps (bind get_flags (fun f => bind (set_flags (setArith f r a b bits sub)) (fun _ => k))).
Proof.
  intros Hk s. unfold bind, get_flags, set_flags. simpl.
  eapply keeps_trans; [|apply Hk]. unfold keeps. simpl. tauto.
Qed.

Lemma mkeeps_setArith_last r a b bits sub :
  mkeeps (bind get_flags (fun f => set_flags (setArith f r a b bits sub))).
Proof. intros s. unfold keeps. simpl. tauto. Qed.

Ltac keeps_step :=
  lazymatch goal with
  | |- mkeeps (ret _) => apply mkeeps_ret
  | |- mkeeps (lift _) => apply mkeeps_lift
  | |- mkeeps (regs_get _) => apply mkeeps_regs_get
  | |- mkeeps (regs_set _ _) => apply mkeeps_regs_set
  | |- mkeeps (mem_readLE _ _) => apply mkeeps_mem_readLE
  | |- mkeeps (mem_writeLE _ _ _) => apply mkeeps_mem_writeLE
  | |- mkeeps get_flags => apply mkeeps_get_flags
  | |- mkeeps get_regs => apply mkeeps_get_regs
  | |- mkeeps get_bits => apply mkeeps_get_bits
  | |- mkeeps get_list => apply mkeeps_get_list
  | |- mkeeps (set_cf _) => apply mkeeps_set_cf
  | |- mkeeps (set_zf _) => apply mkeeps_set_zf
  | |- mkeeps (set_sf _) => apply mkeeps_set_sf
  | |- mkeeps (set_of _) => apply mkeeps_set_of
  | |- mkeeps (set_pf _) => apply mkeeps_set_pf
  | |- mkeeps (bind get_flags (fun f => set_flags (setArith f _ _ _ _ _))) =>
      apply mkeeps_setArith_last
  | |- mkeeps (bind get_flags (fun f => bind (set_flags (setArith f _ _ _ _ _)) _)) =>
      apply mkeeps_setArith
  | |- mkeeps (bind _ _) => apply mkeeps_bind; [|intros ?]
  | |- mkeeps (match ?x with _ => _ end) => destruct x
  end.

Ltac keeps_auto := cbv zeta; repeat keeps_step.

Lemma mkeeps_op ops i : mkeeps (op ops i).
Proof. unfold op. keeps_auto. Qed.

Lemma mkeeps_op_read o : mkeeps (op_read o).
Proof. unfold op_read. keeps_auto. Qed.

Lemma mkeeps_op_write o v : mkeeps (op_write o v).
Proof. unfold op_write. keeps_auto. Qed.

Lemma mkeeps_jmp a : mkeeps (jmp a).
Proof. unfold jmp. keeps_auto. Qed.

Lemma mkeeps_resolveTarget t : mkeeps (resolveTarget t).
Proof. unfold resolveTarget. keeps_auto. Qed.

Lemma mkeeps_logic_flags r bits b : mkeeps (logic_flags r bits b).
Proof. unfold logic_flags. keeps_auto. Qed.

Ltac keeps_exec :=
  cbv zeta;
  repeat lazymatch goal with
    | |- mkeeps (op _ _) => apply mkeeps_op
    | |- mkeeps (op_read _) => apply mkeeps_op_read
    | |- mkeeps (op_write _ _) => apply mkeeps_op_write
    | |- mkeeps (jmp _) => apply mkeeps_jmp
    | |- mkeeps (resolveTarget _) => apply mkeeps_resolveTarget
    | |- mkeeps (logic_flags _ _ _) => apply mkeeps_logic_flags
    | |- _ => keeps_step
    end.

Lemma mkeeps_exec_case o mnem ops db nextRip : mkeeps (exec_case o mnem ops db nextRip).
Proof. destruct o; unfold exec_case; keeps_exec. Qed.

Lemma mkeeps__exec inst : mkeeps (_exec inst).
Proof.
  unfold _exec. cbv zeta.
  repeat lazymatch goal with
    | |- mkeeps (exec_case _ _ _ _ _) => apply mkeeps_exec_case
    | |- _ => keeps_step
    end.
Qed.

End StepInvariant.

(** X8. A step changes neither the bit width, the instruction list, the
    address map, the breakpoint set of the simulator, the step limit nor the
    auxiliary flag, adds or removes no register slot, and keeps the registers
    64-bit values and the pages whole, whatever the instruction is and whether
    it ends in an error or not. *)
Theorem step_keeps (s : X86Sim) : keeps s (snd (step s)).
Proof.
  unfold step. destruct (currentInst s) as [[inst|]|e]; cbn [snd]; try apply keeps_refl.
  - pose proof (mkeeps__exec inst s) as H.
    destruct (_exec inst s) as [[u|e] s']; exact H.
  - destruct (ripAddr s); apply keeps_refl.
Qed.

Section NoEscape.

Lemma Registers_get_rip_ok rg x :
  _r rg !! "rip" = Some x -> exists v, Registers_get rg "rip" = Ok v.
Proof.
  intros Hx. destruct rip_entry as (Hm & Hb & Hs).
  rewrite (Registers_get_own rg "rip" "rip" 64 0 x Hm Hb Hs Hx). eauto.
Qed.

End NoEscape.

(** X9. step throws nothing when the slot of rip exists: it returns a result
    object; when rip is at no instruction of the map the result is an error
    and the state is untouched; and an ok result names the instruction that
    was current. *)
Theorem step_returns (s : X86Sim) (x : Z) :
  _r (regs s) !! "rip" = Some x ->
  exists r, fst (step s) = Ok r /\
    (currentInst s = Ok None -> is_error r = true /\ snd (step s) = s) /\
    (forall inst, r = ok inst -> currentInst s = Ok (Some inst)).
Proof.
  intros Hx. destruct (Registers_get_rip_ok _ _ Hx) as [v Hv].
  unfold step, currentInst, ripAddr. rewrite Hv. cbn [rbind].
  destruct (_map s !! _) as [inst|].
  - destruct (_exec inst s) as [[u|e] s']; eexists; (split; [reflexivity|]);
      (split; [discriminate|]); intros i Hi; congruence.
  - eexists. split; [reflexivity|]. split; [intros _; split; reflexivity|].
    intros i Hi. discriminate.
Qed.

Lemma step_returns_witness :
  exists r, fst (step cpuid_state) = Ok r /\
    (forall inst, r = ok inst -> currentInst cpuid_state = Ok (Some inst)).
Proof.
  destruct (step_returns cpuid_state 0x401000) as (r & H & _ & Hi); [reflexivity|].
  exists r. split; assumption.
Defined.

Section RunBound.
Import App.

Lemma tick_loop_bound k n st s :
  (fst (fst (tick_loop k n st s)) <= n + k)%nat.
Proof.
  revert n s. induction k as [|k IH]; intros n s; cbn [tick_loop].
  - destruct (updateDebuggerUI (with_sim st s)); simpl; lia.
  - destruct (step s) as [[r|e] s']; [|simpl; lia].
    destruct (is_error r).
    + destruct (updateDebuggerUI _); simpl; lia.
    + destruct (ripAddr s'); [|simpl; lia].
      destruct (bool_decide _).
      * destruct (updateDebuggerUI _); simpl; lia.
      * specialize (IH (S n) s'). lia.
Qed.

Lemma tick_bound st : (fst (fst (tick st)) <= 100)%nat.
Proof.
  unfold tick. destruct (negb (simRunning st)); [simpl; lia|].
  destruct (sim st); [apply (tick_loop_bound 100 0)|simpl; lia].
Qed.

Lemma ticks_bound timers n st :
  (fst (fst (ticks timers n st)) <= n + 100 * S timers)%nat.
Proof.
  revert n st. induction timers as [|t IH]; intros n st; cbn [ticks];
    pose proof (tick_bound st) as Hb; destruct (tick st) as [[k e] st']; simpl in Hb.
  - destruct e; simpl; lia.
  - destruct e; simpl; try lia. specialize (IH (n + k)%nat st'). lia.
Qed.

End RunBound.

(** X10. A run session makes at most 100 steps per tick: with t timer
    firings delivered it has called step() at most 100 (t + 1) times. *)
Theorem dbgRun_batches (timers : nat) (st : App.state) :
  (fst (fst (App.dbgRun timers st)) <= 100 * S timers)%nat.
Proof.
  unfold App.dbgRun. destruct (App.sim st); [|simpl; lia].
  destruct (App.simRunning st); [simpl; lia|].
  apply (ticks_bound timers 0).
Qed.

(** X11. dbgRun stops at a breakpoint: when the first step succeeds and
    arrives at an address of bpAddrs, the session makes exactly that one step,
    schedules no further tick, clears simRunning and leaves the breakpoints
    as they were. *)
Theorem dbgRun_stops_at_breakpoint (timers : nat) (st : App.state) (s : X86Sim)
    (inst : Instruction) (a : string) :
  App.sim st = Some s ->
  App.simRunning st = false ->
  fst (step s) = Ok (ok inst) ->
  ripAddr (snd (step s)) = Ok a ->
  a ∈ App.bpAddrs st ->
  exists e st',
    App.dbgRun timers st = (1%nat, e, st') /\
    e <> App.Rescheduled /\
    App.simRunning st' = false /\
    App.bpAddrs st' = App.bpAddrs st.
Proof.
  intros Hsim Hrun Hstep Hrip Hbp.
  assert (Htick : exists e st',
             App.tick (App.with_running st true) = (1%nat, e, st') /\
             e <> App.Rescheduled /\ App.simRunning st' = false /\
             App.bpAddrs st' = App.bpAddrs st).
  { unfold App.tick. cbn [App.with_running App.simRunning App.sim negb]. rewrite Hsim.
    change (App.tick_loop 100 0) with (App.tick_loop (S 99) 0). cbn [App.tick_loop].
    destruct (step s) as [r s'] eqn:Es. cbn [fst snd] in Hstep, Hrip. subst r.
    cbn [is_error]. rewrite Hrip.
    rewrite bool_decide_eq_true_2 by exact Hbp.
    unfold App.updateDebuggerUI. cbn [App.with_running App.with_sim App.sim App.simRunning App.bpAddrs].
    destruct (stateSnapshot s') as [[snap|e] s''];
      eexists; eexists; (split; [reflexivity|]); (split; [discriminate|]);
      split; reflexivity. }
  destruct Htick as (e & st' & Ht & He & Hr & Hb).
  exists e, st'. unfold App.dbgRun. rewrite Hsim, Hrun.
  destruct timers; cbn [App.ticks]; rewrite Ht; destruct e; try contradiction;
    repeat split; try assumption; discriminate.
Qed.

Lemma dbgRun_stops_at_breakpoint_witness :
  exists e st',
    App.dbgRun 5 bp_state = (1%nat, e, st') /\ e <> App.Rescheduled /\
    App.simRunning st' = false.
Proof.
  destruct (dbgRun_stops_at_breakpoint 5 bp_state cpuid_state cpuid_inst "0x00401002")
    as (e & st' & H & He & Hr & _).
  - reflexivity.
  - reflexivity.
  - vm_compute. reflexivity.
  - vm_compute. reflexivity.
  - refine (bool_decide_unpack _ _). vm_compute. reflexivity.
  - exists e, st'. auto.
Defined.

(** ** Numbers and their spellings *)

Section Digits.

Lemma chars_app s1 s2 : chars (s1 +:+ s2) = (chars s1 ++ chars s2)%list.
Proof. induction s1 as [|c s1 IH]; simpl; [reflexivity|]. unfold chars in *. simpl. rewrite IH. reflexivity. Qed.

Lemma str_chars s : str (chars s) = s.
Proof. apply string_of_list_ascii_of_string. Qed.

Lemma chars_str l : chars (str l) = l.
Proof. apply list_ascii_of_string_of_list_ascii. Qed.

Lemma digit_char_spec d :
  0 <= d < 16 ->
  good_digit (digit_char d) /\ hex_val (digit_char d) = d /\
  (d < 10 -> is_digit (digit_char d) = true /\ code (digit_char d) - 48 = d).
Proof.
  intros Hd.
  assert (Hc : d = 0 \/ d = 1 \/ d = 2 \/ d = 3 \/ d = 4 \/ d = 5 \/ d = 6 \/ d = 7 \/
               d = 8 \/ d = 9 \/ d = 10 \/ d = 11 \/ d = 12 \/ d = 13 \/ d = 14 \/ d = 15) by lia.
  unfold good_digit.
  repeat (destruct Hc as [->|Hc]); try subst d;
    (split; [repeat split; try reflexivity; discriminate|]);
    (split; [reflexivity|]); intros Hlt; try lia; split; reflexivity.
Qed.

Lemma digits_loop_value r dv fuel n acc :
  1 < r -> (forall d, 0 <= d < r -> dv (digit_char d) = d) ->
  0 <= n < 2 ^ Z.of_nat fuel ->
  read_digits r dv (chars (digits_loop fuel r n acc)) 0 = read_digits r dv (chars acc) n.
Proof.
  intros Hr Hdv. revert n acc. induction fuel as [|k IH]; intros n acc Hn.
  - simpl in *. assert (n = 0) as -> by lia. reflexivity.
  - cbn [digits_loop]. cbv zeta.
    pose proof (Z.mod_pos_bound n r ltac:(lia)) as Hm.
    pose proof (Z.div_mod n r ltac:(lia)) as Hdm.
    destruct (Z.eqb_spec (n / r) 0) as [H0|Hne].
    + unfold chars. simpl. unfold read_digits. simpl. rewrite Hdv by lia.
      f_equal. lia.
    + rewrite IH.
      * unfold chars. simpl. unfold read_digits. simpl. rewrite Hdv by lia. f_equal. lia.
      * assert (n / r <= n / 2) by (apply Z.div_le_compat_l; lia).
        assert (0 <= n / r) by (apply Z.div_pos; lia).
        rewrite Nat2Z.inj_succ, Z.pow_succ_r in Hn by lia.
        assert (n / 2 < 2 ^ Z.of_nat k) by (apply Z.div_lt_upper_bound; lia). lia.
Qed.

Lemma digits_loop_all (P : ascii -> Prop) r fuel n acc :
  1 < r -> (forall d, 0 <= d < r -> P (digit_char d)) ->
  Forall P (chars acc) -> Forall P (chars (digits_loop fuel r n acc)).
Proof.
  intros Hr HP. revert n acc. induction fuel as [|k IH]; intros n acc Hacc; [exact Hacc|].
  cbn [digits_loop]. cbv zeta.
  pose proof (Z.mod_pos_bound n r ltac:(lia)) as Hm.
  assert (Hnew : Forall P (chars (String (digit_char (n mod r)) acc))).
  { unfold chars in *. simpl. apply Forall_cons. split; [apply HP; lia|exact Hacc]. }
  destruct (n / r =? 0); [exact Hnew|apply IH, Hnew].
Qed.

Lemma digits_loop_nonempty r fuel n acc :
  acc <> "" -> digits_loop fuel r n acc <> "".
Proof.
  revert n acc. induction fuel as [|k IH]; intros n acc Hacc; [exact Hacc|].
  cbn [digits_loop]. cbv zeta. destruct (n / r =? 0); [discriminate|].
  apply IH. discriminate.
Qed.

Lemma toString_nonneg r n :
  0 <= n -> toString r n = digits_loop (S (Z.to_nat (Z.log2 n))) r n "".
Proof.
  intros Hn. unfold toString. rewrite Z.abs_eq by lia.
  destruct (Z.ltb_spec n 0); [lia|reflexivity].
Qed.

Lemma toString_nonempty r n : 0 <= n -> toString r n <> "".
Proof.
  intros Hn. rewrite toString_nonneg by exact Hn. cbn [digits_loop]. cbv zeta.
  destruct (n / r =? 0); [discriminate|]. apply digits_loop_nonempty. discriminate.
Qed.

Lemma log2_fuel n : 0 <= n -> n < 2 ^ Z.of_nat (S (Z.to_nat (Z.log2 n))).
Proof.
  intros Hn. rewrite Nat2Z.inj_succ, Z2Nat.id by apply Z.log2_nonneg.
  destruct (Z.eq_dec n 0) as [->|Hne]; [reflexivity|].
  apply Z.log2_spec. lia.
Qed.

Lemma hex_value_toString n : 0 <= n -> hex_value (toString 16 n) = n.
Proof.
  intros Hn. rewrite toString_nonneg by exact Hn. unfold hex_value.
  change (fold_left (fun acc c => 16 * acc + hex_val c)) with (read_digits 16 hex_val).
  rewrite digits_loop_value; [reflexivity|lia| |split; [lia|apply log2_fuel, Hn]].
  intros d Hd. apply digit_char_spec. lia.
Qed.

Lemma dec_value_toString n : 0 <= n -> dec_value (toString 10 n) = n.
Proof.
  intros Hn. rewrite toString_nonneg by exact Hn. unfold dec_value.
  change (fold_left (fun acc c => 10 * acc + (code c - 48)))
    with (read_digits 10 (fun c => code c - 48)).
  rewrite digits_loop_value; [reflexivity|lia| |split; [lia|apply log2_fuel, Hn]].
  intros d Hd. cbv beta. apply digit_char_spec; lia.
Qed.

Lemma toString16_good n : 0 <= n -> Forall good_digit (chars (toString 16 n)).
Proof.
  intros Hn. rewrite toString_nonneg by exact Hn.
  apply digits_loop_all; [lia| |apply Forall_nil_2].
  intros d Hd. apply digit_char_spec. lia.
Qed.

Lemma toString10_digits n :
  0 <= n -> Forall (fun c => good_digit c /\ is_digit c = true) (chars (toString 10 n)).
Proof.
  intros Hn. rewrite toString_nonneg by exact Hn.
  apply digits_loop_all; [lia| |apply Forall_nil_2].
  intros d Hd. split; apply digit_char_spec; lia.
Qed.

End Digits.

Section Strings.

Lemma trimStart_id s :
  Forall (fun c => is_ws c = false) (chars s) -> trimStart s = s.
Proof.
  destruct s as [|c r]; [reflexivity|]. unfold chars. simpl. intros H.
  apply Forall_cons in H as [Hc _]. rewrite Hc. reflexivity.
Qed.

Lemma trim_id s :
  Forall (fun c => is_ws c = false) (chars s) -> trim s = s.
Proof.
  intros H. unfold trim, trimEnd. rewrite (trimStart_id s H).
  rewrite trimStart_id.
  - rewrite chars_str, rev_involutive. apply str_chars.
  - rewrite chars_str. apply List.Forall_rev, H.
Qed.

Lemma toLowerCase_id s :
  Forall (fun c => is_upper c = false) (chars s) -> toLowerCase s = s.
Proof.
  induction s as [|c r IH]; [reflexivity|]. unfold chars in *. simpl. intros H.
  apply Forall_cons in H as [Hc Hr]. unfold lower_char. rewrite Hc, (IH Hr). reflexivity.
Qed.

Lemma all_chars_true p s :
  Forall (fun c => p c = true) (chars s) -> all_chars p s = true.
Proof.
  intros H. unfold all_chars. apply forallb_forall. intros c Hc.
  rewrite Forall_forall in H. apply H. apply list_elem_of_In, Hc.
Qed.

Lemma nonempty_all_true p s :
  s <> "" -> Forall (fun c => p c = true) (chars s) -> nonempty_all p s = true.
Proof.
  intros Hne H. unfold nonempty_all. rewrite (all_chars_true p s H), andb_true_r.
  destruct (String.eqb_spec s ""); [contradiction|reflexivity].
Qed.

Lemma nonempty_all_elim p s :
  nonempty_all p s = true -> s <> "" /\ Forall (fun c => p c = true) (chars s).
Proof.
  unfold nonempty_all, all_chars. intros H. apply andb_prop in H as [H1 H2]. split.
  - intros ->. discriminate.
  - apply Forall_forall. intros c Hc. rewrite forallb_forall in H2. apply H2.
    apply list_elem_of_In, Hc.
Qed.

Lemma nonempty_all_false p s c :
  c ∈ chars s -> p c = false -> nonempty_all p s = false.
Proof.
  intros Hc Hp. unfold nonempty_all, all_chars.
  destruct (forallb p (chars s)) eqn:E; [|apply andb_false_r].
  rewrite forallb_forall in E. rewrite E in Hp; [discriminate|]. apply list_elem_of_In, Hc.
Qed.

Lemma length_chars s : length (chars s) = String.length s.
Proof. induction s as [|c r IH]; [reflexivity|]. unfold chars in *. simpl. rewrite IH. reflexivity. Qed.

Lemma substring_all s : String.substring 0 (String.length s) s = s.
Proof. induction s as [|c r IH]; [reflexivity|]. simpl. rewrite IH. reflexivity. Qed.

Lemma substring_prefix s t : String.substring 0 (String.length s) (s +:+ t) = s.
Proof.
  induction s as [|c r IH]; simpl.
  - destruct t; reflexivity.
  - rewrite IH. reflexivity.
Qed.

Lemma length_app_str s t : String.length (s +:+ t) = (String.length s + String.length t)%nat.
Proof. induction s as [|c r IH]; simpl; [reflexivity|]. rewrite IH. reflexivity. Qed.

Lemma drop_last_snoc s c : drop_last (s +:+ String c "") = s.
Proof.
  unfold drop_last. rewrite length_app_str. simpl.
  replace (String.length s + 1 - 1)%nat with (String.length s) by lia.
  apply substring_prefix.
Qed.

Lemma last_char_snoc s c : last_char (s +:+ String c "") = Some c.
Proof. unfold last_char. rewrite chars_app. apply last_snoc. Qed.

Lemma last_char_in s c : last_char s = Some c -> c ∈ chars s.
Proof.
  unfold last_char. apply last_Some_elem_of.
Qed.

Lemma drop_front_cons c s : drop_front 1 (String c s) = s.
Proof. unfold drop_front. simpl. rewrite Nat.sub_0_r. apply substring_all. Qed.

Lemma hex_val_range c : is_hex c = true -> 0 <= hex_val c < 16.
Proof.
  unfold is_hex, hex_val, is_digit. intros H.
  destruct (Z.leb_spec 48 (code c)), (Z.leb_spec (code c) 57),
    (Z.leb_spec 97 (code c)), (Z.leb_spec (code c) 102),
    (Z.leb_spec 65 (code c)), (Z.leb_spec (code c) 70); simpl in *; try discriminate; lia.
Qed.

Lemma read_digits_nonneg r dv l init :
  0 <= r -> 0 <= init -> Forall (fun c => 0 <= dv c) l -> 0 <= read_digits r dv l init.
Proof.
  intros Hr. revert init. induction l as [|c l IH]; intros init Hi H; [exact Hi|].
  apply Forall_cons in H as [Hc Hl]. simpl. apply IH; [nia|exact Hl].
Qed.

Lemma hex_value_nonneg s :
  Forall (fun c => is_hex c = true) (chars s) -> 0 <= hex_value s.
Proof.
  intros H. apply (read_digits_nonneg 16 hex_val); [lia|lia|].
  eapply Forall_impl; [exact H|]. intros c Hc. apply hex_val_range, Hc.
Qed.

Lemma chars_repeat_char c n : chars (repeat_char c n) = replicate n c.
Proof. induction n as [|n IH]; [reflexivity|]. unfold chars in *. simpl. rewrite IH. reflexivity. Qed.

Lemma read_zeros k l :
  read_digits 16 hex_val (replicate k "0"%char ++ l) 0 = read_digits 16 hex_val l 0.
Proof. induction k as [|k IH]; [reflexivity|]. simpl. exact IH. Qed.

Lemma hex_value_padStart k s : hex_value (padStart k "0" s) = hex_value s.
Proof.
  unfold hex_value, padStart. rewrite chars_app, chars_repeat_char. apply read_zeros.
Qed.

Lemma padStart_nonempty k c s : s <> "" -> padStart k c s <> "".
Proof.
  intros Hs H. apply (f_equal String.length) in H. unfold padStart in H.
  rewrite length_app_str in H. destruct s; [contradiction|simpl in H; lia].
Qed.

Lemma padStart_all (P : ascii -> Prop) k c s :
  P c -> Forall P (chars s) -> Forall P (chars (padStart k c s)).
Proof.
  intros Hc Hs. unfold padStart. rewrite chars_app, chars_repeat_char.
  apply Forall_app. split; [apply Forall_replicate, Hc|exact Hs].
Qed.

Lemma good_zero : good_digit "0"%char.
Proof. apply (digit_char_spec 0). lia. Qed.

Lemma startsWith_minus s :
  Forall (fun c => c <> "-"%char) (chars s) -> startsWith s "-" = false.
Proof.
  destruct s as [|c r]; [reflexivity|]. intros H.
  change (chars (String c r)) with (c :: chars r) in H.
  apply Forall_cons in H as [Hc _]. unfold startsWith.
  change (String.prefix "-" (String c r))
    with (if Ascii.ascii_dec "-" c then String.prefix "" r else false).
  destruct (Ascii.ascii_dec "-" c) as [e|ne]; [congruence|reflexivity].
Qed.

End Strings.

Section Immediates.

Lemma good_plain c : good_digit c -> plain c.
Proof. unfold good_digit, plain. tauto. Qed.

Lemma plain_normal s :
  Forall plain (chars s) -> toLowerCase (trim s) = s.
Proof.
  intros H. rewrite trim_id, toLowerCase_id; [reflexivity| |];
    (eapply Forall_impl; [exact H|]); unfold plain; tauto.
Qed.

Lemma parseImm_pos s :
  Forall plain (chars s) -> parseImm s = imm_value s.
Proof.
  intros H. unfold parseImm. rewrite (plain_normal s H). cbv zeta.
  rewrite startsWith_minus by (eapply Forall_impl; [exact H|]; unfold plain; tauto).
  unfold imm_value. cbv zeta.
  destruct (nonempty_all is_digit s); [reflexivity|].
  destruct (match_0x s); [reflexivity|]. destruct (match_hexH s); reflexivity.
Qed.

Lemma parseImm_neg s :
  Forall plain (chars s) -> parseImm (String "-" s) = Z.opp <$> imm_value s.
Proof.
  intros H. unfold parseImm.
  assert (Hn : toLowerCase (trim (String "-" s)) = String "-" s).
  { rewrite trim_id, toLowerCase_id; [reflexivity| |].
    - change (chars (String "-" s)) with ("-"%char :: chars s). apply Forall_cons. split; [reflexivity|].
      eapply Forall_impl; [exact H|]. unfold plain. tauto.
    - change (chars (String "-" s)) with ("-"%char :: chars s). apply Forall_cons. split; [reflexivity|].
      eapply Forall_impl; [exact H|]. unfold plain. tauto. }
  rewrite Hn. cbv zeta.
  assert (Hs : startsWith (String "-" s) "-" = true).
  { unfold startsWith. destruct s; reflexivity. }
  rewrite Hs, drop_front_cons. unfold imm_value. cbv zeta.
  destruct (nonempty_all is_digit s); [reflexivity|].
  destruct (match_0x s); [reflexivity|]. destruct (match_hexH s); reflexivity.
Qed.

Lemma match_0x_none s :
  Forall (fun c => c <> "x"%char) (chars s) -> match_0x s = None.
Proof.
  destruct s as [|a [|b r]]; try reflexivity.
  - unfold match_0x. destruct a as [[] [] [] [] [] [] [] []]; reflexivity.
  - intros H. change (chars (String a (String b r))) with (a :: b :: chars r) in H.
    apply Forall_cons in H as [_ H]. apply Forall_cons in H as [Hb _].
    unfold match_0x.
    destruct a as [[] [] [] [] [] [] [] []]; try reflexivity.
    destruct b as [[] [] [] [] [] [] [] []]; try reflexivity. contradiction.
Qed.

Lemma match_hexH_none s :
  (forall c, last_char s = Some c -> c <> "h"%char) -> match_hexH s = None.
Proof.
  intros H. unfold match_hexH. destruct (last_char s) as [c|] eqn:E; [|reflexivity].
  specialize (H c eq_refl).
  destruct c as [[] [] [] [] [] [] [] []]; try reflexivity. contradiction.
Qed.

Lemma imm_decimal n : 0 <= n -> imm_value (toString 10 n) = Some n.
Proof.
  intros Hn. unfold imm_value. cbv zeta.
  pose proof (toString10_digits n Hn) as Hd.
  rewrite nonempty_all_true.
  - rewrite dec_value_toString by exact Hn. reflexivity.
  - apply toString_nonempty, Hn.
  - eapply Forall_impl; [exact Hd|]. intros c [_ Hc]. exact Hc.
Qed.

Lemma imm_hexH n : 0 <= n -> imm_value (toString 16 n +:+ "h") = Some n.
Proof.
  intros Hn. unfold imm_value. cbv zeta.
  pose proof (toString16_good n Hn) as Hg.
  rewrite (nonempty_all_false is_digit _ "h"%char); [| |reflexivity].
  2:{ rewrite chars_app. set_solver. }
  rewrite match_0x_none.
  2:{ rewrite chars_app. apply Forall_app. split.
      - eapply Forall_impl; [exact Hg|]. unfold good_digit. tauto.
      - apply Forall_cons. split; [discriminate|apply Forall_nil_2]. }
  unfold match_hexH. rewrite last_char_snoc, drop_last_snoc.
  rewrite nonempty_all_true.
  - rewrite hex_value_toString by exact Hn. reflexivity.
  - apply toString_nonempty, Hn.
  - eapply Forall_impl; [exact Hg|]. unfold good_digit. tauto.
Qed.

Lemma last_char_cons c s : s <> "" -> last_char (String c s) = last_char s.
Proof. destruct s as [|d r]; [contradiction|reflexivity]. Qed.

Lemma imm_0x n : 0 <= n -> imm_value ("0x" +:+ toString 16 n) = Some n.
Proof.
  intros Hn. unfold imm_value. cbv zeta.
  pose proof (toString16_good n Hn) as Hg.
  pose proof (toString_nonempty 16 n Hn) as Hne.
  rewrite (nonempty_all_false is_digit _ "x"%char); [| |reflexivity].
  2:{ rewrite chars_app. set_solver. }
  change ("0x" +:+ toString 16 n) with (String "0" (String "x" (toString 16 n))).
  rewrite match_hexH_none.
  2:{ intros c. rewrite !last_char_cons by (try discriminate; exact Hne).
      intros Hc. apply last_char_in in Hc. rewrite Forall_forall in Hg.
      apply Hg in Hc. unfold good_digit in Hc. tauto. }
  unfold match_0x. rewrite nonempty_all_true.
  - rewrite hex_value_toString by exact Hn. reflexivity.
  - exact Hne.
  - eapply Forall_impl; [exact Hg|]. unfold good_digit. tauto.
Qed.

End Immediates.

(** X12. parseImm reads back every way of writing a natural number that the
    simulator's operand syntax has: decimal, hex with the h suffix, hex with
    the 0x prefix, and each of them negated by a leading minus sign. *)
Theorem parseImm_roundtrip (n : Z) :
  0 <= n ->
  parseImm (toString 10 n) = Some n /\
  parseImm (toString 16 n +:+ "h") = Some n /\
  parseImm ("0x" +:+ toString 16 n) = Some n /\
  parseImm ("-" +:+ toString 10 n) = Some (- n) /\
  parseImm ("-" +:+ toString 16 n +:+ "h") = Some (- n) /\
  parseImm ("-0x" +:+ toString 16 n) = Some (- n).
Proof.
  intros Hn.
  pose proof (toString16_good n Hn) as Hg.
  pose proof (toString10_digits n Hn) as Hd.
  assert (P10 : Forall plain (chars (toString 10 n))).
  { eapply Forall_impl; [exact Hd|]. intros c [Hc _]. apply good_plain, Hc. }
  assert (P16 : Forall plain (chars (toString 16 n))).
  { eapply Forall_impl; [exact Hg|]. apply good_plain. }
  assert (PH : Forall plain (chars (toString 16 n +:+ "h"))).
  { rewrite chars_app. apply Forall_app. split; [exact P16|].
    apply Forall_cons. split; [|apply Forall_nil_2]. repeat split; discriminate. }
  assert (PX : Forall plain (chars ("0x" +:+ toString 16 n))).
  { rewrite chars_app. apply Forall_app. split; [|exact P16].
    repeat (apply Forall_cons; split; [repeat split; discriminate|]). apply Forall_nil_2. }
  repeat split.
  - rewrite parseImm_pos by exact P10. apply imm_decimal, Hn.
  - rewrite parseImm_pos by exact PH. apply imm_hexH, Hn.
  - rewrite parseImm_pos by exact PX. apply imm_0x, Hn.
  - change ("-" +:+ toString 10 n) with (String "-" (toString 10 n)).
    rewrite parseImm_neg by exact P10. rewrite imm_decimal by exact Hn. reflexivity.
  - change ("-" +:+ toString 16 n +:+ "h") with (String "-" (toString 16 n +:+ "h")).
    rewrite parseImm_neg by exact PH. rewrite imm_hexH by exact Hn. reflexivity.
  - change ("-0x" +:+ toString 16 n) with (String "-" ("0x" +:+ toString 16 n)).
    rewrite parseImm_neg by exact PX. rewrite imm_0x by exact Hn. reflexivity.
Qed.

Lemma parseImm_roundtrip_witness :
  parseImm (toString 16 255 +:+ "h") = Some 255 /\
  parseImm ("-" +:+ toString 10 255) = Some (- 255).
Proof.
  destruct (parseImm_roundtrip 255) as (_ & H1 & _ & H2 & _); [lia|].
  split; assumption.
Defined.

(** ** Branch targets *)

Section Targets.

Lemma canonical_chars bits v :
  0 <= v ->
  exists body, canonical bits v = String "0" (String "x" body) /\ body <> "" /\
    Forall good_digit (chars body) /\ hex_value body = v.
Proof.
  intros Hv. exists (padStart (if bits =? 64 then 16 else 8) "0" (toString 16 v)).
  split; [reflexivity|]. split; [apply padStart_nonempty, toString_nonempty, Hv|].
  split; [apply padStart_all; [apply good_zero|apply toString16_good, Hv]|].
  rewrite hex_value_padStart. apply hex_value_toString, Hv.
Qed.

Lemma Xref_match_hexH_none s :
  (forall c, last (chars s) = Some c -> c <> "h"%char /\ c <> "H"%char) ->
  Xref.match_hexH s = None.
Proof.
  intros H. unfold Xref.match_hexH. destruct (last (chars s)) as [c|]; [|reflexivity].
  destruct (H c eq_refl) as [H1 H2].
  destruct (Ascii.eqb_spec c "h"); [contradiction|].
  destruct (Ascii.eqb_spec c "H"); [contradiction|]. reflexivity.
Qed.

Lemma Xref_match_elim s h :
  Xref.match_hexH s = Some h \/ Xref.match_0x s = Some h ->
  Forall (fun c => is_hex c = true) (chars h).
Proof.
  intros [H|H].
  - unfold Xref.match_hexH in H. destruct (last (chars s)); [|discriminate].
    destruct (_ || _); [|discriminate].
    destruct (nonempty_all is_hex _) eqn:E; [|discriminate].
    injection H as <-. apply nonempty_all_elim in E. tauto.
  - unfold Xref.match_0x in H. destruct s as [|a [|b r]]; try discriminate.
    + destruct a as [[] [] [] [] [] [] [] []]; discriminate.
    + destruct a as [[] [] [] [] [] [] [] []]; try discriminate.
      destruct (_ || _); [|discriminate]. simpl in H.
      destruct (nonempty_all is_hex r) eqn:E; [|discriminate].
      injection H as <-. apply nonempty_all_elim in E. tauto.
Qed.

Lemma parseTarget_canonical_in bits v :
  0 <= v -> Xref.parseTarget (canonical bits v) bits = Some (canonical bits v).
Proof.
  intros Hv. destruct (canonical_chars bits v Hv) as (body & Hc & Hne & Hg & Hval).
  transitivity (Xref.parseTarget (String "0" (String "x" body)) bits);
    [rewrite Hc; reflexivity|].
  unfold Xref.parseTarget.
  change (String.eqb (String "0" (String "x" body)) "") with false. cbv iota zeta.
  rewrite Xref_match_hexH_none.
  - unfold Xref.match_0x. simpl (Ascii.eqb _ _ || _). cbn [andb].
    rewrite nonempty_all_true; [|exact Hne|].
    + rewrite Hval. reflexivity.
    + eapply Forall_impl; [exact Hg|]. unfold good_digit. tauto.
  - intros c Hl.
    change (chars (String "0" (String "x" body))) with ("0"%char :: "x"%char :: chars body) in Hl.
    assert (Hin : c ∈ chars body).
    { destruct (chars body) as [|d l] eqn:E.
      - destruct body; [contradiction|discriminate].
      - apply last_Some_elem_of. exact Hl. }
    rewrite Forall_forall in Hg. apply Hg in Hin. unfold good_digit in Hin. tauto.
Qed.

Lemma parseTarget_shape ops bits t :
  Xref.parseTarget ops bits = Some t -> exists v, 0 <= v /\ t = canonical bits v.
Proof.
  unfold Xref.parseTarget. destruct (String.eqb ops ""); [discriminate|].
  destruct (Xref.match_hexH ops) as [h|] eqn:E1.
  - intros H. injection H as <-. exists (hex_value h). split; [|reflexivity].
    apply hex_value_nonneg. apply (Xref_match_elim ops). left. exact E1.
  - destruct (Xref.match_0x ops) as [h|] eqn:E2; [|discriminate].
    intros H. injection H as <-. exists (hex_value h). split; [|reflexivity].
    apply hex_value_nonneg. apply (Xref_match_elim ops). right. exact E2.
Qed.

Lemma Graph_parseTarget_eq op bits :
  Graph.parseTarget op bits = Xref.parseTarget (trim op) bits.
Proof.
  unfold Graph.parseTarget, Xref.parseTarget.
  destruct (String.eqb_spec op "") as [->|Hop]; [reflexivity|].
  destruct (String.eqb_spec (trim op) "") as [->|Ht]; reflexivity.
Qed.

End Targets.

(** X13. A target that xrefAnalyzer's parseTarget returns is the canonical
    spelling of a natural number for the bit width ("0x" and lowercase hex
    digits padded with zeros to 16 or 8), and parseTarget maps every such
    spelling to itself: the keys of the cross-reference table are fixed points
    of the normalisation.  graph.js's parseTarget is the same function after
    trimming the operand. *)
Theorem parseTarget_normal_form (ops t : string) (bits : Z) :
  Xref.parseTarget ops bits = Some t ->
  (exists v, 0 <= v /\ t = canonical bits v) /\
  Xref.parseTarget t bits = Some t /\
  Graph.parseTarget t bits = Some t.
Proof.
  intros H. destruct (parseTarget_shape _ _ _ H) as (v & Hv & ->).
  split; [eauto|]. split; [apply parseTarget_canonical_in, Hv|].
  rewrite Graph_parseTarget_eq, trim_id; [apply parseTarget_canonical_in, Hv|].
  destruct (canonical_chars bits v Hv) as (body & Hc & Hne & Hg & Hval). rewrite Hc.
  change (chars (String "0" (String "x" body))) with ("0"%char :: "x"%char :: chars body).
  repeat (apply Forall_cons; split; [reflexivity|]).
  eapply Forall_impl; [exact Hg|]. unfold good_digit. tauto.
Qed.

Lemma parseTarget_normal_form_witness :
  Xref.parseTarget "401000h" 64 = Some "0x0000000000401000" /\
  Xref.parseTarget "0x0000000000401000" 64 = Some "0x0000000000401000".
Proof.
  split; [reflexivity|].
  apply (parseTarget_normal_form "401000h" "0x0000000000401000" 64). reflexivity.
Defined.

(** ** load and reset *)

Section Loading.

Lemma hex_prefix_all s :
  Forall (fun c => is_hex c = true) (chars s) -> hex_prefix s = s.
Proof.
  induction s as [|c r IH]; [reflexivity|]. intros H.
  change (chars (String c r)) with (c :: chars r) in H.
  apply Forall_cons in H as [Hc Hr]. simpl. rewrite Hc, (IH Hr). reflexivity.
Qed.

Lemma parseInt16_canonical bits a :
  0 <= a < 2 ^ 53 -> parseInt16 (canonical bits a) = Some a.
Proof.
  intros Ha. destruct (canonical_chars bits a ltac:(lia)) as (body & Hc & Hne & Hg & Hval).
  rewrite Hc. unfold parseInt16. cbn [trimStart]. change (is_ws "0") with false. cbv iota zeta.
  rewrite hex_prefix_all by (eapply Forall_impl; [exact Hg|]; unfold good_digit; tauto).
  destruct (String.eqb_spec body ""); [contradiction|].
  rewrite Hval. unfold to_double. rewrite Z.abs_eq by lia.
  destruct (Z.ltb_spec a (2 ^ 53)); [|lia].
  destruct (Z.leb_spec (2 ^ 1024) a) as [Hbig|]; [|reflexivity].
  assert (2 ^ 53 < 2 ^ 1024) by (apply Z.pow_lt_mono_r; lia). lia.
Qed.

Lemma toLowerCase_canonical bits a :
  0 <= a -> toLowerCase (canonical bits a) = canonical bits a.
Proof.
  intros Ha. destruct (canonical_chars bits a Ha) as (body & Hc & Hne & Hg & Hval).
  rewrite Hc. apply toLowerCase_id.
  change (chars (String "0" (String "x" body))) with ("0"%char :: "x"%char :: chars body).
  repeat (apply Forall_cons; split; [reflexivity|]).
  eapply Forall_impl; [exact Hg|]. unfold good_digit. tauto.
Qed.

Lemma last_cons_some {A} (x : A) l : exists z, last (x :: l) = Some z.
Proof.
  revert x. induction l as [|y l IH]; intros x; [exists x; reflexivity|].
  destruct (IH y) as [z Hz]. exists z. exact Hz.
Qed.

Lemma build_map_fold l (m : gmap string Instruction) k :
  fold_left (fun m inst => <[toLowerCase (address inst) := inst]> m) l m !! k =
  match last_at k l with Some i => Some i | None => m !! k end.
Proof.
  revert m. induction l as [|i l IH]; intros m; [reflexivity|].
  cbn [fold_left]. rewrite IH. unfold last_at. cbn [List.filter].
  destruct (String.eqb_spec (toLowerCase (address i)) k) as [He|Hn].
  - destruct (List.filter _ l) as [|j l'] eqn:E.
    + simpl. rewrite <- He. apply lookup_insert_eq.
    + change (last (i :: j :: l')) with (last (j :: l')).
      destruct (last_cons_some j l') as [z ->]. reflexivity.
  - destruct (last _); [reflexivity|]. apply lookup_insert_ne. exact Hn.
Qed.

Lemma build_map_lookup l k : build_map l !! k = last_at k l.
Proof.
  unfold build_map. rewrite build_map_fold, lookup_empty.
  destruct (last_at k l); reflexivity.
Qed.

Lemma last_at_first i0 rest :
  exists i, last_at (toLowerCase (address i0)) (i0 :: rest) = Some i /\
    toLowerCase (address i) = toLowerCase (address i0) /\
    i ∈ i0 :: rest /\
    (Forall (fun j => toLowerCase (address j) <> toLowerCase (address i0)) rest -> i = i0).
Proof.
  unfold last_at. cbn [List.filter]. rewrite String.eqb_refl.
  set (f := fun i => String.eqb (toLowerCase (address i)) (toLowerCase (address i0))).
  destruct (last (i0 :: List.filter f rest)) as [i|] eqn:E.
  - exists i. split; [reflexivity|].
    apply last_Some_elem_of in E. apply elem_of_cons in E.
    destruct E as [->|E].
    + split; [reflexivity|]. split; [left|intros _; reflexivity].
    + apply list_elem_of_In, filter_In in E. destruct E as [Hin Hf].
      apply String.eqb_eq in Hf. split; [exact Hf|]. split; [right; apply list_elem_of_In, Hin|].
      intros Hall. rewrite Forall_forall in Hall. exfalso.
      apply (Hall i); [apply list_elem_of_In, Hin|exact Hf].
  - destruct (last_cons_some i0 (List.filter f rest)) as [z Hz]. congruence.
Qed.

Lemma touch_stack_fold_peek l m b :
  peek (fold_left (fun m' i => snd (_page m' (0x7fff0000 - Z.of_nat i * 0x1000))) l m) b = peek m b.
Proof.
  revert m. induction l as [|i l IH]; intros m; [reflexivity|].
  cbn [fold_left]. rewrite IH. apply _page_peek.
Qed.

Lemma touch_stack_fold_wf l m :
  Memory_wf m ->
  Memory_wf (fold_left (fun m' i => snd (_page m' (0x7fff0000 - Z.of_nat i * 0x1000))) l m).
Proof.
  revert m. induction l as [|i l IH]; intros m Hwf; [exact Hwf|].
  cbn [fold_left]. apply IH, _page_wf, Hwf.
Qed.

Lemma rsp_entry :
  REG_MAP "rsp" = Own "rsp" /\ REG_BITS "rsp" = Own 64 /\ REG_SHIFT "rsp" = Own 0.
Proof. repeat split; vm_compute; reflexivity. Qed.

Lemma set_full rg name v old :
  REG_MAP name = Own name -> REG_BITS name = Own 64 -> REG_SHIFT name = Own 0 ->
  toLowerCase name = name -> name <> "" ->
  _r rg !! name = Some old -> 0 <= old < 2 ^ 64 -> 0 <= v < 2 ^ 64 ->
  Registers_set rg name v = Ok {| _r := <[name := v]> (_r rg) |}.
Proof.
  intros Hm Hb Hs Hl Hne Ho Hob Hv. unfold Registers_set. rewrite Hl, Hm, Hb, Hs.
  cbn. unfold slot. rewrite Ho. cbn.
  destruct (String.eqb_spec name ""); [contradiction|]. cbn. do 3 f_equal.
  rewrite !Z.shiftl_0_r. change (Z.shiftl 1 64 - 1) with (Z.ones 64).
  apply Z.bits_inj'. intros i Hi.
  rewrite Z.lor_spec, !Z.land_spec, Z.lnot_spec, Z.testbit_ones by lia.
  replace (0 <=? i) with true by (symmetry; apply Z.leb_le; lia). cbn [andb].
  destruct (Z.ltb_spec i 64).
  - cbn. rewrite andb_false_r, andb_true_r. reflexivity.
  - rewrite (bounded_high_bits old i), (bounded_high_bits v i) by lia. reflexivity.
Qed.

Lemma Registers_new_lookup q : q ∈ R64 -> _r Registers_new !! q = Some 0.
Proof.
  intros H. unfold R64 in H. repeat (apply elem_of_cons in H as [->|H]; [reflexivity|]).
  apply elem_of_nil in H. contradiction.
Qed.

Lemma Registers_new_bounded : regs_bounded Registers_new.
Proof. refine (bool_decide_unpack _ _). vm_compute. reflexivity. Qed.

Lemma load_eq l s :
  load l s =
  (let s1 := {| bits := bits s; regs := regs s; mem := mem s; flags := flags s;
                breakpoints := breakpoints s; _map := build_map l;
                _list := l; _maxSteps := _maxSteps s |} in
   (match l with
    | i0 :: _ => a <- lift (BigInt_parseInt16 (address i0)) ;; regs_set "rip" a
    | [] => ret tt
    end ;;;
    regs_set "rsp" 0x7fff0000 ;;;
    (fun s => (Ok tt, with_mem s (touch_stack (mem s))))) s1).
Proof. reflexivity. Qed.

End Loading.

Section Loading2.

Lemma get_full rg name x :
  REG_MAP (toLowerCase name) = Own name -> REG_BITS (toLowerCase name) = Own 64 ->
  REG_SHIFT (toLowerCase name) = Own 0 ->
  _r rg !! name = Some x -> 0 <= x < 2 ^ 64 ->
  Registers_get rg name = Ok x.
Proof.
  intros Hm Hb Hs Hx Hr. rewrite (Registers_get_own rg name name 64 0 x Hm Hb Hs Hx).
  rewrite Z.shiftr_0_r, Z.land_ones by lia. rewrite Z.mod_small by lia. reflexivity.
Qed.

Lemma load_first_aux s i0 rest a x y :
  _r (regs s) !! "rip" = Some x -> _r (regs s) !! "rsp" = Some y ->
  regs_bounded (regs s) ->
  address i0 = canonical (bits s) a -> 0 <= a < 2 ^ 53 ->
  exists s',
    load (i0 :: rest) s = (Ok tt, s') /\
    _r (regs s') = <["rsp" := 0x7fff0000]> (<["rip" := a]> (_r (regs s))) /\
    ripAddr s' = Ok (address i0) /\
    currentInst s' = Ok (last_at (address i0) (i0 :: rest)) /\
    (forall b, peek (mem s') b = peek (mem s) b) /\
    (Memory_wf (mem s) -> Memory_wf (mem s')) /\
    flags s' = flags s /\ _list s' = i0 :: rest /\ bits s' = bits s /\
    breakpoints s' = breakpoints s /\ _maxSteps s' = _maxSteps s.
Proof.
  intros Hx Hy Hb Ha Hr.
  assert (H64 : 2 ^ 53 < 2 ^ 64) by (apply Z.pow_lt_mono_r; lia).
  rewrite load_eq. cbv beta iota zeta delta [bind lift ret BigInt_parseInt16].
  rewrite Ha, (parseInt16_canonical (bits s) a Hr).
  unfold regs_set at 1. cbn [regs].
  rewrite (set_full (regs s) "rip" a x); try reflexivity; try discriminate;
    [|exact Hx|exact (Hb _ _ Hx)|lia].
  unfold regs_set at 1. cbn [regs with_regs].
  rewrite (set_full _ "rsp" 0x7fff0000 y); try reflexivity; try discriminate;
    [|cbn [_r]; rewrite lookup_insert_ne by discriminate; exact Hy|exact (Hb _ _ Hy)|lia].
  cbn [_r].
  eexists. split; [reflexivity|]. cbn [regs mem flags _list bits breakpoints _maxSteps with_mem with_regs _r].
  split; [reflexivity|].
  assert (Hrip : ripAddr (with_mem (with_regs (with_regs
            {| bits := bits s; regs := regs s; mem := mem s; flags := flags s;
               breakpoints := breakpoints s; _map := build_map (i0 :: rest);
               _list := i0 :: rest; _maxSteps := _maxSteps s |}
            {| _r := <["rip" := a]> (_r (regs s)) |})
            {| _r := <["rsp" := 0x7fff0000]> (<["rip" := a]> (_r (regs s))) |})
            (touch_stack (mem s))) = Ok (canonical (bits s) a)).
  { unfold ripAddr. cbn [regs bits with_mem with_regs].
    rewrite (get_full _ "rip" a); try reflexivity; [|lia].
    cbn [_r]. rewrite lookup_insert_ne by discriminate. apply lookup_insert_eq. }
  split; [rewrite Hrip; reflexivity|].
  split.
  { unfold currentInst. rewrite Hrip. cbn [rbind _map with_mem with_regs].
    rewrite build_map_lookup. reflexivity. }
  split; [intros b; apply touch_stack_fold_peek|].
  split; [apply touch_stack_fold_wf|]. repeat split; reflexivity.
Qed.

Lemma last_at_cons k x l :
  last_at k (x :: l) =
  match last_at k l with
  | Some j => Some j
  | None => if String.eqb (toLowerCase (address x)) k then Some x else None
  end.
Proof.
  unfold last_at. cbn [List.filter].
  destruct (String.eqb (toLowerCase (address x)) k).
  - destruct (List.filter _ l) as [|j l'] eqn:E; [reflexivity|].
    change (last (x :: j :: l')) with (last (j :: l')).
    destruct (last_cons_some j l') as [z ->]. reflexivity.
  - destruct (last _); reflexivity.
Qed.

Lemma last_at_none k l :
  last_at k l = None -> Forall (fun j => toLowerCase (address j) <> k) l.
Proof.
  induction l as [|x l IH]; [intros _; apply Forall_nil_2|].
  rewrite last_at_cons. destruct (last_at k l); [discriminate|].
  destruct (String.eqb_spec (toLowerCase (address x)) k); [discriminate|].
  intros _. apply Forall_cons. split; [assumption|apply IH; reflexivity].
Qed.

(* the instruction under a key is the last one of the list with that key *)
Lemma last_at_split k l i :
  last_at k l = Some i ->
  exists pre post, l = (pre ++ i :: post)%list /\ toLowerCase (address i) = k /\
    Forall (fun j => toLowerCase (address j) <> k) post.
Proof.
  induction l as [|x l IH]; [discriminate|].
  rewrite last_at_cons. destruct (last_at k l) as [j|] eqn:E.
  - intros H. injection H as ->. destruct (IH eq_refl) as (pre & post & -> & Hk & Hp).
    exists (x :: pre), post. auto.
  - destruct (String.eqb_spec (toLowerCase (address x)) k) as [Hk|]; [|discriminate].
    intros H. injection H as ->. exists [], l. split; [reflexivity|]. split; [exact Hk|].
    apply last_at_none, E.
Qed.

End Loading2.

(** X14. load on a list whose first address is canonical for the bit width (and
    below 2^53, where parseInt is exact) points rip at it and rsp at
    0x7fff0000, touches no other register, no flag and no byte of memory, and
    makes the instruction current that the address map holds for that
    address: the last instruction of the list with the first one's address
    (no instruction after it has that address), which is the first one itself
    when no later one repeats it. *)
Theorem load_first (s : X86Sim) (i0 : Instruction) (rest : list Instruction) (a x y : Z) :
  _r (regs s) !! "rip" = Some x -> _r (regs s) !! "rsp" = Some y ->
  regs_bounded (regs s) ->
  address i0 = canonical (bits s) a -> 0 <= a < 2 ^ 53 ->
  exists s' i,
    load (i0 :: rest) s = (Ok tt, s') /\
    _r (regs s') = <["rsp" := 0x7fff0000]> (<["rip" := a]> (_r (regs s))) /\
    flags s' = flags s /\ (forall b, peek (mem s') b = peek (mem s) b) /\
    currentInst s' = Ok (Some i) /\
    toLowerCase (address i) = address i0 /\ i ∈ i0 :: rest /\
    (Forall (fun j => toLowerCase (address j) <> address i0) rest -> i = i0) /\
    exists pre post,
      i0 :: rest = (pre ++ i :: post)%list /\
      Forall (fun j => toLowerCase (address j) <> address i0) post.
Proof.
  intros Hx Hy Hb Ha Hr.
  destruct (load_first_aux s i0 rest a x y Hx Hy Hb Ha Hr)
    as (s' & Hl & Hregs & _ & Hcur & Hpeek & _ & Hfl & _).
  assert (Hlow : toLowerCase (address i0) = address i0)
    by (rewrite Ha; apply toLowerCase_canonical; lia).
  destruct (last_at_first i0 rest) as (i & Hi & Hai & Hin & Huniq).
  rewrite Hlow in Hi, Hai, Huniq.
  destruct (last_at_split _ _ _ Hi) as (pre & post & Hsplit & _ & Hpost).
  exists s', i. rewrite Hcur, Hi. repeat split; try assumption.
  exists pre, post. split; assumption.
Qed.

Lemma load_first_witness :
  exists s',
    load [dup_first; dup_last] (X86Sim_new 64) = (Ok tt, s') /\
    currentInst s' = Ok (Some dup_last).
Proof.
  destruct (load_first (X86Sim_new 64) dup_first [dup_last] 0x401000 0 0)
    as (s' & i & Hl & _ & _ & _ & Hc & _ & _ & _ & pre & post & Hsplit & Hpost).
  - reflexivity.
  - reflexivity.
  - refine (bool_decide_unpack _ _). vm_compute. reflexivity.
  - reflexivity.
  - lia.
  - exists s'. split; [exact Hl|]. rewrite Hc.
    destruct pre as [|p0 [|p1 pre]]; cbn [app] in Hsplit.
    + injection Hsplit as <- <-. apply Forall_cons in Hpost as [Hne _].
      exfalso. apply Hne. vm_compute. reflexivity.
    + injection Hsplit as _ <- _. reflexivity.
    + injection Hsplit as _ _ Hsplit. destruct pre; discriminate.
Defined.

(** X15. reset forgets the machine state: whatever the registers, flags and
    memory were, after reset on a list whose first address is canonical for
    the bit width and below 2^53 (where parseInt is exact) every register is
    0 except rip (the first address) and rsp (0x7fff0000), every flag is
    clear, every byte of memory reads 0, and the invariants that step
    preserves hold; the bit width and the breakpoints are kept. *)
Theorem reset_clean (s : X86Sim) (i0 : Instruction) (rest : list Instruction) (a : Z) :
  address i0 = canonical (bits s) a -> 0 <= a < 2 ^ 53 ->
  exists s',
    reset (i0 :: rest) s = (Ok tt, s') /\
    _r (regs s') = <["rsp" := 0x7fff0000]> (<["rip" := a]> (_r Registers_new)) /\
    flags s' = Flags_new /\
    (forall b, peek (mem s') b = 0) /\
    Memory_wf (mem s') /\ regs_bounded (regs s') /\
    bits s' = bits s /\ breakpoints s' = breakpoints s /\ _list s' = i0 :: rest.
Proof.
  intros Ha Hr. unfold reset.
  set (s0 := {| bits := bits s; regs := Registers_new; mem := Memory_new; flags := Flags_new;
                breakpoints := breakpoints s; _map := _map s; _list := _list s;
                _maxSteps := _maxSteps s |}).
  destruct (load_first_aux s0 i0 rest a 0 0) as
    (s' & Hl & Hregs & _ & _ & Hpeek & Hwf & Hfl & Hlist & Hbits & Hbp & _);
    [reflexivity|reflexivity|apply Registers_new_bounded|exact Ha|exact Hr|].
  exists s'. split; [exact Hl|]. split; [exact Hregs|]. split; [exact Hfl|].
  split; [intros b; rewrite Hpeek; reflexivity|].
  split; [apply Hwf; apply map_Forall_empty|].
  split; [|repeat split; assumption].
  unfold regs_bounded. rewrite Hregs.
  assert (H64 : 2 ^ 53 < 2 ^ 64) by (apply Z.pow_lt_mono_r; lia).
  apply map_Forall_insert_2; [lia|]. apply map_Forall_insert_2; [lia|].
  apply Registers_new_bounded.
Qed.

Lemma reset_clean_witness :
  exists s',
    reset (scenario_stream 32) cpuid_state = (Ok tt, s') /\
    _r (regs s') !! "rax" = Some 0 /\ flags s' = Flags_new.
Proof.
  destruct (reset_clean cpuid_state
              {| address := canonical 32 0x401000; bytes := "b8 05 00 00 00";
                 mnemonic := "mov"; operands := "eax, 5" |}
              (tl (scenario_stream 32)) 0x401000)
    as (s' & Hl & Hregs & Hfl & _).
  - vm_compute. reflexivity.
  - lia.
  - exists s'. split; [exact Hl|]. split; [rewrite Hregs; reflexivity|exact Hfl].
Defined.

(** ** The stack *)

Section Stack.

Lemma readLE_writeLE m a v n :
  Memory_wf m -> 0 <= n -> fst (readLE (writeLE m a v n) a n) = v mod 2 ^ (8 * n).
Proof.
  intros Hwf Hn. unfold readLE, writeLE.
  rewrite (readLE_loop_spec (Z.to_nat n) 0 a v 0).
  - rewrite Z.land_ones by lia. f_equal. f_equal. lia.
  - apply writeLE_loop_wf, Hwf.
  - lia.
  - intros j Hj. rewrite writeLE_loop_peek by exact Hwf.
    destruct (Z.leb_spec (a + 0) (a + j)); [|lia].
    destruct (Z.ltb_spec (a + j) (a + 0 + Z.of_nat (Z.to_nat n))); [|lia].
    simpl. f_equal. f_equal. lia.
  - rewrite Z.mul_0_r. symmetry. apply Z.land_0_r.
Qed.

Lemma parseOp_rax rg : parseOp "rax" rg 8 = Ok (op_reg "rax" 8).
Proof. vm_compute. reflexivity. Qed.

Lemma parseOp_rbx rg : parseOp "rbx" rg 8 = Ok (op_reg "rbx" 8).
Proof. vm_compute. reflexivity. Qed.

Lemma reg64_entry name :
  name ∈ R64 ->
  REG_MAP name = Own name /\ REG_BITS name = Own 64 /\ REG_SHIFT name = Own 0 /\
  toLowerCase name = name /\ name <> "".
Proof.
  intros H. unfold R64 in H.
  repeat (apply elem_of_cons in H as [->|H];
          [repeat split; try (vm_compute; reflexivity); discriminate|]).
  apply elem_of_nil in H. contradiction.
Qed.

Lemma get64 rg name x :
  name ∈ R64 -> _r rg !! name = Some x -> 0 <= x < 2 ^ 64 -> Registers_get rg name = Ok x.
Proof.
  intros Hn Hx Hr. destruct (reg64_entry name Hn) as (Hm & Hb & Hs & Hl & _).
  apply get_full; try rewrite Hl; assumption.
Qed.

Lemma set64 rg name v old :
  name ∈ R64 -> _r rg !! name = Some old -> 0 <= old < 2 ^ 64 -> 0 <= v < 2 ^ 64 ->
  Registers_set rg name v = Ok {| _r := <[name := v]> (_r rg) |}.
Proof.
  intros Hn Hx Hr Hv. destruct (reg64_entry name Hn) as (Hm & Hb & Hs & Hl & Hne).
  apply (set_full rg name v old); assumption.
Qed.

End Stack.

Section Stack2.

Lemma parseOp_reg64 name rg : name ∈ R64 -> parseOp name rg 8 = Ok (op_reg name 8).
Proof.
  intros H. unfold R64 in H.
  repeat (apply elem_of_cons in H as [->|H]; [vm_compute; reflexivity|]).
  apply elem_of_nil in H. contradiction.
Qed.

Lemma op_reg64 name s :
  name ∈ R64 -> bits s = 64 -> op [name] 0 s = (Ok (op_reg name 8), s).
Proof.
  intros Hn Hb. unfold op, bind, get_regs, get_bits, lift. rewrite Hb.
  change (shr3 64) with 8. cbn [lookup].
  change (default "" ([name] !! 0%nat)) with name. rewrite parseOp_reg64 by exact Hn. reflexivity.
Qed.

Lemma regs_get64 name s x :
  name ∈ R64 -> _r (regs s) !! name = Some x -> regs_bounded (regs s) ->
  regs_get name s = (Ok x, s).
Proof.
  intros Hn Hx Hb. unfold regs_get. rewrite (get64 _ _ x Hn Hx (Hb _ _ Hx)). reflexivity.
Qed.

Lemma regs_set64 name s v old :
  name ∈ R64 -> _r (regs s) !! name = Some old -> regs_bounded (regs s) -> 0 <= v < 2 ^ 64 ->
  regs_set name v s = (Ok tt, with_regs s {| _r := <[name := v]> (_r (regs s)) |}).
Proof.
  intros Hn Hx Hb Hv. unfold regs_set. rewrite (set64 _ _ v old Hn Hx (Hb _ _ Hx) Hv). reflexivity.
Qed.

Lemma bounded_insert rg name v :
  regs_bounded rg -> 0 <= v < 2 ^ 64 -> regs_bounded {| _r := <[name := v]> (_r rg) |}.
Proof. intros Hb Hv. apply map_Forall_insert_2; assumption. Qed.

Lemma rsp_R64 : "rsp" ∈ R64.
Proof. unfold R64. set_solver. Qed.

Lemma readLE_peek m a v n :
  Memory_wf m -> 0 <= n ->
  (forall j, 0 <= j < n -> peek m (a + j) = Z.land (Z.shiftr v (j * 8)) 0xFF) ->
  fst (readLE m a n) = v mod 2 ^ (8 * n).
Proof.
  intros Hwf Hn Hp. unfold readLE.
  rewrite (readLE_loop_spec (Z.to_nat n) 0 a v 0).
  - rewrite Z.land_ones by lia. f_equal. f_equal. lia.
  - exact Hwf.
  - lia.
  - intros j Hj. apply Hp. lia.
  - rewrite Z.mul_0_r. symmetry. apply Z.land_0_r.
Qed.

Lemma writeLE_peek m a v n b :
  Memory_wf m -> 0 <= n ->
  peek (writeLE m a v n) b =
  if (a <=? b) && (b <? a + n) then Z.land (Z.shiftr v ((b - a) * 8)) 0xFF else peek m b.
Proof.
  intros Hwf Hn. unfold writeLE. rewrite writeLE_loop_peek by exact Hwf.
  rewrite Z.add_0_r, Z2Nat.id by lia. reflexivity.
Qed.

Lemma readLE_content m a n b : peek (snd (readLE m a n)) b = peek m b.
Proof. unfold readLE. apply readLE_loop_content. Qed.

Lemma readLE_wf m a n : Memory_wf m -> Memory_wf (snd (readLE m a n)).
Proof. unfold readLE. apply readLE_loop_wf. Qed.

End Stack2.

(** X16. In 64-bit mode, push src followed by pop dst copies src to dst
    through the stack, for 64-bit registers src and dst (dst other than rsp)
    and a stack pointer of at least 8: dst ends with the value of src, rsp is
    back where it was, no other register and no flag changes, the eight bytes
    below the old stack pointer hold the value, and no other byte of memory
    changes. *)
Theorem push_pop_roundtrip (s : X86Sim) (src dst : string) (v r d nextRip : Z) :
  src ∈ R64 -> dst ∈ R64 -> dst <> "rsp" ->
  bits s = 64 -> regs_bounded (regs s) -> Memory_wf (mem s) ->
  _r (regs s) !! src = Some v -> _r (regs s) !! "rsp" = Some r ->
  _r (regs s) !! dst = Some d -> 8 <= r ->
  exists s',
    (exec_case Push "push" [src] 8 nextRip ;;; exec_case Pop "pop" [dst] 8 nextRip) s
      = (Ok tt, s') /\
    _r (regs s') = <[dst := v]> (_r (regs s)) /\
    flags s' = flags s /\
    (forall b, b < r - 8 \/ r <= b -> peek (mem s') b = peek (mem s) b) /\
    fst (readLE (mem s') (r - 8) 8) = v.
Proof.
  intros Hsrc Hdst Hne H64 Hb Hwf Hv Hr Hd Hr8.
  pose proof (Hb _ _ Hv) as Bv. pose proof (Hb _ _ Hr) as Br. pose proof (Hb _ _ Hd) as Bd.
  cbv beta in Bv, Br, Bd.
  cbv beta iota delta [exec_case bind].
  rewrite (op_reg64 src s Hsrc H64). cbn [op_read].
  rewrite (regs_get64 src s v Hsrc Hv Hb).
  rewrite (regs_get64 "rsp" s r rsp_R64 Hr Hb).
  rewrite (regs_set64 "rsp" s (r - 8) r rsp_R64 Hr Hb ltac:(lia)).
  unfold mem_writeLE at 1. cbn [mem with_regs].
  set (s1 := with_mem _ _).
  assert (Hb1 : regs_bounded (regs s1)) by (apply bounded_insert; [exact Hb|lia]).
  assert (Hr1 : _r (regs s1) !! "rsp" = Some (r - 8)) by apply lookup_insert_eq.
  assert (Hd1 : _r (regs s1) !! dst = Some d).
  { cbn. rewrite lookup_insert_ne by congruence. exact Hd. }
  rewrite (regs_get64 "rsp" s1 (r - 8) rsp_R64 Hr1 Hb1).
  rewrite (op_reg64 dst s1 Hdst H64).
  unfold mem_readLE at 1.
  assert (Hwf1 : Memory_wf (mem s1)) by (apply writeLE_loop_wf, Hwf).
  assert (Hrd : fst (readLE (mem s1) (r - 8) 8) = v mod 2 ^ (8 * 8))
    by (apply readLE_writeLE; [exact Hwf|lia]).
  pose proof (readLE_content (mem s1) (r - 8) 8) as Hcont.
  pose proof (readLE_wf (mem s1) (r - 8) 8 Hwf1) as Hwf2.
  destruct (readLE (mem s1) (r - 8) 8) as [v0 m2]. cbn [fst snd] in Hrd, Hcont, Hwf2.
  rewrite Z.mod_small in Hrd by (change (2 ^ (8 * 8)) with (2 ^ 64); lia). subst v0.
  cbn [op_write]. set (s2 := with_mem s1 m2).
  rewrite (regs_set64 dst s2 v d Hdst Hd1 Hb1 Bv).
  set (s3 := with_regs s2 _).
  assert (Hb3 : regs_bounded (regs s3)) by (apply bounded_insert; [exact Hb1|lia]).
  assert (Hr3 : _r (regs s3) !! "rsp" = Some (r - 8)).
  { cbn. rewrite lookup_insert_ne by congruence. apply lookup_insert_eq. }
  rewrite (regs_set64 "rsp" s3 (r - 8 + 8) (r - 8) rsp_R64 Hr3 Hb3 ltac:(lia)).
  eexists. split; [reflexivity|]. cbn [regs mem flags with_regs with_mem s3 s2 s1 _r].
  split.
  { apply map_eq. intros k. replace (r - 8 + 8) with r by lia.
    destruct (decide (k = "rsp")) as [->|Hk].
    - rewrite lookup_insert_eq, lookup_insert_ne by congruence. symmetry. exact Hr.
    - rewrite lookup_insert_ne by congruence.
      destruct (decide (k = dst)) as [->|Hk2].
      + rewrite !lookup_insert_eq. reflexivity.
      + rewrite !lookup_insert_ne by congruence. reflexivity. }
  split; [reflexivity|]. split.
  { intros b Hbr. rewrite Hcont; unfold s1; cbn [mem with_mem]; rewrite writeLE_peek by (try exact Hwf; lia).
    destruct (Z.leb_spec (r - 8) b), (Z.ltb_spec b (r - 8 + 8)); cbn; try reflexivity; lia. }
  rewrite (readLE_peek m2 (r - 8) v 8 Hwf2 ltac:(lia)).
  - apply Z.mod_small. change (2 ^ (8 * 8)) with (2 ^ 64). lia.
  - intros j Hj. rewrite Hcont; unfold s1; cbn [mem with_mem]; rewrite writeLE_peek by (try exact Hwf; lia).
    destruct (Z.leb_spec (r - 8) (r - 8 + j)), (Z.ltb_spec (r - 8 + j) (r - 8 + 8)); cbn; try lia.
    do 2 f_equal. lia.
Qed.

Lemma push_pop_roundtrip_witness :
  exists s',
    (exec_case Push "push" ["rax"] 8 0 ;;; exec_case Pop "pop" ["rbx"] 8 0) stack_state
      = (Ok tt, s') /\
    _r (regs s') !! "rbx" = Some 0xffffffffffffffff.
Proof.
  destruct (push_pop_roundtrip stack_state "rax" "rbx" 0xffffffffffffffff 0x7fff0000 0 0)
    as (s' & H & Hregs & _).
  - unfold R64. set_solver.
  - unfold R64. set_solver.
  - discriminate.
  - reflexivity.
  - refine (bool_decide_unpack _ _). vm_compute. reflexivity.
  - apply map_Forall_empty.
  - reflexivity.
  - reflexivity.
  - reflexivity.
  - lia.
  - exists s'. split; [exact H|]. rewrite Hregs. apply lookup_insert_eq.
Defined.

(** ** HTML escaping *)

Section EscapingFacts.
Import Html.

Section Escaping.

Lemma append_assoc3 (u v w : string) : (u +:+ v) +:+ w = u +:+ (v +:+ w).
Proof.
  induction u as [|y u IH]; [reflexivity|].
  change (String y ((u +:+ v) +:+ w) = String y (u +:+ (v +:+ w))). rewrite IH. reflexivity.
Qed.

Lemma replace_char_app c rep a b :
  replace_char c rep (a +:+ b) = replace_char c rep a +:+ replace_char c rep b.
Proof.
  induction a as [|x a IH]; [reflexivity|].
  change (String x a +:+ b) with (String x (a +:+ b)). cbn [replace_char].
  rewrite IH. destruct (Ascii.eqb x c); [symmetry; apply append_assoc3|reflexivity].
Qed.

Lemma esc_app a b : esc (a +:+ b) = esc a +:+ esc b.
Proof. unfold esc. rewrite !replace_char_app. reflexivity. Qed.

Lemma esc_cons x r :
  esc (String x r) =
  (if Ascii.eqb x "&" then "&amp;"
   else if Ascii.eqb x "<" then "&lt;"
   else if Ascii.eqb x ">" then "&gt;"
   else if Ascii.eqb x quote then "&quot;"
   else String x "") +:+ esc r.
Proof.
  change (String x r) with (String x "" +:+ r). rewrite esc_app. f_equal.
  unfold esc. cbn [replace_char].
  destruct (Ascii.eqb_spec x "&") as [->|H1]; [reflexivity|].
  cbn [replace_char].
  destruct (Ascii.eqb_spec x "<") as [->|H2]; [reflexivity|].
  cbn [replace_char].
  destruct (Ascii.eqb_spec x ">") as [->|H3]; [reflexivity|].
  cbn [replace_char].
  destruct (Ascii.eqb_spec x quote) as [->|H4]; reflexivity.
Qed.

Lemma esc_chars_safe s :
  Forall (fun c => c <> "<"%char /\ c <> ">"%char /\ c <> quote) (chars (esc s)).
Proof.
  induction s as [|x r IH]; [apply Forall_nil_2|]. rewrite esc_cons.
  assert (Happ : forall u w, chars (u +:+ w) = (chars u ++ chars w)%list).
  { intros u w. induction u as [|c u IHu]; simpl; [reflexivity|].
    unfold chars in *. simpl. rewrite IHu. reflexivity. }
  rewrite Happ. apply Forall_app. split; [|exact IH].
  destruct (Ascii.eqb_spec x "&"); [repeat (apply Forall_cons; split; [repeat split; discriminate|]); apply Forall_nil_2|].
  destruct (Ascii.eqb_spec x "<"); [repeat (apply Forall_cons; split; [repeat split; discriminate|]); apply Forall_nil_2|].
  destruct (Ascii.eqb_spec x ">"); [repeat (apply Forall_cons; split; [repeat split; discriminate|]); apply Forall_nil_2|].
  destruct (Ascii.eqb_spec x quote); [repeat (apply Forall_cons; split; [repeat split; discriminate|]); apply Forall_nil_2|].
  apply Forall_cons. split; [auto|apply Forall_nil_2].
Qed.

Lemma esc_plain s : forallb (fun c => negb (special c)) (chars s) = true -> esc s = s.
Proof.
  induction s as [|x r IH]; [reflexivity|]. intros H.
  change (chars (String x r)) with (x :: chars r) in H. cbn [forallb] in H.
  apply andb_prop in H as [Hx Hr]. rewrite esc_cons, (IH Hr).
  unfold special in Hx. apply negb_true_iff in Hx.
  apply orb_false_iff in Hx as [Hx H4]. apply orb_false_iff in Hx as [Hx H3].
  apply orb_false_iff in Hx as [H1 H2]. rewrite H1, H2, H3, H4. reflexivity.
Qed.

Lemma esc_head x r :
  exists c rest, esc (String x r) = String c rest /\
    (special x = false -> c = x /\ rest = esc r) /\
    (special x = true -> c = "&"%char /\
       exists t, rest = t +:+ esc r /\
         ((x = "&"%char /\ t = "amp;") \/ (x = "<"%char /\ t = "lt;") \/
          (x = ">"%char /\ t = "gt;") \/ (x = quote /\ t = "quot;"))).
Proof.
  rewrite esc_cons. unfold special.
  destruct (Ascii.eqb_spec x "&") as [->|H1].
  { eexists _, _. split; [reflexivity|]. split; [discriminate|]. intros _. split; [reflexivity|].
    exists "amp;". split; [reflexivity|]. auto. }
  destruct (Ascii.eqb_spec x "<") as [->|H2].
  { eexists _, _. split; [reflexivity|]. split; [discriminate|]. intros _. split; [reflexivity|].
    exists "lt;". split; [reflexivity|]. auto. }
  destruct (Ascii.eqb_spec x ">") as [->|H3].
  { eexists _, _. split; [reflexivity|]. split; [discriminate|]. intros _. split; [reflexivity|].
    exists "gt;". split; [reflexivity|]. auto. }
  destruct (Ascii.eqb_spec x quote) as [->|H4].
  { eexists _, _. split; [reflexivity|]. split; [discriminate|]. intros _. split; [reflexivity|].
    exists "quot;". split; [reflexivity|]. auto 6. }
  eexists _, _. split; [reflexivity|]. split; [auto|discriminate].
Qed.

Lemma esc_inj s1 s2 : esc s1 = esc s2 -> s1 = s2.
Proof.
  revert s2. induction s1 as [|x r IH]; intros s2 H.
  - destruct s2 as [|y r2]; [reflexivity|].
    destruct (esc_head y r2) as (c & rest & E & _). rewrite E in H. discriminate.
  - destruct s2 as [|y r2].
    { destruct (esc_head x r) as (c & rest & E & _). rewrite E in H. discriminate. }
    destruct (esc_head x r) as (c1 & t1 & E1 & Hp1 & Hs1).
    destruct (esc_head y r2) as (c2 & t2 & E2 & Hp2 & Hs2).
    rewrite E1, E2 in H. injection H as Hc Ht. subst c2.
    destruct (special x) eqn:Sx, (special y) eqn:Sy.
    + destruct (Hs1 eq_refl) as (_ & u1 & -> & C1). destruct (Hs2 eq_refl) as (_ & u2 & Ht2 & C2).
      rewrite Ht2 in Ht.
      destruct C1 as [[-> ->]|[[-> ->]|[[-> ->]|[-> ->]]]];
        destruct C2 as [[-> ->]|[[-> ->]|[[-> ->]|[-> ->]]]];
        try discriminate; cbn in Ht; injection Ht as Ht; f_equal; apply IH, Ht.
    + destruct (Hs1 eq_refl) as (-> & _). destruct (Hp2 eq_refl) as (<- & _).
      unfold special in Sy. discriminate.
    + destruct (Hp1 eq_refl) as (-> & _). destruct (Hs2 eq_refl) as (-> & _).
      unfold special in Sx. discriminate.
    + destruct (Hp1 eq_refl) as (-> & ->). destruct (Hp2 eq_refl) as (<- & ->).
      f_equal. apply IH, Ht.
Qed.

End Escaping.

(** X17. esc makes text safe to splice into markup and loses nothing: its
    output contains no <, > or double quote; it commutes with concatenation;
    it leaves text without the four special characters as it is; and two
    texts with the same escaped form are the same text. *)
Theorem esc_safe (s t : string) :
  Forall (fun c => c <> "<"%char /\ c <> ">"%char /\ c <> quote) (chars (esc s)) /\
  esc (s +:+ t) = esc s +:+ esc t /\
  (forallb (fun c => negb (special c)) (chars s) = true -> esc s = s) /\
  (esc s = esc t -> s = t).
Proof.
  split; [apply esc_chars_safe|]. split; [apply esc_app|].
  split; [apply esc_plain|apply esc_inj].
Qed.

End EscapingFacts.

(** ** Cross-references *)

Section XrefFurther.
Import Xref.

Section XrefTable.

Lemma buildXrefs_fold instructions bits (m : gmap string (list xref)) t :
  fold_left
    (fun xrefs inst =>
       let mnem := trim (toLowerCase (mnemonic inst)) in
       let type := if has CALL_SET mnem then Some call
                   else if has JMP_SET mnem then Some jmp
                   else if has JCC_SET mnem then Some jcc
                   else None in
       match type with
       | None => xrefs
       | Some type =>
           match parseTarget (trim (operands inst)) bits with
           | None => xrefs
           | Some target =>
               let old := default [] (xrefs !! target) in
               <[target := (old ++ [{| from := address inst; xtype := type |}])%list]> xrefs
           end
       end)
    instructions m !! t =
  match omap (ref_to bits t) instructions with
  | [] => m !! t
  | l => Some (default [] (m !! t) ++ l)%list
  end.
Proof.
  revert m. induction instructions as [|inst rest IH]; intros m; [reflexivity|].
  cbn [fold_left]. rewrite IH. clear IH.
  change (omap (ref_to bits t) (inst :: rest))
    with (match ref_to bits t inst with
          | Some y => y :: omap (ref_to bits t) rest
          | None => omap (ref_to bits t) rest
          end).
  remember (omap (ref_to bits t) rest) as tl eqn:Etl. clear Etl.
  unfold ref_to, kind. cbv zeta.
  destruct (if has CALL_SET _ then _ else _) as [ty|]; [|reflexivity].
  destruct (parseTarget (trim (operands inst)) bits) as [t'|] eqn:E.
  - destruct (decide (t' = t)) as [->|Hne].
    + rewrite bool_decide_eq_true_2 by reflexivity. rewrite lookup_insert_eq. cbn.
      destruct tl; [reflexivity|].
      rewrite <- app_assoc. reflexivity.
    + rewrite bool_decide_eq_false_2 by congruence.
      rewrite lookup_insert_ne by exact Hne. reflexivity.
  - rewrite bool_decide_eq_false_2 by discriminate. reflexivity.
Qed.

End XrefTable.

(** X18. The cross-reference table holds, under each target, the references to
    it in program order: one entry for every call, jmp or conditional jump
    whose operand parses to that target, with the address of the referencing
    instruction.  A target that nothing refers to has no entry, so no entry is
    empty. *)
Theorem buildXrefs_table (instructions : list Instruction) (bits : Z) (t : string) :
  buildXrefs instructions bits !! t =
  match omap (ref_to bits t) instructions with
  | [] => None
  | l => Some l
  end.
Proof.
  unfold buildXrefs. rewrite buildXrefs_fold, lookup_empty.
  destruct (omap _ _); reflexivity.
Qed.

End XrefFurther.

(** ** Function labels and byte signatures *)

Section SignaturesFurther.
Import Signatures.

Section Functions.

Lemma detect_loop_cons inst rest ab funcs :
  detect_loop (inst :: rest) ab funcs =
  detect_loop rest
    (if ends_function inst then true
     else if ab && negb (String.eqb (norm_mnem inst) "int3") then false else ab)
    (if ab && negb (String.eqb (norm_mnem inst) "int3")
     then <[address inst := label_of (address inst)]> funcs else funcs).
Proof.
  cbn [detect_loop]. unfold ends_function, norm_mnem, label_of. cbv zeta.
  destruct (ab && _); reflexivity.
Qed.

Lemma detect_loop_sound l ab funcs (P : string -> string -> Prop) :
  (forall inst, inst ∈ l -> norm_mnem inst <> "int3" -> P (address inst) (label_of (address inst))) ->
  map_Forall P funcs -> map_Forall P (detect_loop l ab funcs).
Proof.
  revert ab funcs. induction l as [|inst rest IH]; intros ab funcs HP Hf; [exact Hf|].
  rewrite detect_loop_cons. apply IH.
  - intros i Hi. apply HP. right. exact Hi.
  - destruct ab; cbn [andb]; [|exact Hf].
    destruct (String.eqb_spec (norm_mnem inst) "int3"); cbn [negb]; [exact Hf|].
    apply map_Forall_insert_2; [|exact Hf]. apply HP; [left|assumption].
Qed.

Lemma detect_loop_keeps l ab funcs a :
  is_Some (funcs !! a) -> is_Some (detect_loop l ab funcs !! a).
Proof.
  revert ab funcs. induction l as [|inst rest IH]; intros ab funcs Hf; [exact Hf|].
  rewrite detect_loop_cons. apply IH.
  destruct (ab && _); [|exact Hf].
  destruct (decide (address inst = a)) as [->|Hne].
  - rewrite lookup_insert_eq. eauto.
  - rewrite lookup_insert_ne by exact Hne. exact Hf.
Qed.

Lemma detect_loop_boundary i rest funcs :
  norm_mnem i <> "int3" -> is_Some (detect_loop (i :: rest) true funcs !! address i).
Proof.
  intros Hi. rewrite detect_loop_cons. apply detect_loop_keeps.
  cbn [andb]. destruct (String.eqb_spec (norm_mnem i) "int3"); [contradiction|].
  cbn [negb]. rewrite lookup_insert_eq. eauto.
Qed.

Lemma detect_loop_after pre e rest ab funcs :
  ends_function e = true ->
  exists funcs', detect_loop (pre ++ e :: rest) ab funcs = detect_loop rest true funcs'.
Proof.
  intros He. revert ab funcs. induction pre as [|x pre IH]; intros ab funcs.
  - cbn [app]. rewrite detect_loop_cons, He. eauto.
  - cbn [app]. rewrite detect_loop_cons. apply IH.
Qed.

End Functions.

(** X19. detectFunctions labels only addresses of instructions that are not
    int3 padding, each with sub_ and the address stripped of 0x and leading
    zeros (0 if nothing is left); it labels the first instruction of the list
    and every instruction that follows a return, ud2, hlt or int3, unless
    the instruction is int3 itself. *)
Theorem detectFunctions_labels (instructions : list Instruction) :
  (forall a lbl, detectFunctions instructions !! a = Some lbl ->
     lbl = label_of a /\
     exists inst, inst ∈ instructions /\ address inst = a /\ norm_mnem inst <> "int3") /\
  (forall i rest, instructions = i :: rest -> norm_mnem i <> "int3" ->
     is_Some (detectFunctions instructions !! address i)) /\
  (forall pre e i rest, instructions = (pre ++ e :: i :: rest)%list ->
     ends_function e = true -> norm_mnem i <> "int3" ->
     is_Some (detectFunctions instructions !! address i)).
Proof.
  split; [|split].
  - intros a lbl H.
    assert (Hall : map_Forall
              (fun a lbl => lbl = label_of a /\
                 exists inst, inst ∈ instructions /\ address inst = a /\ norm_mnem inst <> "int3")
              (detectFunctions instructions)).
    { apply detect_loop_sound; [|apply map_Forall_empty].
      intros inst Hin Hne. split; [reflexivity|]. exists inst. auto. }
    exact (Hall a lbl H).
  - intros i rest -> Hi. apply detect_loop_boundary, Hi.
  - intros pre e i rest -> He Hi. unfold detectFunctions.
    destruct (detect_loop_after pre e (i :: rest) true ∅ He) as [funcs' ->].
    apply detect_loop_boundary, Hi.
Qed.

Section ByteSignatures.

Lemma match_at_spec b i pat j :
  match_at b i pat j = true <->
  (forall (k : nat) p, pat !! k = Some p -> byte_at b (i + j + Z.of_nat k) = Some p).
Proof.
  revert j. induction pat as [|p0 pat IH]; intros j.
  - split; [intros _ k p H; discriminate|reflexivity].
  - cbn [match_at]. split.
    + intros H k p Hk. destruct (byte_at b (i + j)) as [x|] eqn:E; [|discriminate].
      destruct (Z.eqb_spec x p0) as [->|]; [|discriminate].
      destruct k as [|k].
      * injection Hk as <-. rewrite Z.add_0_r. exact E.
      * apply (proj1 (IH (j + 1))) with (k := k) (p := p) in H; [|exact Hk].
        rewrite <- H. f_equal. lia.
    + intros H. pose proof (H 0%nat p0 eq_refl) as H0. rewrite Z.add_0_r in H0.
      rewrite H0, Z.eqb_refl. apply IH. intros k p Hk.
      rewrite <- (H (S k) p Hk). f_equal. lia.
Qed.

Lemma match_at_stands b i pat : match_at b i pat 0 = true <-> stands_at b i pat.
Proof.
  rewrite match_at_spec. unfold stands_at. split; intros H k p Hk.
  - rewrite <- (H k p Hk). f_equal. lia.
  - rewrite <- (H k p Hk). f_equal. lia.
Qed.

Lemma scan_sound fuel b baseVA bits limit sig i0 :
  0 <= i0 ->
  Forall (fun h => exists i, i0 <= i /\ i + Z.of_nat (length (sig_bytes sig)) < limit /\
                      stands_at b i (sig_bytes sig) /\ h = hit_at baseVA bits sig i)
    (scan fuel b baseVA (if bits =? 64 then 16%nat else 8%nat) limit sig i0).
Proof.
  revert i0. induction fuel as [|fuel IH]; intros i0 Hi0; [apply Forall_nil_2|].
  cbn [scan]. cbv zeta.
  destruct (Z.ltb_spec i0 (limit - Z.of_nat (length (sig_bytes sig)))) as [Hlt|];
    [|apply Forall_nil_2].
  destruct (match_at b i0 (sig_bytes sig) 0) eqn:Em.
  - apply Forall_cons. split.
    + exists i0. split; [lia|]. split; [lia|]. split; [apply match_at_stands, Em|reflexivity].
    + destruct (length (sig_bytes sig)) as [|n] eqn:El.
      * eapply Forall_impl; [apply (IH (i0 + (Z.of_nat 0 - 1) + 1)); simpl; lia|].
        intros h (i & H1 & H2 & H3 & H4). exists i. simpl in *. repeat split; try assumption; lia.
      * eapply Forall_impl; [apply (IH (i0 + (Z.of_nat (S n) - 1) + 1)); lia|].
        intros h (i & H1 & H2 & H3 & H4). exists i. repeat split; try assumption; lia.
  - eapply Forall_impl; [apply (IH (i0 + 1)); lia|].
    intros h (i & H1 & H2 & H3 & H4). exists i. repeat split; try assumption; lia.
Qed.

Lemma scan_complete fuel b baseVA bits limit sig p0 p1 i0 i :
  sig_bytes sig = [p0; p1] -> p0 <> p1 ->
  (Z.to_nat (limit - i0) <= fuel)%nat ->
  0 <= i0 <= i -> i + 2 < limit -> stands_at b i (sig_bytes sig) ->
  hit_at baseVA bits sig i ∈
    scan fuel b baseVA (if bits =? 64 then 16%nat else 8%nat) limit sig i0.
Proof.
  intros Hsig Hne. revert i0. induction fuel as [|fuel IH]; intros i0 Hf Hi0 Hi Hst; [lia|].
  cbn [scan]. cbv zeta. rewrite Hsig. cbn [length].
  destruct (Z.ltb_spec i0 (limit - Z.of_nat 2)); [|lia].
  rewrite <- Hsig.
  destruct (match_at b i0 (sig_bytes sig) 0) eqn:Em.
  - destruct (Z.eq_dec i0 i) as [->|Hd]; [left|].
    right. apply IH; [lia| |lia|exact Hst].
    assert (i <> i0 + 1).
    { intros ->. apply match_at_stands in Em. rewrite Hsig in Em, Hst.
      pose proof (Em 1%nat p1 eq_refl) as E1. pose proof (Hst 0%nat p0 eq_refl) as E0.
      rewrite Z.add_0_r in E0. change (Z.of_nat 1) with 1 in E1. congruence. }
    lia.
  - destruct (Z.eq_dec i0 i) as [->|Hd].
    + apply match_at_stands in Hst. congruence.
    + apply IH; [lia|lia|lia|exact Hst].
Qed.

Lemma BYTE_SIGS_shape :
  Forall (fun sig => exists p0 p1, sig_bytes sig = [p0; p1] /\ p0 <> p1) BYTE_SIGS.
Proof.
  unfold BYTE_SIGS.
  repeat (apply Forall_cons; split; [eexists _, _; split; [reflexivity|discriminate]|]).
  apply Forall_nil_2.
Qed.

End ByteSignatures.

(** X20. Every entry of matchByteSignatures is a true occurrence: the bytes of
    one of the known patterns stand in the buffer at an offset i, the entry
    carries the pattern's name and note and the address baseVA + i, and the
    occurrence ends before the last byte looked at (i + length < limit). *)
Theorem matchByteSignatures_sound (codeBuffer : buffer) (baseVA bits : Z) :
  Forall (fun h => exists sig i,
            sig ∈ BYTE_SIGS /\ 0 <= i /\
            i + Z.of_nat (length (sig_bytes sig)) < Z.min (blen codeBuffer) (1024 * 1024) /\
            stands_at codeBuffer i (sig_bytes sig) /\ h = hit_at baseVA bits sig i)
    (matchByteSignatures codeBuffer baseVA bits).
Proof.
  unfold matchByteSignatures. cbv zeta. apply Forall_forall. intros h Hh.
  apply list_elem_of_In, in_flat_map in Hh. destruct Hh as (sig & Hsig & Hin).
  pose proof (scan_sound (Z.to_nat (Z.min (blen codeBuffer) (1024 * 1024))) codeBuffer
                baseVA bits (Z.min (blen codeBuffer) (1024 * 1024)) sig 0 ltac:(lia)) as Hs.
  rewrite Forall_forall in Hs. apply list_elem_of_In in Hin.
  destruct (Hs h Hin) as (i & H1 & H2 & H3 & H4).
  exists sig, i. split; [apply list_elem_of_In, Hsig|]. auto.
Qed.

(** X21. Every occurrence of a known pattern that ends before the last byte
    looked at is reported: the scan skips none, since no pattern overlaps a
    shifted copy of itself. *)
Theorem matchByteSignatures_complete (codeBuffer : buffer) (baseVA bits : Z)
    (sig : Signatures.byte_sig) (i : Z) :
  sig ∈ BYTE_SIGS -> 0 <= i ->
  i + Z.of_nat (length (sig_bytes sig)) < Z.min (blen codeBuffer) (1024 * 1024) ->
  stands_at codeBuffer i (sig_bytes sig) ->
  hit_at baseVA bits sig i ∈ matchByteSignatures codeBuffer baseVA bits.
Proof.
  intros Hsig Hi Hlim Hst.
  pose proof BYTE_SIGS_shape as Hshape. rewrite Forall_forall in Hshape.
  destruct (Hshape sig Hsig) as (p0 & p1 & Hb & Hne).
  unfold matchByteSignatures. cbv zeta. apply list_elem_of_In, in_flat_map.
  exists sig. split; [apply list_elem_of_In, Hsig|]. apply list_elem_of_In.
  rewrite Hb in Hlim. cbn [length] in Hlim.
  apply (scan_complete _ _ _ _ _ _ p0 p1); try assumption; lia.
Qed.

Lemma matchByteSignatures_complete_witness :
  hit_at 0x1000 32 {| sig_bytes := [0x0f; 0x05]; sig_name := "syscall"; sig_note := "Linux syscall" |} 1
    ∈ matchByteSignatures [Byte.x90; Byte.x0f; Byte.x05; Byte.xc3] 0x1000 32.
Proof.
  apply matchByteSignatures_complete.
  - unfold BYTE_SIGS. do 4 right. left.
  - lia.
  - vm_compute. reflexivity.
  - intros k p Hk. destruct k as [|[|k]]; cbn in Hk; try discriminate;
      injection Hk as <-; reflexivity.
Defined.

End SignaturesFurther.

(** ** Control-flow graph *)

Section GraphFurther.
Import Graph.

Section CFG.

Lemma mark_starts_mono rest bits (starts : gset string) x :
  x ∈ starts -> x ∈ mark_starts rest bits starts.
Proof.
  revert starts. induction rest as [|inst rest IH]; intros starts Hx; [exact Hx|].
  cbn [mark_starts]. apply IH.
  destruct (_ || _); [|exact Hx].
  destruct (parseTarget _ _); destruct rest;
    repeat (apply elem_of_union; right); exact Hx.
Qed.

Lemma build_blocks_flat rest starts bs c :
  exists bs' c', build_blocks rest starts bs (Some c) = (bs', Some c') /\
    flat bs' (Some c') = (flat bs (Some c) ++ rest)%list /\
    (Forall fresh_block bs -> fresh_block c -> Forall fresh_block bs' /\ fresh_block c').
Proof.
  revert bs c. induction rest as [|inst rest IH]; intros bs c.
  - exists bs, c. split; [reflexivity|]. split; [rewrite app_nil_r; reflexivity|]. auto.
  - cbn [build_blocks]. destruct (bool_decide _).
    + destruct (IH (bs ++ [c])%list {| id := address inst; insts := [inst]; succs := [] |})
        as (bs' & c' & Hb & Hf & Hw).
      exists bs', c'. split; [exact Hb|]. split.
      * rewrite Hf. unfold flat. rewrite map_app, concat_app. cbn.
        rewrite app_nil_r, <- !app_assoc. reflexivity.
      * intros Hbs Hc. apply Hw.
        -- apply Forall_app. split; [exact Hbs|]. apply Forall_cons. split; [exact Hc|apply Forall_nil_2].
        -- split; [|reflexivity]. exists inst, []. split; reflexivity.
    + destruct (IH bs {| id := id c; insts := (insts c ++ [inst])%list; succs := succs c |})
        as (bs' & c' & Hb & Hf & Hw).
      exists bs', c'. split; [exact Hb|]. split.
      * rewrite Hf. unfold flat. cbn. rewrite <- !app_assoc. reflexivity.
      * intros Hbs Hc. apply Hw; [exact Hbs|].
        destruct Hc as [(i & r & Hi & Hid) Hs]. split; [|exact Hs].
        exists i, (r ++ [inst])%list. cbn. rewrite Hi. split; [reflexivity|exact Hid].
Qed.

Lemma edges_closed instructions bits ids b :
  Forall (fun s => to s ∈ ids) (edges instructions bits ids b) /\
  (length (edges instructions bits ids b) <= 2)%nat.
Proof.
  unfold edges. destruct (last (insts b)) as [lst|]; [|split; [apply Forall_nil_2|simpl; lia]].
  cbv zeta.
  set (fe := match address <$> Sim.at_index instructions _ with
             | Some a => if truthy_str a && bool_decide (a ∈ ids) then [{| to := a; etype := fall |}] else []
             | None => [] end).
  set (je := match parseTarget (operands lst) bits with
             | Some t => if bool_decide (t ∈ ids) then [{| to := t; etype := jump |}] else []
             | None => [] end).
  assert (Hfe : Forall (fun s => to s ∈ ids) fe /\ (length fe <= 1)%nat).
  { subst fe. destruct (address <$> _) as [a|]; [|split; [apply Forall_nil_2|simpl; lia]].
    destruct (truthy_str a); cbn [andb]; [|split; [apply Forall_nil_2|simpl; lia]].
    destruct (bool_decide_reflect (a ∈ ids)); [|split; [apply Forall_nil_2|simpl; lia]].
    split; [|simpl; lia]. apply Forall_cons. split; [assumption|apply Forall_nil_2]. }
  assert (Hje : Forall (fun s => to s ∈ ids) je /\ (length je <= 1)%nat).
  { subst je. destruct (parseTarget _ _) as [t|]; [|split; [apply Forall_nil_2|simpl; lia]].
    destruct (bool_decide_reflect (t ∈ ids)); [|split; [apply Forall_nil_2|simpl; lia]].
    split; [|simpl; lia]. apply Forall_cons. split; [assumption|apply Forall_nil_2]. }
  destruct Hfe as [Hf1 Hf2], Hje as [Hj1 Hj2].
  destruct (has JCC_ALL _).
  - split; [apply Forall_app; split; assumption|rewrite length_app; lia].
  - destruct (String.eqb _ "jmp"); [split; [assumption|lia]|].
    destruct (negb _); [split; [assumption|lia]|split; [apply Forall_nil_2|simpl; lia]].
Qed.

Lemma blockMap_dom (bs : list block) (m : gmap string block) k :
  is_Some (fold_left (fun m b => <[id b := b]> m) bs m !! k) <->
  k ∈ map id bs \/ is_Some (m !! k).
Proof.
  revert m. induction bs as [|b bs IH]; intros m.
  - cbn. split; [auto|]. intros [H|H]; [inversion H|exact H].
  - cbn [fold_left map]. rewrite IH. rewrite elem_of_cons.
    destruct (decide (k = id b)) as [->|Hne].
    + rewrite lookup_insert_eq. split; [auto|]. intros _. right. eauto.
    + rewrite lookup_insert_ne by congruence. tauto.
Qed.

Lemma buildCFG_spec first rest bits :
  let g := buildCFG (first :: rest) bits in
  concat (map insts (blocks g)) = first :: rest /\
  Forall (fun b => exists i r, insts b = i :: r /\ id b = address i) (blocks g) /\
  Forall (fun b => (length (succs b) <= 2)%nat /\
                   Forall (fun s => to s ∈ map id (blocks g) /\
                                    is_Some (blockMap g !! to s)) (succs b)) (blocks g).
Proof.
  cbv zeta. unfold buildCFG.
  set (starts := mark_starts (first :: rest) bits {[address first]}).
  assert (Hfirst : address first ∈ starts) by (apply mark_starts_mono, elem_of_singleton; reflexivity).
  cbn [build_blocks]. rewrite (bool_decide_eq_true_2 _ Hfirst).
  destruct (build_blocks_flat rest starts [] {| id := address first; insts := [first]; succs := [] |})
    as (bs' & c' & Hb & Hf & Hw).
  cbn [app] in Hb. rewrite Hb.
  destruct Hw as [Hw1 Hw2]; [apply Forall_nil_2|split; [exists first, []; split; reflexivity|reflexivity]|].
  set (bs := (bs' ++ [c'])%list).
  assert (Hfresh : Forall fresh_block bs).
  { apply Forall_app. split; [exact Hw1|]. apply Forall_cons. split; [exact Hw2|apply Forall_nil_2]. }
  assert (Hflat : concat (map insts bs) = first :: rest).
  { unfold flat in Hf. cbn in Hf. subst bs. rewrite map_app, concat_app. cbn.
    rewrite app_nil_r. exact Hf. }
  cbn [blocks blockMap].
  set (ids := list_to_set (map id bs) : gset string).
  set (fin := fun b => {| id := id b; insts := insts b;
                          succs := (succs b ++ edges (first :: rest) bits ids b)%list |}).
  assert (Hid : map id (map fin bs) = map id bs).
  { rewrite map_map. reflexivity. }
  split; [rewrite map_map; exact Hflat|].
  split.
  - apply Forall_map. eapply Forall_impl; [exact Hfresh|]. intros b [Hb' _]. exact Hb'.
  - apply Forall_map. eapply Forall_impl; [exact Hfresh|]. intros b [_ Hs].
    cbn [succs fin]. rewrite Hs. cbn [app].
    destruct (edges_closed (first :: rest) bits ids b) as [Hc Hl].
    split; [exact Hl|]. eapply Forall_impl; [exact Hc|]. intros s Hin.
    assert (Hin' : to s ∈ map id bs) by (subst ids; apply elem_of_list_to_set in Hin; exact Hin).
    rewrite Hid. split; [exact Hin'|].
    apply blockMap_dom. left. rewrite Hid. exact Hin'.
Qed.

End CFG.

(** X22. buildCFG cuts the instruction list into consecutive blocks: the blocks'
    instructions, in order, are the list itself; no block is empty and each
    is named after the address of its first instruction. *)
Theorem buildCFG_partition (instructions : list Instruction) (bits : Z) :
  let g := buildCFG instructions bits in
  concat (map insts (blocks g)) = instructions /\
  Forall (fun b => exists i r, insts b = i :: r /\ id b = address i) (blocks g).
Proof.
  destruct instructions as [|first rest].
  - cbv zeta. cbn. split; [reflexivity|apply Forall_nil_2].
  - pose proof (buildCFG_spec first rest bits) as H. cbv zeta in *. tauto.
Qed.

(** X23. No edge of the graph dangles: a block has at most two successors, and
    every successor names a block of the graph, which the block map holds. *)
Theorem buildCFG_edges_closed (instructions : list Instruction) (bits : Z) :
  let g := buildCFG instructions bits in
  Forall (fun b => (length (succs b) <= 2)%nat /\
                   Forall (fun s => to s ∈ map id (blocks g) /\
                                    is_Some (blockMap g !! to s)) (succs b)) (blocks g).
Proof.
  destruct instructions as [|first rest].
  - cbv zeta. cbn. apply Forall_nil_2.
  - pose proof (buildCFG_spec first rest bits) as H. cbv zeta in *. tauto.
Qed.

End GraphFurther.

(** ** Parsers and pipeline *)

Section AnalyzerFurther.
Import Analyzer.

Section CodeSection.

Lemma find_elem {A} (p : A -> bool) l x : List.find p l = Some x -> x ∈ l /\ p x = true.
Proof. intros H. apply find_some in H as [H1 H2]. split; [apply list_elem_of_In, H1|exact H2]. Qed.

Lemma find_none_all {A} (p : A -> bool) l : List.find p l = None -> Forall (fun x => p x = false) l.
Proof.
  intros H. apply Forall_forall. intros x Hx. apply (find_none _ _ H). apply list_elem_of_In, Hx.
Qed.

End CodeSection.

(** X24. findCodeSection returns a section of the list: one named .text or
    __text if there is any; otherwise one that is marked as code and has raw
    bytes if there is any; otherwise one with raw bytes; and none only when
    no section has such a name or raw bytes. *)
Theorem findCodeSection_choice (sections : list Section_) :
  match findCodeSection sections with
  | Some cs =>
      cs ∈ sections /\
      (is_text cs = true \/
       Forall (fun s => is_text s = false) sections /\ 0 < rawSize cs /\
       (isCode cs = true \/ Forall (fun s => isCode s = false \/ rawSize s <= 0) sections))
  | None => Forall (fun s => is_text s = false /\ rawSize s <= 0) sections
  end.
Proof.
  unfold findCodeSection.
  change (fun s : Section_ => (name s =? ".text")%string || (name s =? "__text")%string)
    with is_text.
  destruct (List.find is_text sections) as [cs|] eqn:E1; cbn [or_else].
  { apply find_elem in E1 as [Hin Ht]. split; [exact Hin|left; exact Ht]. }
  apply find_none_all in E1.
  destruct (List.find (fun s => isCode s && (0 <? rawSize s)) sections) as [cs|] eqn:E2;
    cbn [or_else].
  { apply find_elem in E2 as [Hin Hc]. apply andb_prop in Hc as [Hc Hr].
    apply Z.ltb_lt in Hr. split; [exact Hin|]. right. auto. }
  apply find_none_all in E2.
  assert (Hno : Forall (fun s => isCode s = false \/ rawSize s <= 0) sections).
  { eapply Forall_impl; [exact E2|]. intros s Hs. cbv beta in Hs.
    apply andb_false_iff in Hs as [Hs|Hs]; [left; exact Hs|right].
    apply Z.ltb_ge in Hs. exact Hs. }
  destruct (List.find (fun s => 0 <? rawSize s) sections) as [cs|] eqn:E3.
  { apply find_elem in E3 as [Hin Hr]. apply Z.ltb_lt in Hr. split; [exact Hin|]. right. auto. }
  apply find_none_all in E3. apply Forall_forall. intros s Hs.
  rewrite Forall_forall in E1, E3. split; [apply E1, Hs|]. apply Z.ltb_ge, E3, Hs.
Qed.

Section Headers.

Lemma byte_val_range x : 0 <= byte_val x < 256.
Proof. unfold byte_val. pose proof (Byte.to_N_bounded x). lia. Qed.

Lemma read_bytes_spec b off n l :
  read_bytes b off n = Ok l ->
  0 <= off /\ off + Z.of_nat n <= blen b /\ length l = n /\
  (forall k, (k < n)%nat -> byte_at b (off + Z.of_nat k) = l !! k) /\
  Forall (fun v => 0 <= v < 256) l.
Proof.
  unfold read_bytes. destruct (Z.ltb_spec off 0) as [|Ho]; [discriminate|].
  destruct (Z.ltb_spec (blen b) (off + Z.of_nat n)) as [|Hn]; [discriminate|].
  cbn [orb]. intros H. injection H as <-. unfold blen in *.
  split; [lia|]. split; [lia|]. split.
  - rewrite length_map, length_take, length_drop. lia.
  - split.
    + intros k Hk. unfold byte_at. destruct (Z.ltb_spec (off + Z.of_nat k) 0); [lia|].
      rewrite list_lookup_fmap, lookup_take_lt by exact Hk. rewrite lookup_drop.
      do 2 f_equal. lia.
    + apply Forall_forall. intros v Hv. apply list_elem_of_fmap in Hv as (x & -> & _).
      apply byte_val_range.
Qed.

Lemma readUInt16LE_bytes b off v :
  readUInt16LE b off = Ok v ->
  exists v0 v1, byte_at b off = Some v0 /\ byte_at b (off + 1) = Some v1 /\
    0 <= v0 < 256 /\ 0 <= v1 < 256 /\ v = v0 + 256 * v1 /\ off + 2 <= blen b.
Proof.
  unfold readUInt16LE. destruct (read_bytes b off 2) as [l|] eqn:E; [|discriminate].
  cbn [rbind]. intros H. injection H as <-.
  apply read_bytes_spec in E as (H0 & H1 & Hl & Hk & Hr).
  destruct l as [|v0 [|v1 [|]]]; try discriminate.
  exists v0, v1. pose proof (Hk 0%nat ltac:(lia)) as K0. pose proof (Hk 1%nat ltac:(lia)) as K1.
  rewrite Z.add_0_r in K0. change (Z.of_nat 1) with 1 in K1.
  apply Forall_cons in Hr as [R0 Hr]. apply Forall_cons in Hr as [R1 _].
  repeat split; try assumption; try lia. cbn. lia.
Qed.

Lemma section_loop_length k b base i acc r :
  PE.section_loop k b base i acc = Ok r -> (length r <= length acc + k)%nat.
Proof.
  revert i acc. induction k as [|k IH]; intros i acc H; cbn [PE.section_loop] in H.
  - injection H as <-. lia.
  - destruct (PE.read_section b base i) as [[s|e]|]; try discriminate.
    + cbn [rbind] in H. apply IH in H. rewrite length_app in H. cbn in H. lia.
    + injection H as <-. lia.
Qed.

End Headers.

(** X25. What parsePE accepts, detectFormat calls a PE file; the result has the
    format PE, a bit width of 32 or 64, the section count that the COFF
    header states (the 16-bit field at e_lfanew + 6), and at most that many
    section entries. *)
Theorem parsePE_accepts (b : buffer) (p : Parsed) :
  PE.parsePE b = Ok p ->
  dtype (detectFormat b) = pe /\ format p = "PE" /\
  (pbits p = 32 \/ pbits p = 64) /\
  (exists e_lfanew,
     readUInt32LE b 0x3c = Ok e_lfanew /\
     readUInt16LE b (e_lfanew + 6) = Ok (numSections p)) /\
  0 <= numSections p < 65536 /\
  Z.of_nat (length (sections p)) <= numSections p.
Proof.
  unfold PE.parsePE. intros H.
  destruct (Z.ltb_spec (blen b) 64) as [|Hlen]; [discriminate|].
  destruct (readUInt16LE b 0) as [e_magic|] eqn:Emagic; [cbn [rbind] in H|discriminate].
  destruct (Z.eqb_spec e_magic 23117) as [->|]; [cbn [negb] in H|discriminate].
  destruct (readUInt32LE b 60) as [e_lfanew|] eqn:Elfanew; [cbn [rbind] in H|discriminate].
  repeat match type of H with
         | (if ?c then Throw _ else _) = Ok _ => destruct c; [discriminate|]
         | rbind (readUInt16LE b (?e + 4 + 2)) _ = Ok _ =>
             destruct (readUInt16LE b (e + 4 + 2)) as [numSec|] eqn:Enum;
             [cbn [rbind] in H|discriminate]
         | rbind (PE.section_loop ?k ?b ?base 0 []) _ = Ok _ =>
             destruct (PE.section_loop k b base 0 []) as [secs|] eqn:Esecs;
             [cbn [rbind] in H|discriminate]
         | rbind ?x _ = Ok _ => destruct x eqn:?; [cbn [rbind] in H|discriminate]
         end.
  injection H as <-. cbn [format pbits numSections sections].
  split.
  { apply readUInt16LE_bytes in Emagic as (v0 & v1 & B0 & B1 & R0 & R1 & Hv & _).
    assert (v0 = 0x4d /\ v1 = 0x5a) as [-> ->] by lia.
    unfold detectFormat. cbv zeta. destruct (Z.ltb_spec (blen b) 4); [lia|].
    change (0 + 1) with 1 in B1. rewrite B0, B1. reflexivity. }
  split; [reflexivity|]. split.
  { repeat match goal with
           | |- context [if ?c then Some _ else _] => destruct c
           end; cbn [PE.m_bits]; auto. }
  split.
  { exists e_lfanew. split; [reflexivity|].
    replace (e_lfanew + 6) with (e_lfanew + 4 + 2) by lia. exact Enum. }
  apply readUInt16LE_bytes in Enum as (v0 & v1 & _ & _ & R0 & R1 & -> & _).
  split; [lia|]. apply section_loop_length in Esecs. cbn in Esecs. lia.
Qed.

Lemma parsePE_accepts_witness :
  dtype (detectFormat (Fixtures.pe_image 0x60000020)) = pe /\
  format Fixtures.pe_text_parsed = "PE" /\
  readUInt16LE (Fixtures.pe_image 0x60000020) (0x40 + 6) =
    Ok (numSections Fixtures.pe_text_parsed).
Proof.
  destruct (parsePE_accepts (Fixtures.pe_image 0x60000020) Fixtures.pe_text_parsed)
    as (H1 & H2 & _ & (e & He & Hn) & _).
  - vm_compute. reflexivity.
  - split; [exact H1|]. split; [exact H2|].
    assert (e = 0x40) as <-; [|exact Hn].
    vm_compute in He. injection He as <-. reflexivity.
Defined.

Section SectionTable.

Lemma read_bytes_ok b off n :
  0 <= off -> off + Z.of_nat n <= blen b -> exists l, read_bytes b off n = Ok l.
Proof.
  intros H0 H1. unfold read_bytes.
  destruct (Z.ltb_spec off 0); [lia|]. destruct (Z.ltb_spec (blen b) (off + Z.of_nat n)); [lia|].
  eauto.
Qed.

Lemma readUInt32LE_ok b off :
  0 <= off -> off + 4 <= blen b -> exists v, readUInt32LE b off = Ok v.
Proof.
  intros H0 H1. unfold readUInt32LE.
  destruct (read_bytes_ok b off 4 H0 ltac:(lia)) as [l ->]. cbn [rbind]. eauto.
Qed.

Lemma PE_read_section_total b base i :
  0 <= base -> 0 <= i ->
  (blen b < base + i * 40 + 40 /\ PE.read_section b base i = None) \/
  (base + i * 40 + 40 <= blen b /\ exists s, PE.read_section b base i = Some (Ok s)).
Proof.
  intros Hb Hi. unfold PE.read_section. cbv zeta.
  destruct (Z.ltb_spec (blen b) (base + i * 40 + 40)) as [Hlt|Hge]; [left; auto|right].
  split; [exact Hge|].
  destruct (readUInt32LE_ok b (base + i * 40 + 8)) as [v1 ->]; [lia|lia|].
  destruct (readUInt32LE_ok b (base + i * 40 + 12)) as [v2 ->]; [lia|lia|].
  destruct (readUInt32LE_ok b (base + i * 40 + 16)) as [v3 ->]; [lia|lia|].
  destruct (readUInt32LE_ok b (base + i * 40 + 20)) as [v4 ->]; [lia|lia|].
  destruct (readUInt32LE_ok b (base + i * 40 + 36)) as [v5 ->]; [lia|lia|].
  cbn [rbind]. eauto.
Qed.

Lemma PE_section_loop_total k b base i acc :
  0 <= base -> 0 <= i ->
  exists l, PE.section_loop k b base i acc = Ok (acc ++ l)%list /\
    length l = Nat.min k (Z.to_nat ((blen b - base) / 40 - i)).
Proof.
  intros Hb. revert i acc. induction k as [|k IH]; intros i acc Hi.
  - exists []. cbn. rewrite app_nil_r. auto.
  - cbn [PE.section_loop].
    destruct (PE_read_section_total b base i Hb Hi) as [[Hlt ->]|[Hge [s ->]]].
    + exists []. rewrite app_nil_r. split; [reflexivity|].
      assert ((blen b - base) / 40 <= i); [|cbn [length]; lia].
      assert ((blen b - base) / 40 < i + 1); [|lia].
      apply Z.div_lt_upper_bound; lia.
    + cbn [rbind]. destruct (IH (i + 1) (acc ++ [s])%list ltac:(lia)) as (l & -> & Hl).
      exists (s :: l). rewrite <- app_assoc. split; [reflexivity|].
      cbn [length]. rewrite Hl.
      assert (i + 1 <= (blen b - base) / 40) by (apply Z.div_le_lower_bound; lia).
      lia.
Qed.

End SectionTable.

(** X26. The PE section loop reads without ever leaving the buffer: from a
    section table at a non-negative offset it returns, and the number of
    entries is the stated count or the number of whole 40-byte entries that
    fit between the table and the end of the file, whichever is smaller. *)
Theorem PE_section_table_fits (k : nat) (b : buffer) (base : Z) :
  0 <= base ->
  exists l, PE.section_loop k b base 0 [] = Ok l /\
    length l = Nat.min k (Z.to_nat ((blen b - base) / 40)).
Proof.
  intros Hb. destruct (PE_section_loop_total k b base 0 [] Hb ltac:(lia)) as (l & H & Hl).
  exists l. split; [exact H|]. rewrite Hl, Z.sub_0_r. reflexivity.
Qed.

Lemma PE_section_table_fits_witness :
  exists l, PE.section_loop 3 (Fixtures.pe_image 0x20) 0x148 0 [] = Ok l /\ length l = 1%nat.
Proof.
  destruct (PE_section_table_fits 3 (Fixtures.pe_image 0x20) 0x148) as (l & H & Hl); [lia|].
  exists l. split; [exact H|]. rewrite Hl. vm_compute. reflexivity.
Defined.

(** X27. A file that detectFormat takes for neither PE nor ELF is always
    analysed: the report has no sections, no disassembled section, base
    address 0 and no byte-signature entries, its instructions are those of the
    whole file disassembled at address 0 in 32-bit mode, and the file is
    reported as 32 bits of unknown architecture. *)
Theorem analyzeFile_raw (icedX86 : Disassembler.iced) (b : buffer)
    (originalName : string) (fileSize : Z) :
  dtype (detectFormat b) <> pe -> dtype (detectFormat b) <> elf ->
  exists r, analyzeFile icedX86 b originalName fileSize = Ok r /\
    rsections r = [] /\ section (disasm r) = None /\ baseVA (disasm r) = 0 /\
    byteSigs (analysis r) = [] /\
    instructions (disasm r) =
      Disassembler.instructions (Disassembler.disassemble icedX86 b 0 32) /\
    fallback (disasm r) =
      Disassembler.fallback (Disassembler.disassemble icedX86 b 0 32) /\
    file r !! "bits" = Some (num 32) /\ file r !! "arch" = Some (text "unknown").
Proof.
  intros Hpe Helf. unfold analyzeFile. cbv zeta.
  destruct (dtype (detectFormat b)) eqn:Ed; try contradiction;
    cbn [rbind sections findCodeSection List.find or_else length Nat.eqb];
    (eexists; split; [reflexivity|]);
    cbn [rsections disasm analysis section baseVA byteSigs instructions fallback file map];
    repeat split; reflexivity.
Qed.

Lemma analyzeFile_raw_witness :
  exists r, analyzeFile Disassembler.Unavailable Fixtures.raw_file "a.bin" 4 = Ok r /\
    rsections r = [] /\ byteSigs (analysis r) = [].
Proof.
  destruct (analyzeFile_raw Disassembler.Unavailable Fixtures.raw_file "a.bin" 4)
    as (r & H & H1 & _ & _ & H2 & _).
  - vm_compute. discriminate.
  - vm_compute. discriminate.
  - exists r. auto.
Defined.

Section ELFFacts.

Lemma ELF_bits_range machName (is64 : bool) :
  let bits := match List.find (fun kv : string * Z => String.eqb (fst kv) machName) ELF.ARCH_BITS with
              | Some (_, n) => n
              | None => if is64 then 64 else 32
              end in
  bits = 32 \/ bits = 64.
Proof.
  cbv zeta. destruct (List.find _ ELF.ARCH_BITS) as [[k n]|] eqn:Ef.
  - apply find_some in Ef as [Hin _]. unfold ELF.ARCH_BITS in Hin. cbn [In] in Hin.
    repeat (destruct Hin as [Hin|Hin]; [injection Hin as <- <-; auto|]). contradiction.
  - destruct is64; auto.
Qed.

Lemma ELF_read_section_shape b r shstr shoff shent i s :
  ELF.read_section b r shstr shoff shent i = Some (Ok s) ->
  name s <> "" /\ rawSize s = virtualSize s /\ is_Some (typeStr s) /\ flagsStr s <> "" /\
  (isCode s = true <-> Z.land (sflags s) 4 <> 0).
Proof.
  unfold ELF.read_section. cbv zeta.
  destruct (blen b <? _); [discriminate|].
  intros H. injection H as H.
  repeat match type of H with
         | rbind ?x _ = Ok _ => destruct x; [cbn [rbind] in H|discriminate]
         end.
  injection H as <-. cbn [name rawSize virtualSize typeStr flagsStr isCode sflags].
  split.
  { destruct (String.eqb_spec (ELF.readCStr shstr a) ""); [discriminate|assumption]. }
  split; [reflexivity|]. split; [eauto|]. split.
  { match goal with |- (if ?c then _ else _) <> _ => destruct c eqn:Ec end; [discriminate|].
    intros Heq. rewrite Heq in Ec. discriminate. }
  rewrite and32_mask by lia. rewrite negb_true_iff, Z.eqb_neq. reflexivity.
Qed.

Lemma ELF_section_loop_shape (P : Section_ -> Prop) k b r shstr shoff shent i acc l :
  (forall i s, ELF.read_section b r shstr shoff shent i = Some (Ok s) -> P s) ->
  Forall P acc ->
  ELF.section_loop k b r shstr shoff shent i acc = Ok l -> Forall P l.
Proof.
  intros HP. revert i acc. induction k as [|k IH]; intros i acc Hacc H; cbn [ELF.section_loop] in H.
  - injection H as <-. exact Hacc.
  - destruct (ELF.read_section b r shstr shoff shent i) as [[s|e]|] eqn:E.
    + cbn [rbind] in H. apply (IH (i + 1) (acc ++ [s])%list); [|exact H].
      apply Forall_app. split; [exact Hacc|].
      apply Forall_cons. split; [|apply Forall_nil_2]. apply (HP _ _ E).
    + discriminate.
    + injection H as <-. exact Hacc.
Qed.

End ELFFacts.

(** X28. What parseELF accepts, detectFormat calls an ELF file; the result has
    the format ELF, a bit width of 32 or 64 and a section count that is the
    number of its section entries; every entry has a name that is not empty,
    a type and a flags string, a raw size equal to its virtual size, and is
    marked as code exactly when SHF_EXECINSTR (4) is set in its flags. *)
Theorem parseELF_accepts (b : buffer) (p : Parsed) :
  ELF.parseELF b = Ok p ->
  dtype (detectFormat b) = elf /\ format p = "ELF" /\
  (pbits p = 32 \/ pbits p = 64) /\
  numSections p = Z.of_nat (length (sections p)) /\
  Forall (fun s => name s <> "" /\ rawSize s = virtualSize s /\ is_Some (typeStr s) /\
                   flagsStr s <> "" /\ (isCode s = true <-> Z.land (sflags s) 4 <> 0))
    (sections p).
Proof.
  unfold ELF.parseELF. intros H.
  destruct (Z.ltb_spec (blen b) 16) as [|Hlen]; [discriminate|].
  destruct (_ && _) eqn:Emagic; [cbn [negb] in H|discriminate].
  cbv zeta in H.
  repeat match type of H with
         | rbind (ELF.section_loop ?k ?b ?r ?s ?o ?e 0 []) _ = Ok _ =>
             destruct (ELF.section_loop k b r s o e 0 []) as [secs|] eqn:Esecs;
             [cbn [rbind] in H|discriminate]
         | rbind ?x _ = Ok _ => destruct x eqn:?; [cbn [rbind] in H|discriminate]
         end.
  injection H as <-. cbn [format pbits numSections sections].
  split.
  { apply andb_prop in Emagic as [Em E3]. apply andb_prop in Em as [Em E2].
    apply andb_prop in Em as [E0 E1].
    unfold detectFormat. cbv zeta. destruct (Z.ltb_spec (blen b) 4); [lia|].
    apply Z.eqb_eq in E0. rewrite E0. cbn [Z.eqb Pos.eqb andb].
    rewrite E1, E2, E3. reflexivity. }
  split; [reflexivity|]. split; [apply ELF_bits_range|]. split; [reflexivity|].
  eapply ELF_section_loop_shape; [|apply Forall_nil_2|exact Esecs].
  intros i s Hs. exact (ELF_read_section_shape _ _ _ _ _ _ _ Hs).
Qed.

Lemma parseELF_accepts_witness :
  Analyzer.dtype (Analyzer.detectFormat elf_image) = Analyzer.elf /\
  Forall (fun s => isCode s = true <-> Z.land (sflags s) 4 <> 0) (sections elf_parsed).
Proof.
  destruct (parseELF_accepts elf_image elf_parsed) as (H1 & _ & _ & _ & H2).
  - vm_compute. reflexivity.
  - split; [exact H1|]. eapply Forall_impl; [exact H2|]. intros s Hs.
    cbv beta in Hs. destruct Hs as (_ & _ & _ & _ & H). exact H.
Defined.

End AnalyzerFurther.

(** ** Disassembler *)

Section DisassemblerFurther.
Import Disassembler.

Section HexDump.

Lemma take_plus {A} (n m : nat) (l : list A) :
  take (n + m) l = (take n l ++ take m (drop n l))%list.
Proof.
  revert l. induction n as [|n IH]; intros l; [reflexivity|].
  destruct l as [|x l]; cbn; [destruct m; reflexivity|]. rewrite IH. reflexivity.
Qed.

Lemma hexDump_loop_done k b off limit i : limit <= i -> hexDump_loop k b off limit i = [].
Proof.
  intros H. destruct k; [reflexivity|]. cbn [hexDump_loop].
  destruct (Z.ltb_spec i limit); [lia|reflexivity].
Qed.

Lemma bslice_eq b a e :
  0 <= a <= e -> e <= blen b -> bslice b a e = take (Z.to_nat (e - a)) (drop (Z.to_nat a) b).
Proof.
  intros H1 H2. unfold bslice. rewrite !Z.min_l by lia. reflexivity.
Qed.

Lemma length_str l : String.length (str l) = length l.
Proof. induction l as [|c l IH]; [reflexivity|]. cbn. unfold str in IH. rewrite IH. reflexivity. Qed.

Lemma hexDump_loop_spec k b off limit i :
  0 <= i <= limit -> limit <= blen b -> limit <= i + 16 * Z.of_nat k ->
  let rows := hexDump_loop k b off limit i in
  length rows = Z.to_nat ((limit - i + 15) / 16) /\
  flat_map (fun r => chars (mnemonic r)) rows =
    map printable (take (Z.to_nat (limit - i)) (drop (Z.to_nat i) b)) /\
  Forall (fun r => operands r = "" /\ (String.length (mnemonic r) <= 16)%nat) rows.
Proof.
  cbv zeta. revert i. induction k as [|k IH]; intros i Hi Hl Hk.
  - assert (limit = i) as -> by lia. cbn.
    rewrite Z.sub_diag. cbn. rewrite take_0. auto.
  - cbn [hexDump_loop]. destruct (Z.ltb_spec i limit) as [Hlt|Hge].
    2:{ assert (limit = i) as -> by lia. rewrite Z.sub_diag. cbn. rewrite take_0. auto. }
    cbn [length flat_map mnemonic operands].
    rewrite bslice_eq by lia. rewrite chars_str.
    destruct (Z.le_gt_cases (i + 16) limit) as [Hfull|Hpart].
    + destruct (IH (i + 16)) as (H1 & H2 & H3); [lia|lia|lia|].
      rewrite H1, H2. rewrite Z.min_l by lia. split; [|split].
      * replace (limit - i + 15) with ((limit - (i + 16) + 15) + 1 * 16) by lia.
        rewrite Z.div_add by lia.
        assert (0 <= (limit - (i + 16) + 15) / 16) by (apply Z.div_pos; lia). lia.
      * rewrite <- map_app. f_equal.
        replace (Z.to_nat (limit - i)) with (Z.to_nat (i + 16 - i) + Z.to_nat (limit - (i + 16)))%nat by lia.
        rewrite take_plus. f_equal. rewrite drop_drop. do 2 f_equal. lia.
      * apply Forall_cons. split; [|exact H3]. split; [reflexivity|].
        cbn [mnemonic]. rewrite length_str, length_map, length_take. lia.
    + rewrite hexDump_loop_done by lia. rewrite Z.min_r by lia. cbn [length app].
      rewrite app_nil_r. split; [|split].
      * assert ((limit - i + 15) / 16 = 1); [|lia].
        symmetry. apply Z.div_unique with (r := limit - i - 1). lia. lia.
      * reflexivity.
      * apply Forall_cons. split; [|apply Forall_nil_2]. split; [reflexivity|].
        cbn [mnemonic]. rewrite length_str, length_map, length_take. lia.
Qed.

Lemma hexDump_spec b off :
  length (hexDump b off) = Z.to_nat ((Z.min (blen b) 512 + 15) / 16) /\
  flat_map (fun r => chars (mnemonic r)) (hexDump b off) = map printable (take 512 b) /\
  Forall (fun r => operands r = "" /\ (String.length (mnemonic r) <= 16)%nat) (hexDump b off).
Proof.
  unfold hexDump. cbv zeta.
  destruct (hexDump_loop_spec 32 b off (Z.min (blen b) 512) 0) as (H1 & H2 & H3);
    [unfold blen; lia|lia|lia|].
  rewrite Z.sub_0_r in H1, H2. split; [exact H1|]. split; [|exact H3].
  rewrite H2. change (drop (Z.to_nat 0) b) with b. apply (f_equal (map printable)). unfold blen.
  destruct (Z.le_gt_cases (Z.of_nat (length b)) 512).
  - rewrite Z.min_l by lia. rewrite Nat2Z.id.
    rewrite (take_ge b (length b)) by lia. rewrite (take_ge b 512) by lia. reflexivity.
  - rewrite Z.min_r by lia. reflexivity.
Qed.

Lemma hexDump_short b off : (length (hexDump b off) <= 32)%nat.
Proof.
  destruct (hexDump_spec b off) as (H & _). rewrite H.
  assert ((Z.min (blen b) 512 + 15) / 16 < 33) by (apply Z.div_lt_upper_bound; lia). lia.
Qed.

Lemma build_length items data bits offset : length (build items data bits offset) = length items.
Proof.
  revert offset. induction items as [|x items IH]; intros offset; [reflexivity|].
  cbn [build length]. rewrite IH. reflexivity.
Qed.

End HexDump.

(** X29. The hex dump shows the first 512 bytes of the buffer and nothing else:
    one row for every 16 bytes begun, the ASCII columns of the rows in order
    are the bytes rendered one character each, no row has more than 16
    characters or any operand. *)
Theorem hexDump_covers (b : buffer) (startOffset : Z) :
  length (hexDump b startOffset) = Z.to_nat ((Z.min (blen b) 512 + 15) / 16) /\
  flat_map (fun r => chars (mnemonic r)) (hexDump b startOffset) =
    map printable (take 512 b) /\
  Forall (fun r => operands r = "" /\ (String.length (mnemonic r) <= 16)%nat)
    (hexDump b startOffset).
Proof. apply hexDump_spec. Qed.

(** X30. disassemble never returns more than MAX_INSTRUCTIONS entries, and a
    fallback result never more than 32 rows; without the decoder module the
    result is always the fallback. *)
Theorem disassemble_bounded (icedX86 : iced) (b : buffer) (virtualAddress bits : Z) :
  let r := disassemble icedX86 b virtualAddress bits in
  Z.of_nat (length (instructions r)) <= MAX_INSTRUCTIONS /\
  (fallback r = true -> (length (instructions r) <= 32)%nat) /\
  (icedX86 = Unavailable -> fallback r = true).
Proof.
  cbv zeta. unfold disassemble. cbv zeta.
  set (data := if MAX_BYTES <? blen b then bslice b 0 MAX_BYTES else b).
  pose proof (hexDump_short data virtualAddress) as Hs.
  destruct icedX86 as [|decode].
  - cbn [instructions fallback]. unfold MAX_INSTRUCTIONS. split; [lia|]. auto.
  - destruct (decode _ data virtualAddress) as [items throws].
    destruct (_ && throws); cbn [instructions fallback].
    + unfold MAX_INSTRUCTIONS. split; [lia|]. split; [auto|discriminate].
    + rewrite build_length, length_take. unfold MAX_INSTRUCTIONS.
      split; [lia|]. split; discriminate.
Qed.

End DisassemblerFurther.
